(** * StoryReel: scene compositor, export pipeline and preview clock

    A shallow embedding of the frame compositor ([drawCover],
    [drawSubtitles]), the export pipeline ([generateVideo] and its caller
    [handleExportFullMovie]) and the interactive preview's scene clock
    ([handleSceneEnd], [skip], the main playback effect and its [animate]
    loop).

    Conventions of the embedding.
    - A JavaScript [number] that carries a length, a time or a ratio is a
      rational of [Q]: arithmetic is exact, the rounding of IEEE doubles is
      not modelled.  Statements about such numbers use [==] ([Qeq]).
    - An optional string property ([imageUrl?: string]) is an
      [option string]; JavaScript truthiness of such a value is [truthy].
    - DOM objects are records of the fields the code reads or writes.
    - Effects of the export pipeline are an explicit clock plus a log of
      the calls made on the canvas, the audio graph and the recorder. *)

From Stdlib Require Import QArith Qminmax Qround Lqa.
From Stdlib Require Import ZArith Lia List Bool String Ascii.
From Stdlib Require DecimalString DecimalNat.
Import ListNotations.

Local Open Scope Q_scope.

(** ** JavaScript values *)

Module JS.

(** [!!s] for an optional string: absent and empty are falsy. *)
Definition truthy (s : option string) : bool :=
  match s with
  | None => false
  | Some EmptyString => false
  | Some (String _ _) => true
  end.

(** [a || b] where [a] is a possibly absent number: [undefined] and [0]
    select [b]. *)
Definition orNum (a : option Q) (b : Q) : Q :=
  match a with
  | None => b
  | Some x => if Qeq_bool x 0 then b else x
  end.

Lemma orNum_some_nonzero (x b : Q) : ~ x == 0 -> orNum (Some x) b = x.
Proof.
  intros Hx. unfold orNum.
  destruct (Qeq_bool x 0) eqn:E; [|reflexivity].
  apply Qeq_bool_eq in E. contradiction.
Qed.

End JS.

(** ** Frame compositor: cover-fit *)

(** The two kinds of element [drawCover] accepts.  An image has no
    [videoWidth]; a video element has both its intrinsic size and the
    [width]/[height] attributes. *)
Inductive Visual : Type :=
| ImageEl (width height : Q)
| VideoEl (videoWidth videoHeight width height : Q).

Definition isVideo (v : Visual) : bool :=
  match v with VideoEl _ _ _ _ => true | ImageEl _ _ => false end.

(** Arguments of the single [ctx.drawImage(img, offX, offY, newW, newH)]
    call. *)
Record Rect : Type := mkRect { offX : Q; offY : Q; newW : Q; newH : Q }.

(** [(img as HTMLVideoElement).videoWidth || (img as HTMLImageElement).width] *)
Definition imgW (img : Visual) : Q :=
  match img with
  | ImageEl w _ => JS.orNum None w
  | VideoEl vw _ w _ => JS.orNum (Some vw) w
  end.

Definition imgH (img : Visual) : Q :=
  match img with
  | ImageEl _ h => JS.orNum None h
  | VideoEl _ vh _ h => JS.orNum (Some vh) h
  end.

Definition drawCover (img : Visual) (width height : Q) : Rect :=
  let ratio := Qmax (width / imgW img) (height / imgH img) in
  let nW := imgW img * ratio in
  let nH := imgH img * ratio in
  let oX := (width - nW) / 2 in
  let oY := (height - nH) / 2 in
  mkRect oX oY nW nH.

(** The scale factor of the source, as the specification writes it. *)
Definition coverRatio (sw sh w h : Q) : Q := Qmax (w / sw) (h / sh).

Section CoverFit.

Variables sw sh w h : Q.
Hypothesis Hsw : 0 < sw.
Hypothesis Hsh : 0 < sh.

Lemma coverRatio_ge_w : w / sw <= coverRatio sw sh w h.
Proof. apply Q.le_max_l. Qed.

Lemma coverRatio_ge_h : h / sh <= coverRatio sw sh w h.
Proof. apply Q.le_max_r. Qed.

Lemma scaled_width_covers : w <= sw * coverRatio sw sh w h.
Proof.
  assert (E : w == sw * (w / sw)) by (field; lra).
  rewrite E at 1.
  apply Qmult_le_l; [exact Hsw | apply coverRatio_ge_w].
Qed.

Lemma scaled_height_covers : h <= sh * coverRatio sw sh w h.
Proof.
  assert (E : h == sh * (h / sh)) by (field; lra).
  rewrite E at 1.
  apply Qmult_le_l; [exact Hsh | apply coverRatio_ge_h].
Qed.

Lemma coverRatio_pos : 0 < w -> 0 < coverRatio sw sh w h.
Proof.
  intros Hw.
  apply Qlt_le_trans with (w / sw); [|apply coverRatio_ge_w].
  apply Qlt_shift_div_l; lra.
Qed.

End CoverFit.

(** A visual whose resolved source size is [sw] x [sh]. *)
Definition hasSize (img : Visual) (sw sh : Q) : Prop :=
  imgW img = sw /\ imgH img = sh.

(** C4: for positive source and target dimensions [drawCover] scales the
    source by [max (w/sw) (h/sh)], the drawn rectangle is at least as wide
    and as high as the target, it overflows the target by the same amount
    on opposite sides (so every point of the target lies inside it), and
    its width/height ratio is the source's. *)
Theorem drawCover_covers_centered_undistorted
    (img : Visual) (sw sh w h : Q)
    (Hsize : hasSize img sw sh)
    (Hsw : 0 < sw) (Hsh : 0 < sh) (Hw : 0 < w) (Hh : 0 < h) :
  let r := drawCover img w h in
  newW r == sw * coverRatio sw sh w h /\
  newH r == sh * coverRatio sw sh w h /\
  w <= newW r /\ h <= newH r /\
  0 - offX r == (offX r + newW r) - w /\
  0 - offY r == (offY r + newH r) - h /\
  (forall x y, 0 <= x <= w -> 0 <= y <= h ->
     offX r <= x <= offX r + newW r /\ offY r <= y <= offY r + newH r) /\
  newW r / newH r == sw / sh.
Proof.
  destruct Hsize as [EW EH].
  unfold drawCover, coverRatio; cbn -[Qmax]. rewrite EW, EH.
  fold (coverRatio sw sh w h).
  pose proof (scaled_width_covers sw sh w h Hsw) as HW.
  pose proof (scaled_height_covers sw sh w h Hsh) as HH.
  pose proof (coverRatio_pos sw sh w h Hsw Hw) as Hr.
  set (k := coverRatio sw sh w h) in *.
  assert (Hox : (w - sw * k) / 2 <= 0).
  { apply Qle_shift_div_r; lra. }
  assert (Hoy : (h - sh * k) / 2 <= 0).
  { apply Qle_shift_div_r; lra. }
  assert (Ex : (w - sw * k) / 2 + sw * k == w - (w - sw * k) / 2) by field.
  assert (Ey : (h - sh * k) / 2 + sh * k == h - (h - sh * k) / 2) by field.
  repeat split; try reflexivity; try assumption; try lra.
  field. split; lra.
Qed.

Lemma drawCover_covers_centered_undistorted_witness :
  hasSize (ImageEl 1024 1024) 1024 1024 /\
  1280 <= newW (drawCover (ImageEl 1024 1024) 1280 720) /\
  720 <= newH (drawCover (ImageEl 1024 1024) 1280 720) /\
  newW (drawCover (ImageEl 1024 1024) 1280 720) /
  newH (drawCover (ImageEl 1024 1024) 1280 720) == 1024 / 1024.
Proof.
  assert (Hs : hasSize (ImageEl 1024 1024) 1024 1024) by (split; reflexivity).
  split; [exact Hs|].
  destruct (drawCover_covers_centered_undistorted
              (ImageEl 1024 1024) 1024 1024 1280 720 Hs
              eq_refl eq_refl eq_refl eq_refl)
    as (_ & _ & Hw & Hh & _ & _ & _ & Ha).
  repeat split; assumption.
Defined.

(** ** Frame compositor: subtitle overlay *)

Module Text.

Definition space : ascii := " "%char.

(** [text.split(' ')]: the pieces between single spaces; an empty text
    has one empty piece, and adjacent spaces give empty pieces. *)
Fixpoint split (s : string) : list string :=
  match s with
  | EmptyString => [EmptyString]
  | String c s' =>
      if Ascii.eqb c space then EmptyString :: split s'
      else match split s' with
           | [] => [String c EmptyString]
           | w :: ws => String c w :: ws
           end
  end.

Definition isWhite (c : ascii) : bool :=
  let n := nat_of_ascii c in
  ((n =? 32) || ((9 <=? n) && (n <=? 13)))%nat.

Fixpoint trimStart (s : string) : string :=
  match s with
  | EmptyString => EmptyString
  | String c s' => if isWhite c then trimStart s' else s
  end.

Fixpoint trimEnd (s : string) : string :=
  match s with
  | EmptyString => EmptyString
  | String c s' =>
      match trimEnd s' with
      | EmptyString => if isWhite c then EmptyString else String c EmptyString
      | t => String c t
      end
  end.

(** [s.trim()] on the whitespace of the ASCII range. *)
Definition trim (s : string) : string := trimEnd (trimStart s).

Lemma split_nonempty (s : string) : split s <> [].
Proof.
  destruct s as [|c s]; cbn; [discriminate|].
  destruct (Ascii.eqb c space); [discriminate|].
  destruct (split s); discriminate.
Qed.

End Text.

(** [a > b] on numbers. *)
Definition Qgtb (a b : Q) : bool := negb (Qle_bool a b).

Lemma Qgtb_true (a b : Q) : Qgtb a b = true <-> b < a.
Proof.
  unfold Qgtb. rewrite negb_true_iff.
  destruct (Qle_bool a b) eqn:E.
  - apply Qle_bool_iff in E. split; [discriminate | intros H; lra].
  - split; [intros _ | reflexivity].
    apply Qnot_le_lt. intros H. apply Qle_bool_iff in H. congruence.
Qed.

Lemma Qgtb_false (a b : Q) : Qgtb a b = false <-> a <= b.
Proof.
  unfold Qgtb. rewrite negb_false_iff. apply Qle_bool_iff.
Qed.

(** What [drawSubtitles] puts on the canvas: the wrapped lines, the rounded
    background box and one centred [fillText] per line. *)
Record SubtitleLayout : Type := mkSubtitleLayout {
  fontSize : Q;
  lineHeight : Q;
  maxWidth : Q;
  lines : list string;
  boxX : Q; boxY : Q; boxWidth : Q; boxHeight : Q;
  fillTexts : list (string * Q * Q)
}.

Section Subtitles.

(** [ctx.measureText(s).width] once [ctx.font] is
    [600 ${fontSize}px sans-serif]; supplied by the browser. *)
Variable measureText : Q -> string -> Q.

Section Wrap.

Variable font : Q.
Variable maxW : Q.

(** The [for (let n = 0; n < words.length; n++)] loop over the words
    not yet consumed, with the loop variables [n], [line], [lines]. *)
Fixpoint wrapLoop (words : list string) (n : nat)
         (line : string) (acc : list string) : string * list string :=
  match words with
  | [] => (line, acc)
  | w :: rest =>
      let testLine := (line ++ w ++ " ")%string in
      let testWidth := measureText font testLine in
      if Qgtb testWidth maxW && (0 <? n)%nat
      then wrapLoop rest (S n) (w ++ " ")%string (acc ++ [line])
      else wrapLoop rest (S n) testLine acc
  end.

(** The loop followed by the final [lines.push(line)]. *)
Definition wordWrap (words : list string) : list string :=
  let '(line, acc) := wrapLoop words 0 EmptyString [] in
  acc ++ [line].

End Wrap.

(** [lines.forEach(l => ...)] keeping the widest measured line. *)
Definition widest (font : Q) (ls : list string) : Q :=
  fold_left (fun m l => let w := measureText font l in
                        if Qgtb w m then w else m) ls 0.

Definition drawSubtitles (text : string) (width height : Q)
  : option SubtitleLayout :=
  match text with
  | EmptyString => None
  | _ =>
      let fontSize := Qmax 14 (inject_Z (Qfloor (width * 0.025))) in
      let lineHeight := fontSize * 1.4 in
      let paddingX := fontSize * 0.8 in
      let paddingY := fontSize * 0.4 in
      let bottomMargin := Qmax 20 (height * 0.03) in
      let maxWidth := width * 0.9 in
      let words := Text.split text in
      let lines := wordWrap fontSize maxWidth words in
      let totalTextHeight := inject_Z (Z.of_nat (List.length lines)) * lineHeight in
      let boxHeight := totalTextHeight + paddingY * 2 in
      let maxLineWidth := widest fontSize lines in
      let boxWidth := maxLineWidth + paddingX * 2 in
      let boxX := (width - boxWidth) / 2 in
      let boxY := height - bottomMargin - boxHeight in
      let textStartY := boxY + paddingY + lineHeight / 2 in
      let texts :=
        map (fun il : nat * string =>
               let yPos := textStartY
                           + inject_Z (Z.of_nat (fst il)) * lineHeight
                           - lineHeight * 0.1 in
               (Text.trim (snd il), width / 2, yPos))
            (combine (seq 0 (List.length lines)) lines) in
      Some (mkSubtitleLayout fontSize lineHeight maxWidth lines
                             boxX boxY boxWidth boxHeight texts)
  end.

(** The font size [drawSubtitles] selects for a target width. *)
Definition subtitleFont (width : Q) : Q :=
  Qmax 14 (inject_Z (Qfloor (width * 0.025))).

(** A line holding exactly one of the words. *)
Definition oneWord (words : list string) (line : string) : Prop :=
  exists w, In w words /\ line = (w ++ " ")%string.

(** A line the word-wrap accepts: within the maximum width, or a single
    word. *)
Definition lineOk (font maxW : Q) (words : list string) (line : string) : Prop :=
  measureText font line <= maxW \/ oneWord words line.

(** A measure that never shrinks when text is added on either side. *)
Definition monotoneMeasure (font : Q) : Prop :=
  forall a b : string,
    measureText font a <= measureText font (a ++ b)%string /\
    measureText font b <= measureText font (a ++ b)%string.

(** The lines of a possibly empty run of words: nothing for no word. *)
Definition wrapRun (font maxW : Q) (ws : list string) : list string :=
  match ws with [] => [] | _ => wordWrap font maxW ws end.

Section WrapProofs.

Variables font maxW : Q.

Lemma wrapLoop_invariant (all : list string) :
  forall ws n line acc,
    incl ws all ->
    (n = 0%nat -> line = EmptyString) ->
    ((0 < n)%nat -> lineOk font maxW all line) ->
    Forall (lineOk font maxW all) acc ->
    let '(line', acc') := wrapLoop font maxW ws n line acc in
    (ws <> [] \/ (0 < n)%nat -> lineOk font maxW all line') /\
    Forall (lineOk font maxW all) acc'.
Proof.
  induction ws as [|w rest IH]; intros n line acc Hin H0 Hpos Hacc.
  - cbn. split; [|exact Hacc].
    intros [C|C]; [congruence | auto].
  - cbn [wrapLoop].
    assert (Hw : In w all) by (apply Hin; left; reflexivity).
    assert (Hrest : incl rest all)
      by (intros x Hx; apply Hin; right; exact Hx).
    destruct (Qgtb (measureText font (line ++ w ++ " ")) maxW) eqn:EW;
      destruct (0 <? n)%nat eqn:EN; cbn [andb].
    + apply Nat.ltb_lt in EN.
      specialize (IH (S n) (w ++ " ")%string (acc ++ [line]) Hrest).
      destruct (wrapLoop font maxW rest (S n) (w ++ " ") (acc ++ [line]))
        as [l' a'].
      destruct IH as [IH1 IH2].
      * discriminate.
      * intros _. right. exists w. auto.
      * apply Forall_app. split; [exact Hacc|].
        constructor; [apply Hpos; exact EN | constructor].
      * split; [intros _; apply IH1; right; lia | exact IH2].
    + apply Nat.ltb_ge in EN. assert (n = 0%nat) by lia. subst n.
      rewrite (H0 eq_refl). cbn [String.append].
      specialize (IH 1%nat (w ++ " ")%string acc Hrest).
      destruct (wrapLoop font maxW rest 1 (w ++ " ") acc) as [l' a'].
      destruct IH as [IH1 IH2].
      * discriminate.
      * intros _. right. exists w. auto.
      * exact Hacc.
      * split; [intros _; apply IH1; right; lia | exact IH2].
    + apply Qgtb_false in EW.
      specialize (IH (S n) (line ++ w ++ " ")%string acc Hrest).
      destruct (wrapLoop font maxW rest (S n) (line ++ w ++ " ") acc)
        as [l' a'].
      destruct IH as [IH1 IH2].
      * discriminate.
      * intros _. left. exact EW.
      * exact Hacc.
      * split; [intros _; apply IH1; right; lia | exact IH2].
    + apply Nat.ltb_ge in EN. assert (n = 0%nat) by lia. subst n.
      rewrite (H0 eq_refl). cbn [String.append].
      specialize (IH 1%nat (w ++ " ")%string acc Hrest).
      destruct (wrapLoop font maxW rest 1 (w ++ " ") acc) as [l' a'].
      destruct IH as [IH1 IH2].
      * discriminate.
      * intros _. right. exists w. auto.
      * exact Hacc.
      * split; [intros _; apply IH1; right; lia | exact IH2].
Qed.

(** Every line of a wrapped non-empty word list is acceptable. *)
Lemma wordWrap_lines_ok (words : list string) :
  words <> [] -> Forall (lineOk font maxW words) (wordWrap font maxW words).
Proof.
  intros Hne. unfold wordWrap.
  pose proof (wrapLoop_invariant words words 0 EmptyString []
                (incl_refl _) (fun _ => eq_refl)) as H.
  destruct (wrapLoop font maxW words 0 EmptyString []) as [l a].
  destruct H as [H1 H2]; [lia | constructor |].
  apply Forall_app. split; [exact H2|].
  constructor; [apply H1; left; exact Hne | constructor].
Qed.

(** Lines already pushed are never touched again. *)
Lemma wrapLoop_acc_prefix (pushed : list string) :
  forall ws n line acc,
    wrapLoop font maxW ws n line (pushed ++ acc) =
    (fst (wrapLoop font maxW ws n line acc),
     pushed ++ snd (wrapLoop font maxW ws n line acc)).
Proof.
  induction ws as [|w rest IH]; intros n line acc; cbn [wrapLoop].
  - reflexivity.
  - destruct (Qgtb _ maxW && (0 <? n)%nat).
    + rewrite <- app_assoc. apply IH.
    + apply IH.
Qed.

(** Past the first word the loop index no longer matters. *)
Lemma wrapLoop_pos_index :
  forall ws n m line acc,
    (0 < n)%nat -> (0 < m)%nat ->
    wrapLoop font maxW ws n line acc = wrapLoop font maxW ws m line acc.
Proof.
  induction ws as [|w rest IH]; intros n m line acc Hn Hm; cbn [wrapLoop].
  - reflexivity.
  - apply Nat.ltb_lt in Hn as En. apply Nat.ltb_lt in Hm as Em.
    rewrite En, Em.
    destruct (Qgtb _ maxW); cbn [andb]; apply IH; lia.
Qed.

Lemma wrapLoop_app :
  forall pre rest n line acc,
    wrapLoop font maxW (pre ++ rest) n line acc =
    wrapLoop font maxW rest (n + List.length pre)
             (fst (wrapLoop font maxW pre n line acc))
             (snd (wrapLoop font maxW pre n line acc)).
Proof.
  induction pre as [|w pre IH]; intros rest n line acc.
  - cbn. now rewrite Nat.add_0_r.
  - cbn [app wrapLoop List.length].
    destruct (Qgtb _ maxW && (0 <? n)%nat);
      rewrite IH; f_equal; lia.
Qed.

(** The first word always opens the first line. *)
Lemma wrapLoop_first (w : string) (rest : list string) :
  wrapLoop font maxW (w :: rest) 0 EmptyString [] =
  wrapLoop font maxW rest 1 (w ++ " ")%string [].
Proof.
  cbn [wrapLoop]. rewrite andb_false_r. reflexivity.
Qed.

Hypothesis Hmono : monotoneMeasure font.

(** Once a too-wide word is the current line, the next word starts a
    new line, and the rest wraps as if it stood alone. *)
Lemma wide_word_then (w : string) (post : list string) (n : nat)
      (acc : list string) :
  maxW < measureText font (w ++ " ")%string ->
  (0 < n)%nat ->
  snd (wrapLoop font maxW post n (w ++ " ")%string acc)
      ++ [fst (wrapLoop font maxW post n (w ++ " ")%string acc)]
  = acc ++ (w ++ " ")%string :: wrapRun font maxW post.
Proof.
  intros Hwide Hn. destruct post as [|p post].
  - reflexivity.
  - cbn [wrapLoop wrapRun].
    assert (Hc : Qgtb (measureText font ((w ++ " ") ++ p ++ " ")) maxW = true).
    { apply Qgtb_true.
      destruct (Hmono (w ++ " ")%string (p ++ " ")%string) as [Hl _]. lra. }
    apply Nat.ltb_lt in Hn as En. rewrite Hc, En. cbn [andb].
    unfold wordWrap. rewrite wrapLoop_first.
    rewrite (wrapLoop_pos_index post (S n) 1) by lia.
    rewrite <- (app_nil_r (acc ++ [(w ++ " ")%string])).
    rewrite wrapLoop_acc_prefix. cbn [fst snd].
    destruct (wrapLoop font maxW post 1 (p ++ " ") []) as [l a].
    cbn [fst snd]. rewrite <- !app_assoc. reflexivity.
Qed.

(** A word wider than the maximum width gets a line of its own, whole;
    the words before it and after it wrap independently. *)
Lemma wide_word_alone (pre post : list string) (w : string) :
  maxW < measureText font (w ++ " ")%string ->
  wordWrap font maxW (pre ++ w :: post) =
  wrapRun font maxW pre ++ (w ++ " ")%string :: wrapRun font maxW post.
Proof.
  intros Hwide. unfold wordWrap at 1.
  destruct (wrapLoop font maxW (pre ++ w :: post) 0 EmptyString [])
    as [l a] eqn:E.
  rewrite wrapLoop_app in E.
  destruct pre as [|p pre].
  - cbn [wrapLoop fst snd List.length Nat.add wrapRun app] in E |- *.
    rewrite andb_false_r in E. cbn [String.append] in E.
    pose proof (wide_word_then w post 1 [] Hwide Nat.lt_0_1) as H.
    rewrite E in H. exact H.
  - cbn [wrapRun]. unfold wordWrap.
    destruct (wrapLoop font maxW (p :: pre) 0 EmptyString []) as [l0 a0].
    cbn [fst snd] in E. cbn [wrapLoop List.length Nat.add] in E.
    assert (Hc : Qgtb (measureText font (l0 ++ w ++ " ")) maxW = true).
    { apply Qgtb_true.
      destruct (Hmono l0 (w ++ " ")%string) as [_ Hr]. lra. }
    rewrite Hc in E. cbn [Nat.ltb Nat.leb andb] in E.
    pose proof (wide_word_then w post (S (S (List.length pre))) (a0 ++ [l0])
                  Hwide (Nat.lt_0_succ _)) as H.
    rewrite E in H. exact H.
Qed.

End WrapProofs.

(** C5: for a non-empty subtitle text [drawSubtitles] lays out lines each
    of which measures at most 0.9 x the target width or consists of
    exactly one word; and, for a measure that never shrinks when text is
    added, a word wider than that maximum is alone on its line,
    untruncated, between the independently wrapped words before it and
    after it. *)
Theorem drawSubtitles_wrap_width (text : string) (width height : Q)
        (Htext : text <> EmptyString) :
  exists layout,
    drawSubtitles text width height = Some layout /\
    maxWidth layout == 0.9 * width /\
    fontSize layout = subtitleFont width /\
    Forall (lineOk (fontSize layout) (maxWidth layout) (Text.split text))
           (lines layout) /\
    (monotoneMeasure (fontSize layout) ->
     forall pre w post,
       Text.split text = pre ++ w :: post ->
       maxWidth layout < measureText (fontSize layout) (w ++ " ")%string ->
       lines layout =
       wrapRun (fontSize layout) (maxWidth layout) pre
         ++ (w ++ " ")%string
         :: wrapRun (fontSize layout) (maxWidth layout) post).
Proof.
  destruct text as [|c t]; [congruence|].
  eexists. split; [reflexivity|]. cbn [maxWidth fontSize lines].
  split; [ring|]. split; [reflexivity|]. split.
  - apply wordWrap_lines_ok. apply Text.split_nonempty.
  - intros Hmono pre w post Hsplit Hwide.
    rewrite Hsplit. apply wide_word_alone; assumption.
Qed.

End Subtitles.

(** A fixed-pitch measure, 8 units a character whatever the font size. *)
Definition fixedPitch (font : Q) (s : string) : Q :=
  inject_Z (Z.of_nat (String.length s)) * 8.

Lemma length_append (a b : string) :
  String.length (a ++ b) = (String.length a + String.length b)%nat.
Proof. induction a as [|c a IH]; cbn; [reflexivity | now rewrite IH]. Qed.

Lemma fixedPitch_monotone (font : Q) : monotoneMeasure fixedPitch font.
Proof.
  intros a b. unfold fixedPitch. rewrite length_append, Nat2Z.inj_add, inject_Z_plus.
  assert (0 <= inject_Z (Z.of_nat (String.length a))).
  { change 0 with (inject_Z 0). rewrite <- Zle_Qle. lia. }
  assert (0 <= inject_Z (Z.of_nat (String.length b))).
  { change 0 with (inject_Z 0). rewrite <- Zle_Qle. lia. }
  split; lra.
Qed.

Lemma drawSubtitles_wrap_width_witness :
  "hi extraordinarily there"%string <> EmptyString /\
  exists layout,
    drawSubtitles fixedPitch "hi extraordinarily there" 100 100 = Some layout /\
    In "extraordinarily "%string (lines layout).
Proof.
  assert (Hne : "hi extraordinarily there"%string <> EmptyString) by discriminate.
  split; [exact Hne|].
  destruct (drawSubtitles_wrap_width fixedPitch
              "hi extraordinarily there" 100 100 Hne)
    as (layout & E & Hmax & _ & _ & Hwide).
  exists layout. split; [exact E|].
  rewrite (Hwide (fixedPitch_monotone _) ["hi"%string] "extraordinarily"%string
                 ["there"%string] eq_refl).
  - apply in_or_app. right. left. reflexivity.
  - rewrite Hmax. reflexivity.
Defined.

(** The same text wrapped at a target width of 100. *)
Example wordWrap_wide_word :
  wordWrap fixedPitch 14 90
           (Text.split "hi extraordinarily there") =
  ["hi "; "extraordinarily "; "there "]%string.
Proof. reflexivity. Qed.

(** Two spaces in a row give an empty word, which wraps like any other. *)
Example wordWrap_double_space :
  wordWrap fixedPitch 14 40 (Text.split "ab  cdef") =
  ["ab  "; "cdef "]%string.
Proof. reflexivity. Qed.

(** ** Scenes ([types.ts]) *)

Inductive SceneStatus : Type := pending | loading | completed | error.

Record GeneratedScene : Type := mkScene {
  id : string;
  narration : string;
  visual_prompt : string;
  imageUrl : option string;
  videoUrl : option string;
  audioUrl : option string;
  status : SceneStatus;
  isRegeneratingAudio : bool;
  isRegeneratingImage : bool;
  isGeneratingVideo : bool
}.

(** A decoded narration buffer; only its length in seconds is read. *)
Record AudioBuffer : Type := mkAudioBuffer { duration : Q }.

Record Blob : Type := mkBlob { blobType : string }.

(** ** The browser as the export pipeline sees it *)

(** The calls the pipeline makes on the canvas, the audio graph, the
    recorder and the page, in the order they are made; a call of the setup
    is recorded once it has returned, [VideoPlay] when [play()] is called.
    Calls on the audio graph and the render loop's [resolve()] carry the
    reading of the simulated clock (milliseconds) or the elapsed time
    (seconds). *)
Inductive Event : Type :=
| CanvasCreated (w h : Q)
| FillRect (w h : Q)
| AudioContextCreated
| DestinationCreated
| AudioContextResumed
| StreamCombined
| RecorderCreated (mimeType : string)
| RecorderStarted
| ConsoleError (msg : string)
| SourceStarted (i : nat) (t : Q)
| VideoPlay (i : nat)
| DrawImage (i : nat) (r : Rect)
| SubtitlesDrawn (i : nat) (l : SubtitleLayout)
| LoopResolved (i : nat) (elapsed : Q)
| SourceStopped (i : nat) (t : Q)
| VideoPaused (i : nat)
| RecorderStopped
| AudioContextClosed
| BlobDownloaded (b : Blob) (filename : string).

(** The calls between the canvas and the playback loop that the runtime can
    refuse: [new Actx()], [createMediaStreamDestination()], the awaited
    [resume()], [captureStream(30)] with the [new MediaStream], the
    [MediaRecorder.isTypeSupported] probe, [new MediaRecorder] and
    [recorder.start()]. *)
Inductive SetupCall : Type :=
| NewAudioContext
| CreateDestination
| ResumeContext
| CombineStreams
| ProbeMimeTypes
| NewMediaRecorder
| StartRecorder.

(** What the runtime answers.  A loader returning [None] is a promise that
    rejects.  [loadImage] gives the image's size, [loadVideo] the intrinsic
    size of the video once its metadata is there.  [setupThrows] names the
    calls of the setup that throw, with the error's message; a recorder
    constructed with a type the runtime does not support throws besides.
    Time advances while a promise is awaited: a load ([loadDelay]),
    [resume()] ([resumeDelay]), a video's [play()] ([playDelay]), the
    recorder's [stop] event ([stopDelay]) and [close()] ([closeDelay]);
    and between two animation frames ([frameInterval]).  A started
    recorder stays in the state ['recording'] until the pipeline stops it,
    and a [close()] that rejects is caught and only warned about, which
    the log does not record. *)
Record Browser : Type := mkBrowser {
  canvasContext : bool;
  startsSuspended : bool;
  isTypeSupported : string -> bool;
  loadImage : string -> option (Q * Q);
  loadVideo : string -> option (Q * Q);
  loadAudio : string -> option AudioBuffer;
  loadDelay : string -> Q;
  playResolves : string -> bool;
  frameInterval : Q;
  measureText : Q -> string -> Q;
  setupThrows : SetupCall -> option string;
  resumeDelay : Q;
  playDelay : string -> Q;
  stopDelay : Q;
  closeDelay : Q
}.

(** ** Asynchronous code as clock-passing runs *)

Inductive Outcome (A : Type) : Type :=
| Done (a : A)
| Threw (e : string)
| Diverged.
Arguments Done {A} a.
Arguments Threw {A} e.
Arguments Diverged {A}.

Record Run (A : Type) : Type := mkRun {
  outcome : Outcome A;
  clock : Q;
  log : list Event
}.
Arguments mkRun {A} _ _ _.
Arguments outcome {A} _.
Arguments clock {A} _.
Arguments log {A} _.

(** A computation started at a clock reading. *)
Definition M (A : Type) : Type := Q -> Run A.

Definition ret {A} (a : A) : M A := fun t => mkRun (Done a) t [].

Definition bind {A B} (m : M A) (f : A -> M B) : M B := fun t =>
  let (o, c, l) := m t in
  match o with
  | Done a => let (o', c', l') := f a c in mkRun o' c' (l ++ l')
  | Threw e => mkRun (Threw e) c l
  | Diverged => mkRun Diverged c l
  end.

Notation "x <- m ;; k" := (bind m (fun x => k))
  (at level 61, m at next level, right associativity).
Notation "m ;; k" := (bind m (fun _ => k))
  (at level 61, right associativity).

Definition emit (e : Event) : M unit := fun t => mkRun (Done tt) t [e].
Definition throw {A} (e : string) : M A := fun t => mkRun (Threw e) t [].
Definition diverge {A} : M A := fun t => mkRun Diverged t [].
(** [performance.now()] *)
Definition performanceNow : M Q := fun t => mkRun (Done t) t [].
(** Time passing while a promise is awaited. *)
Definition sleep (d : Q) : M unit := fun t => mkRun (Done tt) (t + d) [].
Definition when (b : bool) (m : M unit) : M unit := if b then m else ret tt.

(** [try { m } catch (e) { h e }] *)
Definition tryCatch {A} (m : M A) (h : string -> M A) : M A := fun t =>
  let (o, c, l) := m t in
  match o with
  | Threw e => let (o', c', l') := h e c in mkRun o' c' (l ++ l')
  | _ => mkRun o c l
  end.

(** An awaited promise that resolves with [a] or rejects. *)
Definition await {A} (d : Q) (r : option A) (err : string) : M A :=
  sleep d ;; match r with Some a => ret a | None => throw err end.

(** ** Export pipeline ([utils/videoGenerator.ts]) *)

Definition getDimensions (aspectRatio : string) : Q * Q :=
  if String.eqb aspectRatio "16:9" then (1280, 720)
  else if String.eqb aspectRatio "9:16" then (720, 1280)
  else (1080, 1080).

Definition mimeTypes : list string :=
  ["video/webm;codecs=vp9,opus"; "video/webm"; "video/mp4"]%string.

(** The [for (const type of mimeTypes)] probe with its [break]. *)
Definition selectMimeType (supported : string -> bool) : string :=
  match find supported mimeTypes with
  | Some type => type
  | None => "video/webm"%string
  end.

(** [(audioBuffer?.duration || 5) + 0.5], in seconds. *)
Definition visibleDuration (audioBuffer : option AudioBuffer) : Q :=
  JS.orNum (option_map duration audioBuffer) 5 + 0.5.

Section ExportPipeline.

Variable env : Browser.

(** The [try] block of one iteration: the visual, then the audio. *)
Definition loadAssets (scene : GeneratedScene)
  : M (option Visual * option AudioBuffer) :=
  visual <-
    (if JS.truthy (videoUrl scene) then
       match videoUrl scene with
       | Some url =>
           s <- await (loadDelay env url) (loadVideo env url) "video load error" ;;
           ret (Some (VideoEl (fst s) (snd s) 0 0))
       | None => ret None
       end
     else if JS.truthy (imageUrl scene) then
       match imageUrl scene with
       | Some url =>
           s <- await (loadDelay env url) (loadImage env url) "image load error" ;;
           ret (Some (ImageEl (fst s) (snd s)))
       | None => ret None
       end
     else ret None) ;;
  audioBuffer <-
    (if JS.truthy (audioUrl scene) then
       match audioUrl scene with
       | Some url =>
           b <- await (loadDelay env url) (loadAudio env url) "audio load error" ;;
           ret (Some b)
       | None => ret None
       end
     else ret None) ;;
  ret (visual, audioBuffer).

Section Scene.

Variables width height : Q.
Variable i : nat.
Variable scene : GeneratedScene.
Variable visual : Visual.
Variables startTime sceneDuration : Q.

(** One composited frame: black fill, cover-fit visual, caption. *)
Definition drawFrame : M unit :=
  emit (FillRect width height) ;;
  emit (DrawImage i (drawCover visual width height)) ;;
  match narration scene with
  | EmptyString => ret tt
  | text =>
      match drawSubtitles (measureText env) text width height with
      | Some l => emit (SubtitlesDrawn i l)
      | None => ret tt
      end
  end.

(** The [render] callback: each call reads the clock; it resolves the
    scene's promise once the visible duration has elapsed, and
    otherwise draws and asks for the next animation frame.  [fuel]
    bounds the number of frames; running out of it stands for a loop
    that never resolves. *)
Fixpoint render (fuel : nat) : M unit :=
  now <- performanceNow ;;
  let elapsed := (now - startTime) / 1000 in
  if Qle_bool sceneDuration elapsed then emit (LoopResolved i elapsed)
  else match fuel with
       | O => diverge
       | S fuel' =>
           drawFrame ;;
           sleep (frameInterval env) ;;
           render fuel'
       end.

End Scene.

(** Frames after which a loop of the given duration has resolved when
    the frame interval is positive. *)
Definition framesBound (d : Q) : nat :=
  Z.to_nat (Qceiling (d * 1000 / frameInterval env)).

(** The rest of an iteration once a visual is there: narration source,
    looping video with its awaited [play()], render loop, then stopping
    both. *)
Definition playScene (width height : Q) (i : nat) (scene : GeneratedScene)
           (visual : Visual) (audioBuffer : option AudioBuffer) : M unit :=
  let duration := visibleDuration audioBuffer in
  (match audioBuffer with
   | Some _ => now <- performanceNow ;; emit (SourceStarted i now)
   | None => ret tt
   end) ;;
  when (isVideo visual)
       (emit (VideoPlay i) ;;
        match videoUrl scene with
        | Some url =>
            sleep (playDelay env url) ;;
            if playResolves env url then ret tt
            else throw "play() rejected"
        | None => ret tt
        end) ;;
  startTime <- performanceNow ;;
  render width height i scene visual startTime duration
         (framesBound duration) ;;
  (match audioBuffer with
   | Some _ => now <- performanceNow ;; emit (SourceStopped i now)
   | None => ret tt
   end) ;;
  when (isVideo visual) (emit (VideoPaused i)).

(** The body of the playback loop for scene [i]; [continue] is an early
    return. *)
Definition sceneBody (width height : Q) (i : nat) (scene : GeneratedScene)
  : M unit :=
  loaded <- tryCatch
              (a <- loadAssets scene ;; ret (Some a))
              (fun _ =>
                 emit (ConsoleError "Error loading assets for scene") ;;
                 ret None) ;;
  match loaded with
  | None => ret tt
  | Some (None, _) => ret tt
  | Some (Some visual, audioBuffer) =>
      playScene width height i scene visual audioBuffer
  end.

(** [for (let i = 0; i < scenes.length; i++)] from index [i] on. *)
Fixpoint playbackLoop (width height : Q) (i : nat)
         (scenes : list GeneratedScene) : M unit :=
  match scenes with
  | [] => ret tt
  | scene :: rest =>
      sceneBody width height i scene ;;
      playbackLoop width height (S i) rest
  end.

(** A call of the setup: it throws when the runtime refuses it. *)
Definition attempt (call : SetupCall) : M unit :=
  match setupThrows env call with
  | Some e => throw e
  | None => ret tt
  end.

(** [generateVideo(scenes, aspectRatio)].  Every call of the setup may
    throw, which rejects the export; [new MediaRecorder] throws a
    [NotSupportedError] when the selected type, the default included, is
    not supported.  [recorder.stop()] is followed by the recorder's
    [stop] event, whose handler awaits [actx.close()] and resolves the
    promise the function returns. *)
Definition generateVideo (scenes : list GeneratedScene)
           (aspectRatio : string) : M Blob :=
  let '(width, height) := getDimensions aspectRatio in
  emit (CanvasCreated width height) ;;
  (if canvasContext env then ret tt
   else throw "Could not get canvas context") ;;
  emit (FillRect width height) ;;
  attempt NewAudioContext ;;
  emit AudioContextCreated ;;
  attempt CreateDestination ;;
  emit DestinationCreated ;;
  when (startsSuspended env)
       (sleep (resumeDelay env) ;;
        attempt ResumeContext ;;
        emit AudioContextResumed) ;;
  attempt CombineStreams ;;
  emit StreamCombined ;;
  attempt ProbeMimeTypes ;;
  let selectedMimeType := selectMimeType (isTypeSupported env) in
  attempt NewMediaRecorder ;;
  (if isTypeSupported env selectedMimeType then ret tt
   else throw "NotSupportedError") ;;
  emit (RecorderCreated selectedMimeType) ;;
  attempt StartRecorder ;;
  emit RecorderStarted ;;
  playbackLoop width height 0 scenes ;;
  emit RecorderStopped ;;
  sleep (stopDelay env) ;;
  emit AudioContextClosed ;;
  sleep (closeDelay env) ;;
  ret (mkBlob selectedMimeType).

End ExportPipeline.

(** ** The caller of the export pipeline ([App.tsx]) *)

Record AppState : Type := mkAppState {
  isExportingFull : bool;
  appIsPlaying : bool;
  notificationMsg : option string;
  errorMsg : option string
}.

(** [(s.imageUrl || s.videoUrl) && s.audioUrl] *)
Definition isReady (s : GeneratedScene) : bool :=
  (JS.truthy (imageUrl s) || JS.truthy (videoUrl s)) && JS.truthy (audioUrl s).

(** [blob.type.includes('mp4') ? 'mp4' : 'webm'] for the three container
    names the pipeline can select. *)
Definition extensionOf (b : Blob) : string :=
  if String.eqb (blobType b) "video/mp4" then "mp4"%string else "webm"%string.

Definition handleExportFullMovie (env : Browser)
           (scenes : list GeneratedScene) (selectedRatio : string)
           (st : AppState) : M AppState :=
  if (List.length scenes =? 0)%nat then ret st
  else
    let st1 := mkAppState true false
                 (Some "Rendering full movie... please wait."%string)
                 (errorMsg st) in
    st2 <- tryCatch
             (let readyScenes := filter isReady scenes in
              (if (List.length readyScenes =? 0)%nat
               then throw "No completed scenes to export"
               else ret tt) ;;
              blob <- generateVideo env readyScenes selectedRatio ;;
              emit (BlobDownloaded blob
                      ("storyreel-full-movie." ++ extensionOf blob)%string) ;;
              ret (mkAppState (isExportingFull st1) (appIsPlaying st1)
                              (Some "Download started!"%string) (errorMsg st1)))
             (fun e =>
                emit (ConsoleError "Export Full Movie Failed") ;;
                ret (mkAppState (isExportingFull st1) (appIsPlaying st1) None
                       (Some ("Failed to export full movie: " ++ e)%string))) ;;
    ret (mkAppState false (appIsPlaying st2) (notificationMsg st2) (errorMsg st2)).

(** ** Sample runs *)

Module Sample.

(** A runtime in which no call of the setup is refused, every asset loads
    at once and no other awaited promise takes time: images are
    1024 x 1024, narration lasts as long as the digit its URL starts with,
    frames come every half second. *)
Definition audioOf (url : string) : option AudioBuffer :=
  match url with
  | String "3"%char _ => Some (mkAudioBuffer 3)
  | String "2"%char _ => Some (mkAudioBuffer 2)
  | String "0"%char _ => Some (mkAudioBuffer 0)
  | _ => None
  end.

Definition browser : Browser :=
  mkBrowser true false (fun _ => true)
            (fun _ => Some (1024, 1024))
            (fun _ => Some (640, 360))
            audioOf
            (fun _ => 0)
            (fun _ => true)
            500
            fixedPitch
            (fun _ => None) 0 (fun _ => 0) 0 0.

Definition scene (img aud : option string) : GeneratedScene :=
  mkScene "s" EmptyString EmptyString img None aud completed false false
          false.

(** The three scenes of the duration scenario: 3 s of narration, none,
    2 s. *)
Definition threeScenes : list GeneratedScene :=
  [scene (Some "a.png") (Some "3.wav");
   scene (Some "b.png") None;
   scene (Some "c.png") (Some "2.wav")]%string.

(** A scene with narration audio and no visual at all. *)
Definition blindScene : GeneratedScene := scene None (Some "3.wav"%string).

Definition idle : AppState := mkAppState false false None None.

End Sample.



(** ** Reasoning about runs *)

Lemma bind_done {A B} (m : M A) (f : A -> M B) (t : Q) (a : A) :
  outcome (m t) = Done a ->
  bind m f t =
  mkRun (outcome (f a (clock (m t)))) (clock (f a (clock (m t))))
        (log (m t) ++ log (f a (clock (m t)))).
Proof.
  unfold bind. destruct (m t) as [o c l]. cbn. intros ->.
  destruct (f a c); reflexivity.
Qed.

Lemma bind_threw {A B} (m : M A) (f : A -> M B) (t : Q) (e : string) :
  outcome (m t) = Threw e ->
  bind m f t = mkRun (Threw e) (clock (m t)) (log (m t)).
Proof. unfold bind. destruct (m t) as [o c l]. cbn. now intros ->. Qed.

Lemma bind_diverged {A B} (m : M A) (f : A -> M B) (t : Q) :
  outcome (m t) = Diverged ->
  bind m f t = mkRun Diverged (clock (m t)) (log (m t)).
Proof. unfold bind. destruct (m t) as [o c l]. cbn. now intros ->. Qed.

Lemma bind_done_inv {A B} (m : M A) (f : A -> M B) (t : Q) (b : B) :
  outcome (bind m f t) = Done b ->
  exists a,
    outcome (m t) = Done a /\
    outcome (f a (clock (m t))) = Done b /\
    clock (bind m f t) = clock (f a (clock (m t))) /\
    log (bind m f t) = log (m t) ++ log (f a (clock (m t))).
Proof.
  destruct (outcome (m t)) as [a|e|] eqn:E.
  - rewrite (bind_done m f t a E). cbn. intros H. exists a. auto.
  - rewrite (bind_threw m f t e E). discriminate.
  - rewrite (bind_diverged m f t E). discriminate.
Qed.

Lemma bind_not_done {A B} (m : M A) (f : A -> M B) (t : Q) :
  (forall a, outcome (m t) <> Done a) ->
  log (bind m f t) = log (m t) /\
  (forall b, outcome (bind m f t) <> Done b).
Proof.
  intros H. destruct (outcome (m t)) as [a|e|] eqn:E.
  - destruct (H a eq_refl).
  - rewrite (bind_threw m f t e E). split; [reflexivity | discriminate].
  - rewrite (bind_diverged m f t E). split; [reflexivity | discriminate].
Qed.

Lemma run_eta {A} (r : Run A) : mkRun (outcome r) (clock r) (log r) = r.
Proof. destruct r; reflexivity. Qed.

(** Steps that cannot fail, one at a time. *)
Lemma bind_emit {B} (e : Event) (f : unit -> M B) (t : Q) :
  bind (emit e) f t =
  mkRun (outcome (f tt t)) (clock (f tt t)) (e :: log (f tt t)).
Proof. unfold bind, emit. destruct (f tt t); reflexivity. Qed.

Lemma bind_ret {A B} (a : A) (f : A -> M B) (t : Q) :
  bind (ret a) f t = f a t.
Proof. unfold bind, ret. destruct (f a t); reflexivity. Qed.

Lemma bind_now {B} (f : Q -> M B) (t : Q) :
  bind performanceNow f t = f t t.
Proof. unfold bind, performanceNow. destruct (f t t); reflexivity. Qed.

Lemma bind_sleep {B} (d : Q) (f : unit -> M B) (t : Q) :
  bind (sleep d) f t = f tt (t + d).
Proof. unfold bind, sleep. destruct (f tt (t + d)); reflexivity. Qed.

Lemma bind_throw {A B} (e : string) (f : A -> M B) (t : Q) :
  bind (throw e) f t = mkRun (Threw e) t [].
Proof. reflexivity. Qed.

Lemma bind_assoc {A B C} (m : M A) (f : A -> M B) (g : B -> M C) (t : Q) :
  bind (bind m f) g t = bind m (fun a => bind (f a) g) t.
Proof.
  unfold bind. destruct (m t) as [o c l]. destruct o as [a|e|]; try reflexivity.
  destruct (f a c) as [o' c' l']. destruct o' as [b|e|]; try reflexivity.
  destruct (g b c') as [o'' c'' l'']. now rewrite app_assoc.
Qed.

(** Running the steps that cannot fail at the head of a sequence. *)
Ltac step_run :=
  repeat (rewrite bind_assoc || rewrite bind_now || rewrite bind_emit
          || rewrite bind_ret || rewrite bind_throw);
  cbn [outcome clock log app].

(** The same, past the awaited promises that only take time. *)
Ltac step_wait :=
  repeat (rewrite bind_assoc || rewrite bind_now || rewrite bind_emit
          || rewrite bind_ret || rewrite bind_throw || rewrite bind_sleep);
  cbn [outcome clock log app].

Section RenderLoop.

Variable env : Browser.
Variables width height : Q.
Variable i : nat.
Variable scene : GeneratedScene.
Variable visual : Visual.
Variables startTime d : Q.

Let loop := render env width height i scene visual startTime d.
Let frame := drawFrame env width height i scene visual.

Lemma drawFrame_run (t : Q) :
  outcome (frame t) = Done tt /\ clock (frame t) = t /\
  exists caption,
    log (frame t) =
    FillRect width height :: DrawImage i (drawCover visual width height)
             :: caption /\
    Forall (fun e => exists l, e = SubtitlesDrawn i l) caption.
Proof.
  unfold frame, drawFrame. rewrite !bind_emit. cbn [outcome clock log].
  destruct (narration scene) as [|c s].
  - repeat split. exists []. split; [reflexivity | constructor].
  - destruct (drawSubtitles (measureText env) (String c s) width height)
      as [l|].
    + repeat split. exists [SubtitlesDrawn i l].
      split; [reflexivity|]. constructor; [|constructor]. now exists l.
    + repeat split. exists []. split; [reflexivity | constructor].
Qed.

Lemma render_unfold (fuel : nat) (t : Q) :
  loop fuel t =
  (if Qle_bool d ((t - startTime) / 1000)
   then emit (LoopResolved i ((t - startTime) / 1000))
   else match fuel with
        | O => diverge
        | S fuel' => frame ;; sleep (frameInterval env) ;; loop fuel'
        end) t.
Proof. unfold loop. destruct fuel; cbn [render]; now rewrite bind_now. Qed.

(** One turn of the loop that has not yet reached the duration. *)
Lemma render_step (fuel : nat) (t : Q) :
  Qle_bool d ((t - startTime) / 1000) = false ->
  loop (S fuel) t =
  mkRun (outcome (loop fuel (t + frameInterval env)))
        (clock (loop fuel (t + frameInterval env)))
        (log (frame t) ++ log (loop fuel (t + frameInterval env))).
Proof.
  intros Hc. rewrite render_unfold, Hc.
  destruct (drawFrame_run t) as (Ho & Hk & _).
  rewrite (bind_done frame _ t tt Ho), Hk, bind_sleep. reflexivity.
Qed.

Lemma render_stop (fuel : nat) (t : Q) :
  Qle_bool d ((t - startTime) / 1000) = true ->
  loop fuel t = mkRun (Done tt) t [LoopResolved i ((t - startTime) / 1000)].
Proof. intros Hc. rewrite render_unfold, Hc. reflexivity. Qed.

Lemma render_out_of_fuel (t : Q) :
  Qle_bool d ((t - startTime) / 1000) = false ->
  loop 0%nat t = mkRun Diverged t [].
Proof. intros Hc. rewrite render_unfold, Hc. reflexivity. Qed.

(** The loop never throws. *)
Lemma render_never_throws (fuel : nat) :
  forall t e, outcome (loop fuel t) <> Threw e.
Proof.
  induction fuel as [|fuel IH]; intros t e;
    destruct (Qle_bool d ((t - startTime) / 1000)) eqn:Hc.
  - rewrite render_stop by exact Hc. discriminate.
  - rewrite render_out_of_fuel by exact Hc. discriminate.
  - rewrite render_stop by exact Hc. discriminate.
  - rewrite render_step by exact Hc. cbn. apply IH.
Qed.

(** With a positive frame interval, enough fuel lets the loop resolve. *)
Lemma render_resolves (fuel : nat) :
  0 < frameInterval env ->
  forall t,
    d * 1000 <= (t - startTime)
                + inject_Z (Z.of_nat fuel) * frameInterval env ->
    outcome (loop fuel t) = Done tt.
Proof.
  intros Hfi. induction fuel as [|fuel IH]; intros t Hb;
    destruct (Qle_bool d ((t - startTime) / 1000)) eqn:Hc.
  - now rewrite render_stop.
  - exfalso. assert (Hn : ~ d <= (t - startTime) / 1000).
    { intros H. apply Qle_bool_iff in H. congruence. }
    apply Hn. apply Qle_shift_div_l; [reflexivity|].
    change (inject_Z (Z.of_nat 0)) with 0 in Hb. lra.
  - now rewrite render_stop.
  - rewrite render_step by exact Hc. cbn. apply IH.
    rewrite Nat2Z.inj_succ, <- Z.add_1_r, inject_Z_plus in Hb.
    change (inject_Z 1) with 1 in Hb. lra.
Qed.

(** What a resolved loop has done: it drew a frame at every tick before
    the duration had elapsed, and resolved at the first tick at or past
    it. *)
Lemma render_resolved (fuel : nat) :
  forall t,
    outcome (loop fuel t) = Done tt ->
    exists e,
      In (LoopResolved i e) (log (loop fuel t)) /\
      d <= e /\
      clock (loop fuel t) == startTime + e * 1000 /\
      (0 <= frameInterval env ->
       (t - startTime) / 1000 < d + frameInterval env / 1000 ->
       e < d + frameInterval env / 1000) /\
      ((t - startTime) / 1000 < d ->
       In (DrawImage i (drawCover visual width height)) (log (loop fuel t))).
Proof.
  induction fuel as [|fuel IH]; intros t Hd;
    destruct (Qle_bool d ((t - startTime) / 1000)) eqn:Hc.
  1,3: rewrite render_stop in * by exact Hc;
       apply Qle_bool_iff in Hc;
       exists ((t - startTime) / 1000); cbn [log clock];
       repeat split; [left; reflexivity | exact Hc | field | auto | intros; lra].
  - rewrite render_out_of_fuel in Hd by exact Hc. discriminate.
  - rewrite render_step in * by exact Hc. cbn [outcome clock log] in *.
    destruct (IH _ Hd) as (e & Hin & Hle & Hck & Hlt & _).
    assert (Hn : (t - startTime) / 1000 < d).
    { apply Qnot_le_lt. intros H. apply Qle_bool_iff in H. congruence. }
    exists e. repeat split.
    + apply in_or_app. right. exact Hin.
    + exact Hle.
    + exact Hck.
    + intros Hfi _. apply Hlt; [exact Hfi|].
      assert (E : (t + frameInterval env - startTime) / 1000
                  == (t - startTime) / 1000 + frameInterval env / 1000)
        by field.
      rewrite E. lra.
    + intros _. apply in_or_app. left.
      destruct (drawFrame_run t) as (_ & _ & cap & -> & _).
      right. left. reflexivity.
Qed.




End RenderLoop.

(** ** What one iteration of the playback loop does *)

(** The visual an iteration ends up with: [None] when a load it awaits
    rejects, [Some None] when the scene has no visual handle. *)
Definition loadedVisual (env : Browser) (scene : GeneratedScene)
  : option (option Visual) :=
  if JS.truthy (videoUrl scene) then
    match videoUrl scene with
    | Some url =>
        option_map (fun s => Some (VideoEl (fst s) (snd s) 0 0))
                   (loadVideo env url)
    | None => Some None
    end
  else if JS.truthy (imageUrl scene) then
    match imageUrl scene with
    | Some url =>
        option_map (fun s => Some (ImageEl (fst s) (snd s))) (loadImage env url)
    | None => Some None
    end
  else Some None.

(** Likewise for the narration buffer. *)
Definition loadedAudio (env : Browser) (scene : GeneratedScene)
  : option (option AudioBuffer) :=
  if JS.truthy (audioUrl scene) then
    match audioUrl scene with
    | Some url => option_map Some (loadAudio env url)
    | None => Some None
    end
  else Some None.


Section Iteration.

Variable env : Browser.
Variables width height : Q.

Lemma loadAssets_run (scene : GeneratedScene) (t : Q) :
  log (loadAssets env scene t) = [] /\
  match loadedVisual env scene, loadedAudio env scene with
  | Some v, Some a => outcome (loadAssets env scene t) = Done (v, a)
  | _, _ => exists e, outcome (loadAssets env scene t) = Threw e
  end.
Proof.
  unfold loadAssets, loadedVisual, loadedAudio.
  destruct (videoUrl scene) as [[|c1 u1]|];
    destruct (imageUrl scene) as [[|c2 u2]|];
    destruct (audioUrl scene) as [[|c3 u3]|];
    cbn [JS.truthy];
    repeat match goal with
           | |- context [loadVideo env ?u] => destruct (loadVideo env u)
           | |- context [loadImage env ?u] => destruct (loadImage env u)
           | |- context [loadAudio env ?u] => destruct (loadAudio env u)
           end;
    cbn; split; try reflexivity; eexists; reflexivity.
Qed.

Definition loadErrorLog : list Event :=
  [ConsoleError "Error loading assets for scene"].

(** A scene one of whose loads rejects is skipped after a console error. *)
Lemma sceneBody_load_error (i : nat) (scene : GeneratedScene) (t : Q) :
  loadedVisual env scene = None \/ loadedAudio env scene = None ->
  outcome (sceneBody env width height i scene t) = Done tt /\
  log (sceneBody env width height i scene t) = loadErrorLog.
Proof.
  intros H. destruct (loadAssets_run scene t) as [Hl Ho].
  assert (He : exists e, outcome (loadAssets env scene t) = Threw e).
  { destruct H as [H|H]; rewrite H in Ho;
      [|destruct (loadedVisual env scene)]; exact Ho. }
  destruct He as [e He].
  unfold sceneBody, tryCatch, bind.
  destruct (loadAssets env scene t) as [o c l].
  cbn in Hl, He |- *. subst. cbn. split; reflexivity.
Qed.

(** A scene without a visual is skipped silently. *)
Lemma sceneBody_no_visual (i : nat) (scene : GeneratedScene) (t : Q)
      (a : option AudioBuffer) :
  loadedVisual env scene = Some None ->
  loadedAudio env scene = Some a ->
  outcome (sceneBody env width height i scene t) = Done tt /\
  log (sceneBody env width height i scene t) = [].
Proof.
  intros Hv Ha. destruct (loadAssets_run scene t) as [Hl Ho].
  rewrite Hv, Ha in Ho.
  unfold sceneBody, tryCatch, bind.
  destruct (loadAssets env scene t) as [o c l].
  cbn in Hl, Ho |- *. subst. cbn. split; reflexivity.
Qed.

(** A scene whose visual loaded goes on to [playScene]. *)
Lemma sceneBody_plays (i : nat) (scene : GeneratedScene) (t : Q)
      (v : Visual) (a : option AudioBuffer) :
  loadedVisual env scene = Some (Some v) ->
  loadedAudio env scene = Some a ->
  exists t',
    outcome (sceneBody env width height i scene t)
    = outcome (playScene env width height i scene v a t') /\
    clock (sceneBody env width height i scene t)
    = clock (playScene env width height i scene v a t') /\
    log (sceneBody env width height i scene t)
    = log (playScene env width height i scene v a t').
Proof.
  intros Hv Ha. destruct (loadAssets_run scene t) as [Hl Ho].
  rewrite Hv, Ha in Ho.
  unfold sceneBody, tryCatch, bind.
  destruct (loadAssets env scene t) as [o c l].
  cbn in Hl, Ho |- *. subst. cbn.
  exists c.
  destruct (playScene env width height i scene v a c) as [o' c' l'].
  cbn. destruct o'; auto.
Qed.

(** Events around the render loop of scene [i]. *)
Definition sourceStart (i : nat) (a : option AudioBuffer) (t : Q) : list Event :=
  match a with Some _ => [SourceStarted i t] | None => [] end.
Definition sourceStop (i : nat) (a : option AudioBuffer) (t : Q) : list Event :=
  match a with Some _ => [SourceStopped i t] | None => [] end.
Definition videoStart (i : nat) (v : Visual) : list Event :=
  if isVideo v then [VideoPlay i] else [].
Definition videoStop (i : nat) (v : Visual) : list Event :=
  if isVideo v then [VideoPaused i] else [].

(** [visual.play()] rejects for this scene. *)
Definition playRejects (scene : GeneratedScene) (v : Visual) : bool :=
  isVideo v &&
  match videoUrl scene with
  | Some url => negb (playResolves env url)
  | None => false
  end.

(** The clock once the awaited [visual.play()] has settled. *)
Definition playEnd (scene : GeneratedScene) (v : Visual) (t : Q) : Q :=
  if isVideo v then
    match videoUrl scene with
    | Some url => t + playDelay env url
    | None => t
    end
  else t.

Lemma playScene_run (i : nat) (scene : GeneratedScene) (v : Visual)
      (a : option AudioBuffer) (t : Q) :
  let d := visibleDuration a in
  let t0 := playEnd scene v t in
  let R := render env width height i scene v t0 d (framesBound env d) t0 in
  let P := playScene env width height i scene v a t in
  if playRejects scene v then
    (exists e, outcome P = Threw e) /\
    log P = sourceStart i a t ++ videoStart i v
  else
    match outcome R with
    | Done _ =>
        outcome P = Done tt /\ clock P = clock R /\
        log P = sourceStart i a t ++ videoStart i v ++ log R
                ++ sourceStop i a (clock R) ++ videoStop i v
    | _ =>
        outcome P = outcome R /\
        log P = sourceStart i a t ++ videoStart i v ++ log R
    end.
Proof.
  cbv zeta. unfold playRejects, playScene, playEnd, videoStart, videoStop,
            sourceStart, sourceStop.
  set (d := visibleDuration a).
  set (R := render env width height i scene v).
  destruct a as [b|]; destruct (isVideo v);
    [destruct (videoUrl scene) as [url|]; [destruct (playResolves env url)|]
    | | destruct (videoUrl scene) as [url|]; [destruct (playResolves env url)|]
    | ];
    cbn [andb negb when]; step_wait;
    try (split; [eexists; reflexivity | reflexivity]);
    match goal with
    | |- context [R ?t0 d (framesBound env d) ?t0] =>
        destruct (outcome (R t0 d (framesBound env d) t0)) as [[]|e|] eqn:E
    end;
    first [ rewrite (bind_done _ _ _ _ E)
          | rewrite (bind_threw _ _ _ _ E)
          | rewrite (bind_diverged _ _ _ E) ];
    step_run; cbn [emit ret outcome clock log app];
    rewrite ?app_nil_r; repeat split; reflexivity.
Qed.

End Iteration.

(** ** Narration is serialized *)

(** The narration channel of the mixing graph: silent (and then no scene
    before [next] may start a source any more), or sounding scene [i]'s
    source, whose render loop has or has not resolved yet. *)
Inductive Narration : Type :=
| Silent (next : nat)
| Sounding (i : nat) (looped : bool).

(** One event seen by the channel; [None] is a violation of the
    discipline: a source started while another sounds or out of scene
    order, a frame of another scene drawn while a source sounds, a loop
    resolved before the scene's visible duration [dur i], a source stopped
    that is not the sounding one or whose loop has not resolved. *)
Definition narrationStep (dur : nat -> Q) (st : Narration) (e : Event)
  : option Narration :=
  match e with
  | SourceStarted i _ =>
      match st with
      | Silent n => if (n <=? i)%nat then Some (Sounding i false) else None
      | Sounding _ _ => None
      end
  | DrawImage i _ =>
      match st with
      | Sounding j _ => if (i =? j)%nat then Some st else None
      | Silent _ => Some st
      end
  | LoopResolved i elapsed =>
      match st with
      | Sounding j _ =>
          if (i =? j)%nat && Qle_bool (dur i) elapsed
          then Some (Sounding j true) else None
      | Silent _ => Some st
      end
  | SourceStopped i _ =>
      match st with
      | Sounding j true => if (i =? j)%nat then Some (Silent (S i)) else None
      | _ => None
      end
  | _ => Some st
  end.

Fixpoint narrationRun (dur : nat -> Q) (st : Narration) (tr : list Event)
  : option Narration :=
  match tr with
  | [] => Some st
  | e :: tr' =>
      match narrationStep dur st e with
      | Some st' => narrationRun dur st' tr'
      | None => None
      end
  end.

(** The sources started and not yet stopped after a log. *)
Fixpoint activeSources (act : list nat) (tr : list Event) : list nat :=
  match tr with
  | [] => act
  | SourceStarted i _ :: tr' => activeSources (i :: act) tr'
  | SourceStopped i _ :: tr' => activeSources (remove Nat.eq_dec i act) tr'
  | _ :: tr' => activeSources act tr'
  end.

Definition sounding (st : Narration) : list nat :=
  match st with Silent _ => [] | Sounding i _ => [i] end.

(** The visible duration the pipeline computes for a scene. *)
Definition sceneDuration (env : Browser) (scene : GeneratedScene) : Q :=
  visibleDuration (match loadedAudio env scene with
                   | Some a => a
                   | None => None
                   end).

Definition durationAt (env : Browser) (scenes : list GeneratedScene)
           (i : nat) : Q :=
  match nth_error scenes i with
  | Some s => sceneDuration env s
  | None => 0
  end.

Section Serialized.

Variable dur : nat -> Q.

Lemma narrationRun_app (st : Narration) (a b : list Event) :
  narrationRun dur st (a ++ b) =
  match narrationRun dur st a with
  | Some s => narrationRun dur s b
  | None => None
  end.
Proof.
  revert st. induction a as [|e a IH]; intros st; cbn; [reflexivity|].
  destruct (narrationStep dur st e); [apply IH | reflexivity].
Qed.

Lemma narrationRun_app_some (st s : Narration) (a b : list Event) :
  narrationRun dur st a = Some s ->
  narrationRun dur st (a ++ b) = narrationRun dur s b.
Proof. intros H. now rewrite narrationRun_app, H. Qed.

Lemma narrationRun_prefix (st st' : Narration) (pre post : list Event) :
  narrationRun dur st (pre ++ post) = Some st' ->
  exists s, narrationRun dur st pre = Some s.
Proof.
  rewrite narrationRun_app.
  destruct (narrationRun dur st pre) as [s|]; [eauto | discriminate].
Qed.

(** An accepted log never has two sources active. *)
Lemma narrationRun_active (tr : list Event) :
  forall st st',
    narrationRun dur st tr = Some st' ->
    activeSources (sounding st) tr = sounding st'.
Proof.
  induction tr as [|e tr IH]; intros st st' H; cbn in H.
  - now inversion H.
  - destruct (narrationStep dur st e) as [s|] eqn:E; [|discriminate].
    specialize (IH _ _ H). rewrite <- IH. clear IH H.
    destruct e; cbn in E |- *; try (inversion E; subst; reflexivity);
      destruct st as [n|j b]; cbn in E |- *.
    + destruct (n <=? i)%nat; inversion E; reflexivity.
    + discriminate.
    + inversion E; reflexivity.
    + destruct (i =? j)%nat; inversion E; reflexivity.
    + inversion E; reflexivity.
    + destruct ((i =? j)%nat && Qle_bool (dur i) elapsed); inversion E;
        reflexivity.
    + discriminate.
    + destruct b; [|discriminate].
      destruct (i =? j)%nat eqn:Eij; [|discriminate].
      apply Nat.eqb_eq in Eij. subst j. inversion E. cbn.
      destruct (Nat.eq_dec i i); [reflexivity | congruence].
Qed.

Lemma sounding_at_most_one (st : Narration) : (List.length (sounding st) <= 1)%nat.
Proof. destruct st; cbn; lia. Qed.

(** Captions do not concern the channel. *)
Lemma narrationRun_captions (i : nat) (st : Narration) (cap : list Event) :
  Forall (fun e => exists l, e = SubtitlesDrawn i l) cap ->
  narrationRun dur st cap = Some st.
Proof.
  induction 1 as [|e cap [l ->] _ IH]; cbn; [reflexivity | exact IH].
Qed.

Section Loop.

Variable env : Browser.
Variables width height : Q.
Variable i : nat.
Variable scene : GeneratedScene.
Variable visual : Visual.
Variable startTime : Q.

Lemma narrationRun_frame (st : Narration) (t : Q) :
  (forall j b, st = Sounding j b -> j = i) ->
  narrationRun dur st (log (drawFrame env width height i scene visual t))
  = Some st.
Proof.
  intros Hst.
  destruct (drawFrame_run env width height i scene visual t)
    as (_ & _ & cap & -> & Hcap).
  cbn. destruct st as [n|j b].
  - apply (narrationRun_captions i); exact Hcap.
  - rewrite (Hst j b eq_refl), Nat.eqb_refl.
    apply (narrationRun_captions i); exact Hcap.
Qed.

(** While scene [i]'s source sounds, scene [i]'s render loop is accepted
    and, once resolved, has run for the visible duration. *)
Lemma narrationRun_render_sounding (fuel : nat) :
  forall t b,
    let R := render env width height i scene visual startTime (dur i) fuel t in
    narrationRun dur (Sounding i b) (log R) =
    Some (Sounding i (match outcome R with Done _ => true | _ => b end)).
Proof.
  induction fuel as [|fuel IH]; intros t b; cbv zeta;
    destruct (Qle_bool (dur i) ((t - startTime) / 1000)) eqn:Hc.
  - rewrite render_stop by exact Hc. cbn. now rewrite Nat.eqb_refl, Hc.
  - rewrite render_out_of_fuel by exact Hc. reflexivity.
  - rewrite render_stop by exact Hc. cbn. now rewrite Nat.eqb_refl, Hc.
  - rewrite render_step by exact Hc. cbn [outcome log].
    rewrite narrationRun_app, narrationRun_frame.
    + apply IH.
    + intros j b' E. now inversion E.
Qed.

Lemma narrationRun_render_silent (d : Q) (fuel : nat) :
  forall t n,
    narrationRun dur (Silent n)
      (log (render env width height i scene visual startTime d fuel t))
    = Some (Silent n).
Proof.
  induction fuel as [|fuel IH]; intros t n;
    destruct (Qle_bool d ((t - startTime) / 1000)) eqn:Hc.
  - rewrite render_stop by exact Hc. reflexivity.
  - rewrite render_out_of_fuel by exact Hc. reflexivity.
  - rewrite render_stop by exact Hc. reflexivity.
  - rewrite render_step by exact Hc. cbn [outcome log].
    rewrite narrationRun_app, narrationRun_frame.
    + apply IH.
    + discriminate.
Qed.

End Loop.

Section Body.

Variable env : Browser.
Variables width height : Q.

(** The states in which an iteration may leave the channel. *)
Definition restsAfter {A} (i : nat) (o : Outcome A) (st : Narration) : Prop :=
  match o with
  | Done _ => exists n, st = Silent n /\ (n <= S i)%nat
  | _ => True
  end.

Lemma playScene_serial (i n : nat) (scene : GeneratedScene) (v : Visual)
      (a : option AudioBuffer) (t : Q) :
  (n <= i)%nat ->
  dur i = visibleDuration a ->
  exists st,
    narrationRun dur (Silent n)
                 (log (playScene env width height i scene v a t)) = Some st /\
    restsAfter i (outcome (playScene env width height i scene v a t)) st.
Proof.
  intros Hn Hd.
  pose proof (playScene_run env width height i scene v a t) as H.
  cbv zeta in H. set (t0 := playEnd env scene v t) in H.
  assert (Hv1 : forall st, narrationRun dur st (videoStart i v) = Some st).
  { intros st. unfold videoStart. destruct (isVideo v); reflexivity. }
  assert (Hv2 : forall st, narrationRun dur st (videoStop i v) = Some st).
  { intros st. unfold videoStop. destruct (isVideo v); reflexivity. }
  assert (Hs1 : exists s1,
             narrationRun dur (Silent n) (sourceStart i a t) = Some s1 /\
             s1 = match a with Some _ => Sounding i false | None => Silent n end).
  { apply Nat.leb_le in Hn. destruct a; cbn; rewrite ?Hn; eauto. }
  destruct Hs1 as (s1 & Hs1 & Es1).
  destruct (playRejects env scene v).
  - destruct H as [[e He] Hl]. rewrite Hl, He.
    rewrite (narrationRun_app_some _ _ _ _ Hs1), Hv1.
    eexists; split; [reflexivity | exact I].
  - rewrite <- Hd in H.
    assert (HR : narrationRun dur s1
                   (log (render env width height i scene v t0 (dur i)
                                (framesBound env (dur i)) t0))
                 = Some (match a, outcome (render env width height i scene v t0
                                (dur i) (framesBound env (dur i)) t0) with
                         | Some _, Done _ => Sounding i true
                         | _, _ => s1
                         end)).
    { subst s1. destruct a.
      - rewrite narrationRun_render_sounding.
        destruct (outcome _); reflexivity.
      - rewrite narrationRun_render_silent. reflexivity. }
    destruct (outcome (render env width height i scene v t0 (dur i)
                              (framesBound env (dur i)) t0)) as [u| |];
      [destruct H as (Ho & _ & Hl) | destruct H as (Ho & Hl) ..];
      rewrite Hl, Ho;
      rewrite (narrationRun_app_some _ _ _ _ Hs1),
              (narrationRun_app_some _ _ _ _ (Hv1 _)).
    + rewrite (narrationRun_app_some _ _ _ _ HR). subst s1.
      destruct a; cbn [sourceStop app narrationRun narrationStep].
      * rewrite Nat.eqb_refl, Hv2. eexists; split; [reflexivity|].
        exists (S i). split; [reflexivity | lia].
      * rewrite Hv2. eexists; split; [reflexivity|].
        exists n. split; [reflexivity | lia].
    + rewrite HR. eexists; split; [reflexivity | exact I].
    + rewrite HR. eexists; split; [reflexivity | exact I].
Qed.

Lemma sceneBody_serial (i n : nat) (scene : GeneratedScene) (t : Q) :
  (n <= i)%nat ->
  dur i = sceneDuration env scene ->
  exists st,
    narrationRun dur (Silent n)
                 (log (sceneBody env width height i scene t)) = Some st /\
    restsAfter i (outcome (sceneBody env width height i scene t)) st.
Proof.
  intros Hn Hd. unfold sceneDuration in Hd.
  destruct (loadedVisual env scene) as [[v|]|] eqn:Ev;
    destruct (loadedAudio env scene) as [a|] eqn:Ea.
  - destruct (sceneBody_plays env width height i scene t v a Ev Ea)
      as (t' & Ho & _ & Hl).
    rewrite Ho, Hl. apply playScene_serial; assumption.
  - destruct (sceneBody_load_error env width height i scene t
                (or_intror Ea)) as [Ho Hl].
    rewrite Ho, Hl. exists (Silent n). split; [reflexivity|].
    exists n. split; [reflexivity | lia].
  - destruct (sceneBody_no_visual env width height i scene t a Ev Ea)
      as [Ho Hl].
    rewrite Ho, Hl. exists (Silent n). split; [reflexivity|].
    exists n. split; [reflexivity | lia].
  - destruct (sceneBody_load_error env width height i scene t
                (or_intror Ea)) as [Ho Hl].
    rewrite Ho, Hl. exists (Silent n). split; [reflexivity|].
    exists n. split; [reflexivity | lia].
  - destruct (sceneBody_load_error env width height i scene t
                (or_introl Ev)) as [Ho Hl].
    rewrite Ho, Hl. exists (Silent n). split; [reflexivity|].
    exists n. split; [reflexivity | lia].
  - destruct (sceneBody_load_error env width height i scene t
                (or_introl Ev)) as [Ho Hl].
    rewrite Ho, Hl. exists (Silent n). split; [reflexivity|].
    exists n. split; [reflexivity | lia].
Qed.

Lemma playbackLoop_serial (scenes : list GeneratedScene) :
  forall i n t,
    (n <= i)%nat ->
    (forall k s, nth_error scenes k = Some s ->
                 dur (i + k) = sceneDuration env s) ->
    exists st,
      narrationRun dur (Silent n)
                   (log (playbackLoop env width height i scenes t)) = Some st /\
      restsAfter (i + List.length scenes)
                 (outcome (playbackLoop env width height i scenes t)) st.
Proof.
  induction scenes as [|s rest IH]; intros i n t Hn Hdur.
  - cbn. exists (Silent n). split; [reflexivity|].
    exists n. split; [reflexivity | lia].
  - cbn [playbackLoop List.length].
    destruct (sceneBody_serial i n s t Hn) as (st1 & Hrun1 & Hrest1).
    { rewrite <- (Nat.add_0_r i). apply Hdur. reflexivity. }
    destruct (outcome (sceneBody env width height i s t)) as [[]| |] eqn:Eo.
    + rewrite (bind_done _ _ t tt Eo). cbn [outcome log].
      destruct Hrest1 as (n1 & -> & Hn1).
      destruct (IH (S i) n1 (clock (sceneBody env width height i s t)) Hn1)
        as (st2 & Hrun2 & Hrest2).
      { intros k s' Hk. rewrite Nat.add_succ_l, <- Nat.add_succ_r.
        apply Hdur. exact Hk. }
      exists st2. rewrite narrationRun_app, Hrun1. split; [exact Hrun2|].
      rewrite Nat.add_succ_l, <- Nat.add_succ_r in Hrest2. exact Hrest2.
    + rewrite (bind_threw _ _ _ _ Eo). cbn [outcome log].
      exists st1. split; [exact Hrun1 | exact I].
    + rewrite (bind_diverged _ _ _ Eo). cbn [outcome log].
      exists st1. split; [exact Hrun1 | exact I].
Qed.

End Body.

End Serialized.

(** ** The whole export run *)

Definition setupLog (env : Browser) (w h : Q) : list Event :=
  [CanvasCreated w h; FillRect w h; AudioContextCreated; DestinationCreated]
    ++ (if startsSuspended env then [AudioContextResumed] else [])
    ++ [StreamCombined;
        RecorderCreated (selectMimeType (isTypeSupported env));
        RecorderStarted].

Definition teardownLog : list Event := [RecorderStopped; AudioContextClosed].

(** The first of the answers that is an error. *)
Fixpoint firstError (answers : list (option string)) : option string :=
  match answers with
  | [] => None
  | Some e :: _ => Some e
  | None :: rest => firstError rest
  end.

(** The error with which the setup of an export throws, if it does: the
    missing canvas context, a refused call, or a recorder asked for a
    container the runtime does not support. *)
Definition setupError (env : Browser) : option string :=
  firstError
    [ if canvasContext env then None
      else Some "Could not get canvas context"%string;
      setupThrows env NewAudioContext;
      setupThrows env CreateDestination;
      if startsSuspended env then setupThrows env ResumeContext else None;
      setupThrows env CombineStreams;
      setupThrows env ProbeMimeTypes;
      setupThrows env NewMediaRecorder;
      if isTypeSupported env (selectMimeType (isTypeSupported env)) then None
      else Some "NotSupportedError"%string;
      setupThrows env StartRecorder ].

(** The clock once the setup is through: only [resume()] is awaited. *)
Definition setupEnd (env : Browser) (t : Q) : Q :=
  if startsSuspended env then t + resumeDelay env else t.

(** A step of the setup that throws ends the run there. *)
Ltac setup_throws :=
  rewrite bind_throw; cbn [outcome clock log app];
  split; [reflexivity|]; eexists; split; [|reflexivity]; discriminate.

Ltac setup_stops :=
  rewrite bind_throw; cbn [outcome clock log app];
  split; [reflexivity|]; eexists; split;
  [|rewrite <- app_assoc; cbn [app]; reflexivity]; discriminate.

Ltac setup_next :=
  repeat (rewrite bind_ret || rewrite bind_emit);
  cbv beta; cbn [outcome clock log app].

(** An export whose setup throws rejects with that error, having made only
    calls of the setup, and not all of them; otherwise it runs the playback
    loop and, when that is through, stops the recorder, waits for its
    [stop] event and for [close()], and resolves. *)
Lemma generateVideo_run (env : Browser) (scenes : list GeneratedScene)
      (aspectRatio : string) (t : Q) :
  let w := fst (getDimensions aspectRatio) in
  let h := snd (getDimensions aspectRatio) in
  let L := playbackLoop env w h 0 scenes (setupEnd env t) in
  let G := generateVideo env scenes aspectRatio t in
  match setupError env with
  | None =>
      match outcome L with
      | Done _ =>
          outcome G = Done (mkBlob (selectMimeType (isTypeSupported env))) /\
          clock G = clock L + stopDelay env + closeDelay env /\
          log G = setupLog env w h ++ log L ++ teardownLog
      | Threw e => outcome G = Threw e /\ log G = setupLog env w h ++ log L
      | Diverged => outcome G = Diverged /\ log G = setupLog env w h ++ log L
      end
  | Some e =>
      outcome G = Threw e /\
      exists rest, rest <> [] /\ setupLog env w h = log G ++ rest
  end.
Proof.
  cbv zeta. unfold generateVideo, setupError, setupEnd, setupLog, teardownLog,
            attempt.
  destruct (getDimensions aspectRatio) as [w h]. cbn [fst snd firstError].
  set (L := playbackLoop env w h 0 scenes).
  rewrite bind_emit.
  destruct (canvasContext env); [|setup_throws].
  setup_next. destruct (setupThrows env NewAudioContext); [setup_throws|].
  setup_next. destruct (setupThrows env CreateDestination); [setup_throws|].
  setup_next.
  assert (Hrest : forall t' (pre : list Event),
    let k := fun _ : unit =>
      (match setupThrows env CombineStreams with
       | Some e => throw e | None => ret tt end) ;;
      emit StreamCombined ;;
      (match setupThrows env ProbeMimeTypes with
       | Some e => throw e | None => ret tt end) ;;
      (match setupThrows env NewMediaRecorder with
       | Some e => throw e | None => ret tt end) ;;
      (if isTypeSupported env (selectMimeType (isTypeSupported env))
       then ret tt else throw "NotSupportedError") ;;
      emit (RecorderCreated (selectMimeType (isTypeSupported env))) ;;
      (match setupThrows env StartRecorder with
       | Some e => throw e | None => ret tt end) ;;
      emit RecorderStarted ;;
      L ;;
      emit RecorderStopped ;;
      sleep (stopDelay env) ;;
      emit AudioContextClosed ;;
      sleep (closeDelay env) ;;
      ret (mkBlob (selectMimeType (isTypeSupported env))) in
    let G := k tt t' in
    let full := pre ++ [StreamCombined;
                        RecorderCreated (selectMimeType (isTypeSupported env));
                        RecorderStarted] in
    match
      firstError
        [setupThrows env CombineStreams; setupThrows env ProbeMimeTypes;
         setupThrows env NewMediaRecorder;
         if isTypeSupported env (selectMimeType (isTypeSupported env))
         then None else Some "NotSupportedError"%string;
         setupThrows env StartRecorder]
    with
    | None =>
        match outcome (L t') with
        | Done _ =>
            outcome G = Done (mkBlob (selectMimeType (isTypeSupported env))) /\
            clock G = clock (L t') + stopDelay env + closeDelay env /\
            pre ++ log G
            = full ++ log (L t') ++ [RecorderStopped; AudioContextClosed]
        | Threw e => outcome G = Threw e /\ pre ++ log G = full ++ log (L t')
        | Diverged => outcome G = Diverged /\ pre ++ log G = full ++ log (L t')
        end
    | Some e =>
        outcome G = Threw e /\
        exists rest, rest <> [] /\ full = (pre ++ log G) ++ rest
    end).
  { intros t' pre. cbv zeta. cbn [firstError].
    destruct (setupThrows env CombineStreams); [setup_stops|].
    setup_next. destruct (setupThrows env ProbeMimeTypes); [setup_stops|].
    setup_next. destruct (setupThrows env NewMediaRecorder); [setup_stops|].
    setup_next.
    destruct (isTypeSupported env (selectMimeType (isTypeSupported env)));
      [|setup_stops].
    setup_next. destruct (setupThrows env StartRecorder); [setup_stops|].
    setup_next.
    destruct (outcome (L t')) as [[]|e|] eqn:E;
      first [ rewrite (bind_done _ _ _ _ E)
            | rewrite (bind_threw _ _ _ _ E)
            | rewrite (bind_diverged _ _ _ E) ];
      step_wait; cbn [ret outcome clock log app];
      rewrite <- ?app_assoc; cbn [app]; repeat split; reflexivity. }
  cbv zeta in Hrest.
  destruct (startsSuspended env); cbn [when].
  - rewrite bind_assoc, bind_sleep. cbv beta. rewrite bind_assoc.
    destruct (setupThrows env ResumeContext); [setup_throws|].
    setup_next.
    specialize (Hrest (t + resumeDelay env)
                  [CanvasCreated w h; FillRect w h; AudioContextCreated;
                   DestinationCreated; AudioContextResumed]).
    cbn [app] in Hrest. exact Hrest.
  - rewrite bind_ret.
    specialize (Hrest t
                  [CanvasCreated w h; FillRect w h; AudioContextCreated;
                   DestinationCreated]).
    cbn [app] in Hrest. exact Hrest.
Qed.


(** An export whose setup throws has not looked at its scenes. *)
Lemma generateVideo_setup_log (env : Browser) (scenes : list GeneratedScene)
      (aspectRatio : string) (t : Q) (e : string) :
  setupError env = Some e ->
  log (generateVideo env scenes aspectRatio t)
  = log (generateVideo env [] aspectRatio t).
Proof.
  unfold setupError, generateVideo, attempt. cbn [firstError].
  destruct (getDimensions aspectRatio) as [w h].
  destruct (canvasContext env); [|reflexivity].
  destruct (setupThrows env NewAudioContext); [reflexivity|].
  destruct (setupThrows env CreateDestination); [reflexivity|].
  destruct (startsSuspended env);
    [destruct (setupThrows env ResumeContext); [reflexivity|]|];
    (destruct (setupThrows env CombineStreams); [reflexivity|]);
    (destruct (setupThrows env ProbeMimeTypes); [reflexivity|]);
    (destruct (setupThrows env NewMediaRecorder); [reflexivity|]);
    (destruct (isTypeSupported env (selectMimeType (isTypeSupported env)));
     [|reflexivity]);
    (destruct (setupThrows env StartRecorder); [reflexivity|]);
    discriminate.
Qed.

Lemma narrationRun_setup (dur : nat -> Q) (env : Browser) (w h : Q)
      (st : Narration) :
  narrationRun dur st (setupLog env w h) = Some st.
Proof. unfold setupLog. destruct (startsSuspended env); reflexivity. Qed.

(** The run of an export is accepted by the narration channel. *)
Lemma generateVideo_accepted (env : Browser) (scenes : list GeneratedScene)
      (aspectRatio : string) (t : Q) :
  exists st,
    narrationRun (durationAt env scenes) (Silent 0)
                 (log (generateVideo env scenes aspectRatio t)) = Some st.
Proof.
  pose proof (generateVideo_run env scenes aspectRatio t) as H. cbv zeta in H.
  pose proof (narrationRun_setup (durationAt env scenes) env
                (fst (getDimensions aspectRatio))
                (snd (getDimensions aspectRatio)) (Silent 0)) as Hset.
  destruct (setupError env) as [e|].
  - destruct H as (_ & rest & _ & Hl). rewrite Hl in Hset.
    exact (narrationRun_prefix _ _ _ _ _ Hset).
  - destruct (playbackLoop_serial (durationAt env scenes) env
                (fst (getDimensions aspectRatio))
                (snd (getDimensions aspectRatio)) scenes 0 0 (setupEnd env t)
                (le_n 0))
      as (st & Hrun & Hrest).
    { intros k s Hk. unfold durationAt. cbn. now rewrite Hk. }
    destruct (outcome (playbackLoop env _ _ 0 scenes (setupEnd env t)))
      as [u| |].
    + destruct H as (_ & _ & Hl). rewrite Hl.
      rewrite (narrationRun_app_some _ _ _ _ _ Hset),
              (narrationRun_app_some _ _ _ _ _ Hrun).
      eexists; reflexivity.
    + destruct H as (_ & Hl). rewrite Hl.
      rewrite (narrationRun_app_some _ _ _ _ _ Hset), Hrun. eauto.
    + destruct H as (_ & Hl). rewrite Hl.
      rewrite (narrationRun_app_some _ _ _ _ _ Hset), Hrun. eauto.
Qed.

(** *** From the channel to statements about the log *)

(** Scenes up to which the channel has moved on. *)
Definition reached (st : Narration) : nat :=
  match st with Silent n => n | Sounding i _ => S i end.

Section Channel.

Variable dur : nat -> Q.

Lemma narrationStep_reached (st st' : Narration) (e : Event) :
  narrationStep dur st e = Some st' -> (reached st <= reached st')%nat.
Proof.
  destruct st as [n|j lp]; destruct e; cbn; intros H;
    try (inversion H; subst; cbn; lia).
  - destruct (n <=? i)%nat eqn:E; inversion H; subst. cbn.
    apply Nat.leb_le in E. lia.
  - destruct (i =? j)%nat; inversion H; subst; cbn; lia.
  - destruct ((i =? j)%nat && Qle_bool (dur i) elapsed); inversion H; subst;
      cbn; lia.
  - destruct lp; [|discriminate].
    destruct (i =? j)%nat eqn:E; inversion H; subst.
    apply Nat.eqb_eq in E. subst. cbn. lia.
Qed.

Lemma narrationRun_reached (tr : list Event) :
  forall st st',
    narrationRun dur st tr = Some st' -> (reached st <= reached st')%nat.
Proof.
  induction tr as [|e tr IH]; intros st st' H; cbn in H.
  - inversion H. lia.
  - destruct (narrationStep dur st e) as [s|] eqn:E; [|discriminate].
    apply narrationStep_reached in E. apply IH in H. lia.
Qed.

(** A source that sounds can only fall silent through its own loop
    resolving after the visible duration and its own [stop]. *)
Lemma narrationRun_falls_silent (mid : list Event) :
  forall i b n,
    narrationRun dur (Sounding i b) mid = Some (Silent n) ->
    (S i <= n)%nat /\
    exists m2 ts m3,
      mid = m2 ++ SourceStopped i ts :: m3 /\
      (b = false ->
       exists m1 e m2',
         m2 = m1 ++ LoopResolved i e :: m2' /\ dur i <= e).
Proof.
  induction mid as [|ev mid IH]; intros i b n H; cbn in H; [discriminate|].
  destruct (narrationStep dur (Sounding i b) ev) as [s|] eqn:E; [|discriminate].
  assert (Hkeep : s = Sounding i b ->
            (S i <= n)%nat /\
            exists m2 ts m3,
              ev :: mid = m2 ++ SourceStopped i ts :: m3 /\
              (b = false ->
               exists m1 e m2',
                 m2 = m1 ++ LoopResolved i e :: m2' /\ dur i <= e)).
  { intros ->. destruct (IH _ _ _ H) as (Hn & m2 & ts & m3 & -> & Hb).
    split; [exact Hn|]. exists (ev :: m2), ts, m3. split; [reflexivity|].
    intros Eb. destruct (Hb Eb) as (m1 & e & m2' & -> & Hd).
    exists (ev :: m1), e, m2'. split; [reflexivity | exact Hd]. }
  destruct ev; cbn in E; try (apply Hkeep; congruence).
  - destruct (i0 =? i)%nat; [apply Hkeep; congruence | discriminate].
  - destruct (i0 =? i)%nat eqn:Ei; cbn in E; [|discriminate].
    destruct (Qle_bool (dur i0) elapsed) eqn:Ed; [|discriminate].
    apply Nat.eqb_eq in Ei. subst i0. apply Qle_bool_iff in Ed.
    inversion E; subst s.
    destruct (IH _ _ _ H) as (Hn & m2 & ts & m3 & -> & _).
    split; [exact Hn|]. exists (LoopResolved i elapsed :: m2), ts, m3.
    split; [reflexivity|]. intros _. exists [], elapsed, m2.
    split; [reflexivity | exact Ed].
  - destruct b; [|discriminate].
    destruct (i0 =? i)%nat eqn:Ei; [|discriminate].
    apply Nat.eqb_eq in Ei. subst i0. inversion E; subst s.
    apply narrationRun_reached in H. cbn in H. split; [exact H|].
    exists [], t, mid. split; [reflexivity | discriminate].
Qed.

(** Between two source starts of an accepted log lie the first scene's
    loop resolution and stop, and the scenes come in order. *)
Lemma accepted_between_starts (st0 st' : Narration)
      (pre mid post : list Event) (i j : nat) (ti tj : Q) :
  narrationRun dur st0
    (pre ++ SourceStarted i ti :: mid ++ SourceStarted j tj :: post)
  = Some st' ->
  (i < j)%nat /\
  exists m1 e m2 ts m3,
    mid = m1 ++ LoopResolved i e :: m2 ++ SourceStopped i ts :: m3 /\
    dur i <= e.
Proof.
  rewrite narrationRun_app.
  destruct (narrationRun dur st0 pre) as [s0|]; [|discriminate].
  cbn [narrationRun].
  destruct (narrationStep dur s0 (SourceStarted i ti)) as [s1|] eqn:E1;
    [|discriminate].
  rewrite narrationRun_app.
  destruct (narrationRun dur s1 mid) as [s2|] eqn:E2; [|discriminate].
  cbn [narrationRun].
  destruct (narrationStep dur s2 (SourceStarted j tj)) as [s3|] eqn:E3;
    [|discriminate].
  intros _.
  cbn in E1. destruct s0 as [n0|]; [|discriminate].
  destruct (n0 <=? i)%nat; [|discriminate]. inversion E1; subst s1.
  cbn in E3. destruct s2 as [n2|]; [|discriminate].
  destruct (n2 <=? j)%nat eqn:Ej; [|discriminate]. apply Nat.leb_le in Ej.
  destruct (narrationRun_falls_silent mid i false n2 E2)
    as (Hn & m2 & ts & m3 & -> & Hb).
  destruct (Hb eq_refl) as (m1 & e & m2' & -> & Hd).
  split; [lia|]. exists m1, e, m2', ts, m3.
  split; [now rewrite <- app_assoc | exact Hd].
Qed.

End Channel.

(** C6: in every export narration is strictly serialized.  Whatever the
    runtime answers, at no point of the run are two narration sources
    started and not stopped; and between the start of one scene's source
    and the start of a later source lie, in this order, the resolution of
    the first scene's render loop, not before that scene's visible duration
    has elapsed, and the explicit stop of its source; sources start in
    scene order. *)
Theorem narration_strictly_serialized
        (env : Browser) (scenes : list GeneratedScene)
        (aspectRatio : string) (t : Q) :
  let tr := log (generateVideo env scenes aspectRatio t) in
  (forall pre post,
      tr = pre ++ post -> (List.length (activeSources [] pre) <= 1)%nat) /\
  (forall pre i ti mid j tj post,
      tr = pre ++ SourceStarted i ti :: mid ++ SourceStarted j tj :: post ->
      (i < j)%nat /\
      exists m1 e m2 ts m3,
        mid = m1 ++ LoopResolved i e :: m2 ++ SourceStopped i ts :: m3 /\
        durationAt env scenes i <= e).
Proof.
  cbv zeta.
  destruct (generateVideo_accepted env scenes aspectRatio t) as [st Hst].
  split.
  - intros pre post E. rewrite E in Hst.
    destruct (narrationRun_prefix _ _ _ _ _ Hst) as [s Hs].
    apply narrationRun_active in Hs. cbn [sounding] in Hs. rewrite Hs.
    apply sounding_at_most_one.
  - intros pre i ti mid j tj post E. rewrite E in Hst.
    exact (accepted_between_starts _ _ _ _ _ _ _ _ _ _ Hst).
Qed.

(** ** Which scenes an export renders *)

(** The scene an event belongs to, for the events of the playback loop. *)
Definition eventScene (e : Event) : option nat :=
  match e with
  | SourceStarted i _ | VideoPlay i | DrawImage i _ | SubtitlesDrawn i _
  | LoopResolved i _ | SourceStopped i _ | VideoPaused i => Some i
  | _ => None
  end.

(** Every [visual.play()] of the list resolves. *)
Definition playsOk (env : Browser) (scenes : list GeneratedScene) : Prop :=
  forall s url, In s scenes -> videoUrl s = Some url ->
                playResolves env url = true.



Section Rendering.

Variable env : Browser.
Variables width height : Q.


Lemma framesBound_enough (d : Q) :
  0 < frameInterval env ->
  d * 1000 <= inject_Z (Z.of_nat (framesBound env d)) * frameInterval env.
Proof.
  intros Hfi. unfold framesBound.
  set (x := d * 1000 / frameInterval env).
  assert (Hx : x <= inject_Z (Z.of_nat (Z.to_nat (Qceiling x)))).
  { apply Qle_trans with (inject_Z (Qceiling x)); [apply Qle_ceiling|].
    rewrite <- Zle_Qle. lia. }
  assert (E : d * 1000 == x * frameInterval env)
    by (unfold x; field; lra).
  rewrite E. apply Qmult_le_compat_r; [exact Hx | lra].
Qed.

Lemma render_events (i : nat) (scene : GeneratedScene) (v : Visual)
      (start d : Q) (fuel : nat) :
  forall t e,
    In e (log (render env width height i scene v start d fuel t)) ->
    eventScene e = None \/ eventScene e = Some i.
Proof.
  induction fuel as [|fuel IH]; intros t e;
    destruct (Qle_bool d ((t - start) / 1000)) eqn:Hc.
  - rewrite render_stop by exact Hc. cbn. intros [<-|[]]. now right.
  - rewrite render_out_of_fuel by exact Hc. intros [].
  - rewrite render_stop by exact Hc. cbn. intros [<-|[]]. now right.
  - rewrite render_step by exact Hc. cbn [log]. intros H.
    apply in_app_or in H. destruct H as [H|H]; [|exact (IH _ _ H)].
    destruct (drawFrame_run env width height i scene v t)
      as (_ & _ & cap & Hl & Hcap).
    rewrite Hl in H. destruct H as [<-|[<-|H]]; [now left | now right |].
    rewrite Forall_forall in Hcap. destruct (Hcap _ H) as [l ->]. now right.
Qed.

Lemma playScene_events (i : nat) (scene : GeneratedScene) (v : Visual)
      (a : option AudioBuffer) (t : Q) (e : Event) :
  In e (log (playScene env width height i scene v a t)) ->
  eventScene e = None \/ eventScene e = Some i.
Proof.
  pose proof (playScene_run env width height i scene v a t) as H.
  cbv zeta in H.
  assert (H1 : forall t', In e (sourceStart i a t') -> eventScene e = Some i).
  { intros t'. destruct a; cbn; [intros [<-|[]]; reflexivity | intros []]. }
  assert (H2 : forall t', In e (sourceStop i a t') -> eventScene e = Some i).
  { intros t'. destruct a; cbn; [intros [<-|[]]; reflexivity | intros []]. }
  assert (H3 : In e (videoStart i v) -> eventScene e = Some i).
  { unfold videoStart. destruct (isVideo v); cbn;
      [intros [<-|[]]; reflexivity | intros []]. }
  assert (H4 : In e (videoStop i v) -> eventScene e = Some i).
  { unfold videoStop. destruct (isVideo v); cbn;
      [intros [<-|[]]; reflexivity | intros []]. }
  pose proof (render_events i scene v (playEnd env scene v t)
                (visibleDuration a) (framesBound env (visibleDuration a))
                (playEnd env scene v t) e) as H5.
  destruct (playRejects env scene v).
  - destruct H as [_ ->]. rewrite in_app_iff. intros [Hi|Hi]; eauto.
  - destruct (outcome (render env width height i scene v _ _ _ _));
      [destruct H as (_ & _ & ->) | destruct H as (_ & ->) ..];
      rewrite !in_app_iff; intuition eauto.
Qed.

(** What happens to a scene in its iteration. *)
Lemma sceneBody_events (i : nat) (scene : GeneratedScene) (t : Q) (e : Event) :
  In e (log (sceneBody env width height i scene t)) ->
  eventScene e = None \/
  (eventScene e = Some i /\ exists v, loadedVisual env scene = Some (Some v)).
Proof.
  destruct (loadedVisual env scene) as [[v|]|] eqn:Ev;
    destruct (loadedAudio env scene) as [a|] eqn:Ea.
  - destruct (sceneBody_plays env width height i scene t v a Ev Ea)
      as (t' & _ & _ & ->).
    intros H. apply playScene_events in H. destruct H; eauto.
  - destruct (sceneBody_load_error env width height i scene t
                (or_intror Ea)) as [_ ->].
    intros [<-|[]]. now left.
  - destruct (sceneBody_no_visual env width height i scene t a Ev Ea)
      as [_ ->]. intros [].
  - destruct (sceneBody_load_error env width height i scene t
                (or_intror Ea)) as [_ ->].
    intros [<-|[]]. now left.
  - destruct (sceneBody_load_error env width height i scene t
                (or_introl Ev)) as [_ ->].
    intros [<-|[]]. now left.
  - destruct (sceneBody_load_error env width height i scene t
                (or_introl Ev)) as [_ ->].
    intros [<-|[]]. now left.
Qed.

(** Every event of the playback loop comes from the iteration of one of
    the scenes. *)
Lemma playbackLoop_events (scenes : list GeneratedScene) :
  forall i t e,
    In e (log (playbackLoop env width height i scenes t)) ->
    exists k s t',
      nth_error scenes k = Some s /\
      In e (log (sceneBody env width height (i + k) s t')).
Proof.
  induction scenes as [|s rest IH]; intros i t e; cbn [playbackLoop].
  - intros [].
  - intros H.
    assert (Hor : In e (log (sceneBody env width height i s t)) \/
                  In e (log (playbackLoop env width height (S i) rest
                               (clock (sceneBody env width height i s t))))).
    { destruct (outcome (sceneBody env width height i s t)) as [[]|x|] eqn:Eo.
      - rewrite (bind_done _ _ _ _ Eo) in H. cbn [log] in H.
        apply in_app_or in H. exact H.
      - rewrite (bind_threw _ _ _ _ Eo) in H. left. exact H.
      - rewrite (bind_diverged _ _ _ Eo) in H. left. exact H. }
    destruct Hor as [H1|H1].
    + exists 0%nat, s, t. rewrite Nat.add_0_r. split; [reflexivity | exact H1].
    + destruct (IH _ _ _ H1) as (k & s' & t' & Hk & Hin).
      exists (S k), s', t'. split; [exact Hk|].
      rewrite Nat.add_succ_r, <- Nat.add_succ_l. exact Hin.
Qed.

(** A finished playback loop contains the whole iteration of each scene. *)
Lemma playbackLoop_done_nth (scenes : list GeneratedScene) :
  forall i t k s,
    outcome (playbackLoop env width height i scenes t) = Done tt ->
    nth_error scenes k = Some s ->
    exists t',
      outcome (sceneBody env width height (i + k) s t') = Done tt /\
      incl (log (sceneBody env width height (i + k) s t'))
           (log (playbackLoop env width height i scenes t)).
Proof.
  induction scenes as [|s0 rest IH]; intros i t k s Hd Hk.
  - destruct k; discriminate.
  - cbn [playbackLoop] in Hd |- *.
    destruct (bind_done_inv _ _ _ _ Hd) as ([] & Ho & Ho' & _ & Hl).
    rewrite Hl. destruct k as [|k]; cbn in Hk.
    + inversion Hk; subst s0. exists t. rewrite Nat.add_0_r.
      split; [exact Ho | apply incl_appl, incl_refl].
    + destruct (IH _ _ _ _ Ho' Hk) as (t' & Hot & Hin).
      exists t'. rewrite Nat.add_succ_r, <- Nat.add_succ_l.
      split; [exact Hot | apply incl_appr; exact Hin].
Qed.




Hypothesis Hfi : 0 < frameInterval env.

(** With a positive frame interval the render loop of a scene resolves. *)
Lemma playScene_resolves (i : nat) (scene : GeneratedScene) (v : Visual)
      (a : option AudioBuffer) (t : Q) :
  playRejects env scene v = false ->
  outcome (playScene env width height i scene v a t) = Done tt.
Proof.
  intros Hp. pose proof (playScene_run env width height i scene v a t) as H.
  cbv zeta in H. rewrite Hp in H.
  rewrite (render_resolves env width height i scene v
             (playEnd env scene v t) (visibleDuration a)) in H.
  - destruct H as [H _]. exact H.
  - exact Hfi.
  - pose proof (framesBound_enough (visibleDuration a) Hfi). lra.
Qed.

Lemma sceneBody_resolves (i : nat) (scene : GeneratedScene) (t : Q) :
  (forall url, videoUrl scene = Some url -> playResolves env url = true) ->
  outcome (sceneBody env width height i scene t) = Done tt.
Proof.
  intros Hplay.
  destruct (loadedVisual env scene) as [[v|]|] eqn:Ev;
    destruct (loadedAudio env scene) as [a|] eqn:Ea.
  - destruct (sceneBody_plays env width height i scene t v a Ev Ea)
      as (t' & -> & _ & _).
    apply playScene_resolves. unfold playRejects.
    destruct (isVideo v); [|reflexivity].
    destruct (videoUrl scene) as [url|]; [|reflexivity].
    now rewrite (Hplay url eq_refl).
  - apply (sceneBody_load_error env width height i scene t (or_intror Ea)).
  - apply (sceneBody_no_visual env width height i scene t a Ev Ea).
  - apply (sceneBody_load_error env width height i scene t (or_intror Ea)).
  - apply (sceneBody_load_error env width height i scene t (or_introl Ev)).
  - apply (sceneBody_load_error env width height i scene t (or_introl Ev)).
Qed.

Lemma playbackLoop_resolves (scenes : list GeneratedScene) :
  playsOk env scenes ->
  forall i t, outcome (playbackLoop env width height i scenes t) = Done tt.
Proof.
  induction scenes as [|s rest IH]; intros Hp i t; cbn [playbackLoop].
  - reflexivity.
  - assert (Hs : outcome (sceneBody env width height i s t) = Done tt).
    { apply sceneBody_resolves. intros url Hu.
      apply (Hp s url); [left; reflexivity | exact Hu]. }
    rewrite (bind_done _ _ _ _ Hs). cbn [outcome].
    apply IH. intros s' url Hin. apply Hp. right. exact Hin.
Qed.

End Rendering.

Lemma visibleDuration_lower (a : option AudioBuffer) :
  (forall b, a = Some b -> 0 <= duration b) -> 0.5 <= visibleDuration a.
Proof.
  intros H. unfold visibleDuration. destruct a as [b|]; cbn.
  - specialize (H b eq_refl). destruct (Qeq_bool (duration b) 0); lra.
  - lra.
Qed.






(** ** Visible duration *)

Definition sumQ (l : list Q) : Q := fold_right Qplus 0 l.





(** A buffer of duration zero also gets the default. *)
Example visible_duration_zero_buffer :
  visibleDuration (Some (mkAudioBuffer 0)) == 5.5.
Proof. reflexivity. Qed.

(** ** Empty input *)

Definition noReadyScenesError : string :=
  "Failed to export full movie: No completed scenes to export".

(** C2 (as amended): the pipeline itself does not reject an empty list.
    When its setup meets no error (the canvas has a 2D context, no call on
    the audio context, the streams or the recorder is refused and the
    selected container is supported) it creates the audio graph and the
    recorder, starts and stops the recorder and resolves with a blob; when
    the setup meets an error it rejects with that error, as it does for
    every other list of scenes.  The rejection of an export with nothing
    to show is the caller's: for a non-empty scene list none of whose
    scenes is ready, [handleExportFullMovie] raises its error before
    [generateVideo] is called, so that no canvas, audio graph or recorder
    is created and no blob is downloaded; it logs the failure and leaves
    the error message in the application state. *)
Theorem empty_ready_list_rejected_by_caller :
  (forall env aspectRatio t,
      setupError env = None ->
      let r := generateVideo env [] aspectRatio t in
      outcome r = Done (mkBlob (selectMimeType (isTypeSupported env))) /\
      log r = setupLog env (fst (getDimensions aspectRatio))
                       (snd (getDimensions aspectRatio)) ++ teardownLog) /\
  (forall env scenes aspectRatio t e,
      setupError env = Some e ->
      outcome (generateVideo env [] aspectRatio t) = Threw e /\
      outcome (generateVideo env scenes aspectRatio t) = Threw e /\
      log (generateVideo env scenes aspectRatio t)
      = log (generateVideo env [] aspectRatio t)) /\
  (forall env scenes selectedRatio st t,
      scenes <> [] ->
      filter isReady scenes = [] ->
      let r := handleExportFullMovie env scenes selectedRatio st t in
      outcome r = Done (mkAppState false false None (Some noReadyScenesError)) /\
      log r = [ConsoleError "Export Full Movie Failed"] /\
      clock r = t).
Proof.
  split; [|split].
  - intros env aspectRatio t Hsetup. cbv zeta.
    pose proof (generateVideo_run env [] aspectRatio t) as H. cbv zeta in H.
    rewrite Hsetup in H. cbn [playbackLoop ret outcome log app] in H.
    destruct H as (Ho & _ & Hl). split; assumption.
  - intros env scenes aspectRatio t e Hsetup.
    pose proof (generateVideo_run env [] aspectRatio t) as H0.
    pose proof (generateVideo_run env scenes aspectRatio t) as H1.
    cbv zeta in H0, H1. rewrite Hsetup in H0, H1.
    destruct H0 as (Ho0 & _). destruct H1 as (Ho1 & _).
    split; [exact Ho0|]. split; [exact Ho1|].
    exact (generateVideo_setup_log env scenes aspectRatio t e Hsetup).
  - intros env scenes selectedRatio st t Hne Hready. cbv zeta.
    unfold handleExportFullMovie.
    destruct scenes as [|s rest]; [congruence|].
    cbn [List.length Nat.eqb]. rewrite Hready. cbn [List.length Nat.eqb].
    match goal with
    | |- context [tryCatch ?m ?h] =>
        assert (Htc : tryCatch m h t =
                      mkRun (Done (mkAppState true false None
                                              (Some noReadyScenesError)))
                            t [ConsoleError "Export Full Movie Failed"])
          by reflexivity;
        rewrite (bind_done (tryCatch m h) _ t _ (f_equal outcome Htc));
        rewrite Htc
    end.
    repeat split; reflexivity.
Qed.

(** A runtime that supports none of the candidate containers. *)
Definition plainBrowser : Browser :=
  mkBrowser true false (fun _ => false)
            (fun _ => Some (1024, 1024))
            (fun _ => Some (640, 360))
            Sample.audioOf
            (fun _ => 0)
            (fun _ => true)
            500
            fixedPitch
            (fun _ => None) 0 (fun _ => 0) 0 0.

Lemma empty_ready_list_rejected_by_caller_witness :
  setupError Sample.browser = None /\
  outcome (generateVideo Sample.browser [] "16:9" 0)
  = Done (mkBlob "video/webm;codecs=vp9,opus") /\
  setupError plainBrowser = Some "NotSupportedError"%string /\
  outcome (generateVideo plainBrowser [] "16:9" 0) = Threw "NotSupportedError" /\
  [Sample.blindScene] <> [] /\
  filter isReady [Sample.blindScene] = [] /\
  log (handleExportFullMovie Sample.browser [Sample.blindScene] "16:9"
                             Sample.idle 0)
  = [ConsoleError "Export Full Movie Failed"].
Proof.
  assert (Hok : setupError Sample.browser = None) by reflexivity.
  assert (Hno : setupError plainBrowser = Some "NotSupportedError"%string)
    by reflexivity.
  assert (Hne : [Sample.blindScene] <> []) by discriminate.
  assert (Hready : filter isReady [Sample.blindScene] = []) by reflexivity.
  destruct empty_ready_list_rejected_by_caller as (Hempty & Hsetup & H).
  split; [exact Hok|].
  split; [exact (proj1 (Hempty Sample.browser "16:9"%string 0 Hok))|].
  split; [exact Hno|].
  split; [exact (proj1 (Hsetup plainBrowser [] "16:9"%string 0 _ Hno))|].
  split; [exact Hne | split; [exact Hready|]].
  destruct (H Sample.browser [Sample.blindScene] "16:9"%string Sample.idle 0
              Hne Hready) as (_ & Hl & _).
  exact Hl.
Defined.

(** Handed an empty list, the pipeline creates the audio graph and the
    recorder, starts recording and resolves with a blob. *)
Lemma generateVideo_empty_list_resolves :
  let r := generateVideo Sample.browser [] "16:9" 0 in
  outcome r = Done (mkBlob "video/webm;codecs=vp9,opus") /\
  In AudioContextCreated (log r) /\
  In DestinationCreated (log r) /\
  In (RecorderCreated "video/webm;codecs=vp9,opus") (log r) /\
  In RecorderStarted (log r).
Proof. vm_compute. intuition. Qed.

(** The three-scene sample run, cut at the two source starts. *)
Lemma narration_strictly_serialized_witness :
  let tr := log (generateVideo Sample.browser Sample.threeScenes "16:9" 0) in
  tr = firstn 7 tr ++ SourceStarted 0 0
         :: firstn 39 (skipn 8 tr) ++ SourceStarted 2 9000 :: skipn 48 tr /\
  (List.length (activeSources [] (firstn 10 tr)) <= 1)%nat /\
  exists m1 e m2 ts m3,
    firstn 39 (skipn 8 tr)
    = m1 ++ LoopResolved 0 e :: m2 ++ SourceStopped 0 ts :: m3 /\
    durationAt Sample.browser Sample.threeScenes 0 <= e.
Proof.
  cbv zeta.
  set (tr := log (generateVideo Sample.browser Sample.threeScenes "16:9" 0)).
  assert (Hcut : tr = firstn 7 tr ++ SourceStarted 0 0
                        :: firstn 39 (skipn 8 tr)
                        ++ SourceStarted 2 9000 :: skipn 48 tr)
    by (vm_compute; reflexivity).
  destruct (narration_strictly_serialized
              Sample.browser Sample.threeScenes "16:9" 0) as [Hone Hbetween].
  split; [exact Hcut|]. split.
  - apply (Hone (firstn 10 tr) (skipn 10 tr)).
    symmetry. apply firstn_skipn.
  - exact (proj2 (Hbetween _ _ _ _ _ _ _ Hcut)).
Defined.

(** ** Interactive preview ([components/VideoPlayer.tsx]) *)

Module Preview.

(** The background-music element, as far as the player drives it. *)
Record BgAudio : Type := mkBgAudio {
  bgPaused : bool;
  bgCurrentTime : Q
}.

(** What a pending [animate] callback closes over: the [progress] of the
    render in which the playback effect ran, and through [handleSceneEnd]
    that render's scene index. *)
Record Closure : Type := mkClosure {
  capturedProgress : Q;
  capturedIndex : Z
}.

(** The lifted state ([currentSceneIndex], [isPlaying]), the component's
    [progress], its refs, and whether the narration element's listeners
    are attached and whether it is paused. *)
Record Player : Type := mkPlayer {
  currentSceneIndex : Z;
  isPlaying : bool;
  progress : Q;
  fallbackStartTimeRef : option Q;
  fallbackRafRef : option Closure;
  bgAudioRef : option BgAudio;
  listening : bool;
  audioPaused : bool
}.

Definition FALLBACK_DURATION : Q := 5000.

Inductive Direction : Type := next | prev.

(** What the page answers when an effect calls [play()]: whether the
    background music and whether the narration start to play.  A call that
    is refused changes nothing on its element and its promise rejects; the
    music's [catch] only warns, the narration's [catch] runs later
    ([PlayRejected] below). *)
Record Autoplay : Type := mkAutoplay {
  musicStarts : bool;
  narrationStarts : bool
}.

(** Every [play()] is granted. *)
Definition granted : Autoplay := mkAutoplay true true.

Section Component.

(** The [scenes] prop. *)
Variable scenes : list GeneratedScene.

(** The page's answer to the [play()] calls of the render at hand. *)
Variable autoplay : Autoplay.

Definition scenesLength : Z := Z.of_nat (List.length scenes).

(** [scenes[index]] *)
Definition sceneAt (index : Z) : option GeneratedScene :=
  if (index <? 0)%Z then None else nth_error scenes (Z.to_nat index).

(** [!!currentScene?.audioUrl && !currentScene?.isRegeneratingAudio] *)
Definition hasAudio (index : Z) : bool :=
  match sceneAt index with
  | Some sc => JS.truthy (audioUrl sc) && negb (isRegeneratingAudio sc)
  | None => false
  end.

(** [handleSceneEnd] as created in the render whose scene index is
    [index]. *)
Definition handleSceneEnd (index : Z) (s : Player) : Player :=
  if (index <? scenesLength - 1)%Z then
    mkPlayer (index + 1) (isPlaying s) 0 None
             (fallbackRafRef s) (bgAudioRef s) (listening s) (audioPaused s)
  else
    mkPlayer 0 false 0 None
             (fallbackRafRef s)
             (option_map (fun _ => mkBgAudio true 0) (bgAudioRef s))
             (listening s) (audioPaused s).

(** [skip(direction)] *)
Definition skip (direction : Direction) (s : Player) : Player :=
  let newIndex := match direction with
                  | next => (currentSceneIndex s + 1)%Z
                  | prev => (currentSceneIndex s - 1)%Z
                  end in
  let newIndex := if (newIndex <? 0)%Z then 0%Z else newIndex in
  let newIndex := if (newIndex >=? scenesLength)%Z
                  then (scenesLength - 1)%Z else newIndex in
  mkPlayer newIndex false 0 None
           (fallbackRafRef s) (bgAudioRef s) (listening s) (audioPaused s).

(** [togglePlay] *)
Definition togglePlay (s : Player) : Player :=
  if (scenesLength =? 0)%Z then s
  else mkPlayer (currentSceneIndex s) (negb (isPlaying s)) (progress s)
                (fallbackStartTimeRef s) (fallbackRafRef s) (bgAudioRef s)
                (listening s) (audioPaused s).

(** The [timeupdate] listener of the audio path; [None] is a [NaN]
    duration. *)
Definition onTimeUpdate (currentTime : Q) (audioDuration : option Q)
           (s : Player) : Player :=
  match audioDuration with
  | Some d =>
      if Qeq_bool d 0 then s
      else mkPlayer (currentSceneIndex s) (isPlaying s)
                    (currentTime / d * 100)
                    (fallbackStartTimeRef s) (fallbackRafRef s)
                    (bgAudioRef s) (listening s) (audioPaused s)
  | None => s
  end.

(** One run of the [animate] callback at wall-clock time [now]. *)
Definition animate (c : Closure) (now : Q) (s : Player) : Player :=
  let anchor :=
    match fallbackStartTimeRef s with
    | Some a => if Qeq_bool a 0
                then now - capturedProgress c / 100 * FALLBACK_DURATION
                else a
    | None => now - capturedProgress c / 100 * FALLBACK_DURATION
    end in
  let elapsed := now - anchor in
  let newProgress := Qmin (elapsed / FALLBACK_DURATION * 100) 100 in
  if Qle_bool 100 newProgress then
    let s1 := handleSceneEnd (capturedIndex c)
                (mkPlayer (currentSceneIndex s) (isPlaying s) newProgress
                          (Some anchor) None (bgAudioRef s)
                          (listening s) (audioPaused s)) in
    mkPlayer (currentSceneIndex s1) (isPlaying s1) (progress s1) None
             (fallbackRafRef s1) (bgAudioRef s1) (listening s1) (audioPaused s1)
  else
    mkPlayer (currentSceneIndex s) (isPlaying s) newProgress
             (Some anchor) (Some c) (bgAudioRef s)
             (listening s) (audioPaused s).

(** The effect on [[isPlaying]]: the background music is paused when the
    flag is off; when it is on, [bgAudio.play()] starts the music if the
    page grants it and leaves the element as it was if not. *)
Definition syncEffect (s : Player) : Player :=
  mkPlayer (currentSceneIndex s) (isPlaying s) (progress s)
           (fallbackStartTimeRef s) (fallbackRafRef s)
           (option_map
              (fun b =>
                 mkBgAudio (if isPlaying s then
                              if musicStarts autoplay then false
                              else bgPaused b
                            else true)
                           (bgCurrentTime b))
              (bgAudioRef s))
           (listening s) (audioPaused s).

(** The main playback effect, with the clean-up of its previous run, for
    the render whose state is [s]: the pending frame is cancelled,
    [setProgress(0)] is queued, and either the audio path attaches its
    listeners or the fallback path schedules [animate], which closes over
    this render's [progress].  On the audio path the narration is paused
    when the flag is off; when it is on, [audio.play()] starts it if the
    page grants it, and a refused call leaves the element paused, as the
    [pause()] of an earlier run or the [load()] of the new source left
    it. *)
Definition playbackEffect (s : Player) : Player :=
  if hasAudio (currentSceneIndex s) then
    mkPlayer (currentSceneIndex s) (isPlaying s) 0 None None
             (bgAudioRef s) true
             (if isPlaying s then negb (narrationStarts autoplay) else true)
  else if isPlaying s then
    mkPlayer (currentSceneIndex s) (isPlaying s) 0
             (fallbackStartTimeRef s)
             (Some (mkClosure (progress s) (currentSceneIndex s)))
             (bgAudioRef s) false true
  else
    mkPlayer (currentSceneIndex s) (isPlaying s) 0 None None
             (bgAudioRef s) false true.

(** What the user, the narration element and the display can do;
    [PlayRejected] is the [catch] callback of a narration [play()] whose
    promise rejected with an error of that name. *)
Inductive Action : Type :=
| TogglePlay
| Skip (direction : Direction)
| SelectScene (index : Z)
| TimeUpdate (currentTime : Q) (audioDuration : option Q)
| Ended
| PlaybackError
| Tick (now : Q)
| PlayRejected (name : string).

Definition handle (a : Action) (s : Player) : Player :=
  match a with
  | TogglePlay => togglePlay s
  | Skip d => skip d s
  | SelectScene index =>
      mkPlayer index true (progress s) (fallbackStartTimeRef s)
               (fallbackRafRef s) (bgAudioRef s) (listening s) (audioPaused s)
  | TimeUpdate ct d => if listening s then onTimeUpdate ct d s else s
  | Ended => if listening s then handleSceneEnd (currentSceneIndex s) s else s
  | PlaybackError =>
      if listening s then
        mkPlayer (currentSceneIndex s) false (progress s)
                 (fallbackStartTimeRef s) (fallbackRafRef s) (bgAudioRef s)
                 (listening s) (audioPaused s)
      else s
  | Tick now =>
      match fallbackRafRef s with
      | Some c => animate c now s
      | None => s
      end
  | PlayRejected name =>
      if String.eqb name "NotAllowedError"%string
         || String.eqb name "NotSupportedError"%string
      then
        mkPlayer (currentSceneIndex s) false (progress s)
                 (fallbackStartTimeRef s) (fallbackRafRef s) (bgAudioRef s)
                 (listening s) (audioPaused s)
      else s
  end.

(** A handler followed by the render it causes: the effects run when one
    of their dependencies changed. *)
Definition step (a : Action) (s : Player) : Player :=
  let s1 := handle a s in
  let playingChanged := negb (Bool.eqb (isPlaying s1) (isPlaying s)) in
  let indexChanged :=
    negb (currentSceneIndex s1 =? currentSceneIndex s)%Z in
  let s2 := if playingChanged then syncEffect s1 else s1 in
  if playingChanged || indexChanged then playbackEffect s2 else s2.

(** The player after mounting, before any interaction. *)
Definition mounted (bg : option BgAudio) : Player :=
  playbackEffect (mkPlayer 0 false 0 None None bg false true).

Definition run (actions : list Action) (s : Player) : Player :=
  fold_left (fun st a => step a st) actions s.

End Component.

End Preview.

(** ** Scene-complete transition *)

Module PreviewFacts.
Import Preview.

(** C7: when the active scene completes and its index is not the last, the
    index advances by exactly 1 and progress is reset to 0 (the playing
    flag is left alone); when it is the last, the playing flag is set to
    false, the index and progress are reset to 0, and the background-music
    player, if there is one, is paused and rewound to position 0. *)
Theorem handleSceneEnd_transition
        (scenes : list GeneratedScene) (s : Player) :
  let index := currentSceneIndex s in
  let s' := handleSceneEnd scenes index s in
  ((index < scenesLength scenes - 1)%Z ->
   currentSceneIndex s' = (index + 1)%Z /\ progress s' = 0 /\
   isPlaying s' = isPlaying s) /\
  (index = (scenesLength scenes - 1)%Z ->
   isPlaying s' = false /\ currentSceneIndex s' = 0%Z /\ progress s' = 0 /\
   forall b, bgAudioRef s = Some b ->
             bgAudioRef s' = Some (mkBgAudio true 0)).
Proof.
  cbv zeta. unfold handleSceneEnd. split.
  - intros H. apply Z.ltb_lt in H. rewrite H. cbn. auto.
  - intros H.
    assert (E : (currentSceneIndex s <? scenesLength scenes - 1)%Z = false)
      by (apply Z.ltb_ge; lia).
    rewrite E. cbn. repeat split. intros b ->. reflexivity.
Qed.

(** Two scenes: the first without narration audio, the second with. *)
Definition twoScenes : list GeneratedScene :=
  [Sample.scene (Some "a.png") None;
   Sample.scene (Some "b.png") (Some "3.wav")]%string.

(** A single scene without narration audio. *)
Definition silentScene : list GeneratedScene :=
  [Sample.scene (Some "a.png"%string) None].

Definition music : BgAudio := mkBgAudio false 7.

Lemma handleSceneEnd_transition_witness :
  (0 < scenesLength twoScenes - 1)%Z /\
  (1 = scenesLength twoScenes - 1)%Z /\
  currentSceneIndex
    (handleSceneEnd twoScenes 0
       (mkPlayer 0 true 100 None None (Some music) true false)) = 1%Z /\
  bgAudioRef
    (handleSceneEnd twoScenes 1
       (mkPlayer 1 true 100 None None (Some music) true false))
  = Some (mkBgAudio true 0).
Proof.
  assert (H0 : (0 < scenesLength twoScenes - 1)%Z) by reflexivity.
  assert (H1 : (1 = scenesLength twoScenes - 1)%Z) by reflexivity.
  split; [exact H0 | split; [exact H1 | split]].
  - destruct (handleSceneEnd_transition twoScenes
                (mkPlayer 0 true 100 None None (Some music) true false))
      as [Hadv _].
    exact (proj1 (Hadv H0)).
  - destruct (handleSceneEnd_transition twoScenes
                (mkPlayer 1 true 100 None None (Some music) true false))
      as [_ Hlast].
    destruct (Hlast H1) as (_ & _ & _ & Hbg).
    exact (Hbg music eq_refl).
Defined.

(** ** Background music across scene advances *)

Lemma step_keeps_music (scenes : list GeneratedScene) (autoplay : Autoplay)
      (a : Action) (s : Player) :
  isPlaying (handle scenes a s) = isPlaying s ->
  bgAudioRef (step scenes autoplay a s) = bgAudioRef (handle scenes a s).
Proof.
  intros H. unfold step. cbv zeta. rewrite H, Bool.eqb_reflx. cbn [negb orb].
  destruct (negb _); [|reflexivity].
  unfold playbackEffect.
  destruct (hasAudio scenes _); [reflexivity|].
  destruct (isPlaying (handle scenes a s)); reflexivity.
Qed.

(** C10: completing a scene that is not the last leaves the
    background-music player untouched, neither paused nor repositioned:
    [handleSceneEnd] returns it as it was, and so does the whole transition
    it causes, whether the completion comes from the narration's [ended]
    event or from the fallback clock, and whatever the page answers to the
    [play()] of the next scene's narration; only in the last-scene branch
    is the player paused and rewound. *)
Theorem handleSceneEnd_keeps_music
        (scenes : list GeneratedScene) (autoplay : Autoplay) (s : Player) :
  let index := currentSceneIndex s in
  ((index < scenesLength scenes - 1)%Z ->
   bgAudioRef (handleSceneEnd scenes index s) = bgAudioRef s /\
   bgAudioRef (step scenes autoplay Ended s) = bgAudioRef s /\
   (forall c now,
       fallbackRafRef s = Some c -> capturedIndex c = index ->
       bgAudioRef (step scenes autoplay (Tick now) s) = bgAudioRef s)) /\
  (forall b,
      bgAudioRef s = Some b ->
      bgAudioRef (handleSceneEnd scenes index s) <> Some b ->
      ~ (index < scenesLength scenes - 1)%Z).
Proof.
  cbv zeta. split.
  - intros H. apply Z.ltb_lt in H.
    assert (E1 : handleSceneEnd scenes (currentSceneIndex s) s
                 = mkPlayer (currentSceneIndex s + 1) (isPlaying s) 0 None
                            (fallbackRafRef s) (bgAudioRef s) (listening s)
                            (audioPaused s))
      by (unfold handleSceneEnd; now rewrite H).
    split; [now rewrite E1|]. split.
    + rewrite step_keeps_music; cbn [handle];
        destruct (listening s); rewrite ?E1; reflexivity.
    + intros c now Hc Hi.
      assert (E2 : forall p,
                 handleSceneEnd scenes (capturedIndex c) p
                 = mkPlayer (capturedIndex c + 1) (isPlaying p) 0 None
                            (fallbackRafRef p) (bgAudioRef p) (listening p)
                            (audioPaused p))
        by (intros p; unfold handleSceneEnd; now rewrite Hi, H).
      rewrite step_keeps_music; cbn [handle]; rewrite Hc; unfold animate;
        cbv zeta; destruct (Qle_bool 100 _); rewrite ?E2; reflexivity.
  - intros b Hb Hneq Hlt. apply Hneq. apply Z.ltb_lt in Hlt.
    unfold handleSceneEnd. rewrite Hlt. exact Hb.
Qed.

Lemma handleSceneEnd_keeps_music_witness :
  (0 < scenesLength twoScenes - 1)%Z /\
  bgAudioRef
    (step twoScenes granted (Tick 6000)
       (mkPlayer 0 true 40 (Some 1000) (Some (mkClosure 0 0)) (Some music)
                 false true))
  = Some music.
Proof.
  assert (H0 : (0 < scenesLength twoScenes - 1)%Z) by reflexivity.
  split; [exact H0|].
  destruct (handleSceneEnd_keeps_music twoScenes granted
              (mkPlayer 0 true 40 (Some 1000) (Some (mkClosure 0 0))
                        (Some music) false true)) as [Hkeep _].
  destruct (Hkeep H0) as (_ & _ & Htick).
  exact (Htick (mkClosure 0 0) 6000 eq_refl eq_refl).
Defined.

(** ** Scene clock: range of the progress value *)






Section Range.

Variable scenes : list GeneratedScene.
Variable autoplay : Autoplay.




Lemma skip_progress (d : Direction) (s : Player) :
  progress (skip scenes d s) = 0.
Proof. reflexivity. Qed.

Lemma playbackEffect_progress (s : Player) :
  progress (playbackEffect scenes autoplay s) = 0.
Proof.
  unfold playbackEffect. destruct (hasAudio scenes _); [reflexivity|].
  destruct (isPlaying s); reflexivity.
Qed.









End Range.






(** A fallback scene played up to 40 %. *)
Definition playingAt40 (autoplay : Autoplay) : Player :=
  run silentScene autoplay [TogglePlay; Tick 1000; Tick 3000]
      (mounted silentScene autoplay None).




(** ** Fallback clock across pause and resume *)

(** Pausing runs the playback effect, whose [setProgress(0)] discards the
    progress reached; the [animate] scheduled on resume therefore closes
    over a progress of 0 and anchors at the present time: whatever progress
    a fallback scene had reached, it restarts from 0. *)
Lemma pause_resume_restarts (scenes : list GeneratedScene)
      (autoplay : Autoplay) (s : Player) (now : Q) :
  scenes <> [] ->
  hasAudio scenes (currentSceneIndex s) = false ->
  isPlaying s = true ->
  let paused := step scenes autoplay TogglePlay s in
  let resumed :=
    step scenes autoplay (Tick now) (step scenes autoplay TogglePlay paused) in
  progress paused = 0 /\
  fallbackStartTimeRef paused = None /\
  (exists a, fallbackStartTimeRef resumed = Some a /\ a == now) /\
  progress resumed == 0.
Proof.
  intros Hne Hna Hplay. cbv zeta.
  assert (Hlen : (scenesLength scenes =? 0)%Z = false).
  { apply Z.eqb_neq. unfold scenesLength. destruct scenes; [congruence|].
    cbn [List.length]. lia. }
  destruct s as [idx pl pr fs fr bg li ap].
  cbn [currentSceneIndex isPlaying] in Hna, Hplay. subst pl.
  assert (E1 : step scenes autoplay TogglePlay
                 (mkPlayer idx true pr fs fr bg li ap) =
               mkPlayer idx false 0 None None
                        (option_map (fun b => mkBgAudio true (bgCurrentTime b))
                                    bg)
                        false true).
  { unfold step, handle, togglePlay. cbv zeta. rewrite Hlen.
    cbn [isPlaying currentSceneIndex negb Bool.eqb orb].
    unfold playbackEffect, syncEffect.
    cbn [isPlaying currentSceneIndex progress fallbackStartTimeRef
           fallbackRafRef bgAudioRef listening audioPaused negb].
    rewrite Hna. reflexivity. }
  rewrite E1.
  assert (E2 : step scenes autoplay TogglePlay
                 (mkPlayer idx false 0 None None
                    (option_map (fun b => mkBgAudio true (bgCurrentTime b)) bg)
                    false true) =
               mkPlayer idx true 0 None (Some (mkClosure 0 idx))
                        (option_map
                           (fun b =>
                              mkBgAudio (if musicStarts autoplay then false
                                         else bgPaused b)
                                        (bgCurrentTime b))
                           (option_map
                              (fun b => mkBgAudio true (bgCurrentTime b)) bg))
                        false true).
  { unfold step, handle, togglePlay. cbv zeta. rewrite Hlen.
    cbn [isPlaying currentSceneIndex negb Bool.eqb orb].
    unfold playbackEffect, syncEffect.
    cbn [isPlaying currentSceneIndex progress fallbackStartTimeRef
           fallbackRafRef bgAudioRef listening audioPaused negb].
    rewrite Hna. reflexivity. }
  rewrite E2. clear E1 E2.
  split; [reflexivity|]. split; [reflexivity|].
  unfold step, handle. cbv zeta. cbn [fallbackRafRef].
  unfold animate. cbv zeta.
  cbn [fallbackStartTimeRef capturedProgress capturedIndex currentSceneIndex
         isPlaying bgAudioRef listening audioPaused].
  set (anchor := now - 0 / 100 * FALLBACK_DURATION).
  assert (Ea : anchor == now) by (unfold anchor, FALLBACK_DURATION; field).
  set (p := Qmin ((now - anchor) / FALLBACK_DURATION * 100) 100).
  assert (Ep : p == 0).
  { unfold p. assert (E0 : (now - anchor) / FALLBACK_DURATION * 100 == 0)
      by (rewrite Ea; unfold FALLBACK_DURATION; field).
    rewrite Q.min_l; [exact E0 | rewrite E0; lra]. }
  assert (Eb : Qle_bool 100 p = false).
  { destruct (Qle_bool 100 p) eqn:E; [|reflexivity].
    apply Qle_bool_iff in E. rewrite Ep in E. lra. }
  rewrite Eb.
  cbn [isPlaying currentSceneIndex Bool.eqb negb orb].
  rewrite Z.eqb_refl. cbn [negb fallbackStartTimeRef progress].
  split; [exists anchor; split; [reflexivity | exact Ea] | exact Ep].
Qed.

(** C8 (the code against the claim): a fallback scene is played to 40 %,
    paused, and resumed at wall-clock time 10000, whatever the page
    answers to [play()].  Pausing already drops the progress to 0; on
    resume the anchor is 10000, not 10000 - 40/100 * 5000 = 8000, and the
    first recomputed progress is 0, not 40. *)
Theorem fallback_pause_resume_loses_progress (autoplay : Autoplay) :
  let playing := playingAt40 autoplay in
  let paused := step silentScene autoplay TogglePlay playing in
  let resumed :=
    step silentScene autoplay (Tick 10000)
         (step silentScene autoplay TogglePlay paused) in
  hasAudio silentScene (currentSceneIndex playing) = false /\
  isPlaying playing = true /\
  progress playing == 40 /\
  progress paused == 0 /\
  (exists a, fallbackStartTimeRef resumed = Some a /\ a == 10000 /\
             ~ a == 10000 - 40 / 100 * FALLBACK_DURATION) /\
  progress resumed == 0 /\
  ~ progress resumed == 40.
Proof.
  cbv zeta. destruct autoplay as [[] []]; vm_compute;
    (repeat split; try reflexivity; try (intros H; discriminate H));
    (eexists; split; [reflexivity|];
     split; [reflexivity | intros H; discriminate H]).
Qed.

End PreviewFacts.

(** * Beyond the compositor: the generation services and the application *)

(** ** WAV wrapping of raw PCM ([services/gemini.ts]) *)

Module Wav.

(** A [DataView] over an [ArrayBuffer]: the bytes, each in [0, 256). *)
Definition View : Type := list Z.

(** Replacing the element at an index that exists. *)
Fixpoint upd (l : View) (n : nat) (v : Z) : View :=
  match l, n with
  | [], _ => []
  | _ :: t, O => v :: t
  | h :: t, S n' => h :: upd t n' v
  end.

(** [view.setUint8(offset, v)]; [None] is the [RangeError] of an offset
    outside the buffer. *)
Definition setUint8 (view : View) (offset : nat) (v : Z) : option View :=
  if (offset <? List.length view)%nat
  then Some (upd view offset (v mod 256)%Z)
  else None.

(** The bytes of a [width]-byte unsigned integer, least significant
    first. *)
Fixpoint leBytes (width : nat) (v : Z) : list Z :=
  match width with
  | O => []
  | S w => (v mod 256)%Z :: leBytes w (v / 256)%Z
  end.

Fixpoint updMany (l : View) (n : nat) (vs : list Z) : View :=
  match vs with
  | [] => l
  | v :: vs' => updMany (upd l n v) (S n) vs'
  end.

(** [view.setUint16(offset, v, littleEndian)] and
    [view.setUint32(offset, v, littleEndian)]. *)
Definition setUint (width : nat) (view : View) (offset : nat) (v : Z)
           (littleEndian : bool) : option View :=
  if (offset + width <=? List.length view)%nat
  then Some (updMany view offset
                     (if littleEndian then leBytes width v
                      else rev (leBytes width v)))
  else None.

Definition setUint16 := setUint 2.
Definition setUint32 := setUint 4.

(** [string.charCodeAt(i)] of a character of a binary string. *)
Definition charCode (c : ascii) : Z := Z.of_nat (nat_of_ascii c).

(** [writeString(view, offset, string)] *)
Fixpoint writeString (view : View) (offset : nat) (s : string) : option View :=
  match s with
  | EmptyString => Some view
  | String c s' =>
      match setUint8 view offset (charCode c) with
      | Some view' => writeString view' (S offset) s'
      | None => None
      end
  end.

(** The [bytes] array filled from the decoded string. *)
Fixpoint bytesOf (binaryString : string) : list Z :=
  match binaryString with
  | EmptyString => []
  | String c s' => (charCode c mod 256)%Z :: bytesOf s'
  end.

(** [new Uint8Array(buffer, offset).set(bytes)] *)
Definition setBytes (view : View) (offset : nat) (bytes : list Z)
  : option View :=
  if (offset + List.length bytes <=? List.length view)%nat
  then Some (firstn offset view ++ bytes
                    ++ skipn (offset + List.length bytes) view)
  else None.

Definition andThen {A B} (o : option A) (f : A -> option B) : option B :=
  match o with Some a => f a | None => None end.

Notation "x <-? m ;; k" := (andThen m (fun x => k))
  (at level 61, m at next level, right associativity).

Definition numChannels : Z := 1.
Definition sampleRate : Z := 24000.
Definition bitsPerSample : Z := 16.
Definition headerSize : nat := 44.

(** [createWavUrlFromPcm] from the string [atob] returned to the contents
    of the ['audio/wav'] blob it hands to [URL.createObjectURL]. *)
Definition createWavUrlFromPcm (binaryString : string) : option View :=
  let bytes := bytesOf binaryString in
  let byteRate := (sampleRate * numChannels * (bitsPerSample / 8))%Z in
  let blockAlign := (numChannels * (bitsPerSample / 8))%Z in
  let dataSize := List.length bytes in
  let view := repeat 0%Z (headerSize + dataSize) in
  view <-? writeString view 0 "RIFF" ;;
  view <-? setUint32 view 4 (36 + Z.of_nat dataSize) true ;;
  view <-? writeString view 8 "WAVE" ;;
  view <-? writeString view 12 "fmt " ;;
  view <-? setUint32 view 16 16 true ;;
  view <-? setUint16 view 20 1 true ;;
  view <-? setUint16 view 22 numChannels true ;;
  view <-? setUint32 view 24 sampleRate true ;;
  view <-? setUint32 view 28 byteRate true ;;
  view <-? setUint16 view 32 blockAlign true ;;
  view <-? setUint16 view 34 bitsPerSample true ;;
  view <-? writeString view 36 "data" ;;
  view <-? setUint32 view 40 (Z.of_nat dataSize) true ;;
  setBytes view headerSize bytes.

(** *** Reading a header back *)

(** [view.getUint16(offset, true)] and [view.getUint32(offset, true)]. *)
Fixpoint leValue (bs : list Z) : Z :=
  match bs with
  | [] => 0
  | b :: bs' => (b + 256 * leValue bs')%Z
  end.

Definition getUint (width : nat) (view : View) (offset : nat) : option Z :=
  if (offset + width <=? List.length view)%nat
  then Some (leValue (firstn width (skipn offset view)))
  else None.

(** The text at an offset. *)
Definition tagAt (view : View) (offset : nat) (tag : string) : bool :=
  forallb (fun p => Z.eqb (fst p) (snd p))
          (combine (firstn (String.length tag) (skipn offset view))
                   (bytesOf tag))
  && (offset + String.length tag <=? List.length view)%nat.

Record WavInfo : Type := mkWavInfo {
  audioFormat : Z;
  channels : Z;
  samplesPerSecond : Z;
  bytesPerSecond : Z;
  bytesPerFrame : Z;
  bitsPerSampleRead : Z;
  dataBytes : Z
}.

(** A reader of the canonical 44-byte PCM header: the four tags must be
    in place, the format chunk 16 bytes long and the RIFF size 36 more
    than the data size. *)
Definition readHeader (view : View) : option WavInfo :=
  if tagAt view 0 "RIFF" && tagAt view 8 "WAVE" && tagAt view 12 "fmt "
     && tagAt view 36 "data"
  then
    riff <-? getUint 4 view 4 ;;
    fmtSize <-? getUint 4 view 16 ;;
    fmt <-? getUint 2 view 20 ;;
    ch <-? getUint 2 view 22 ;;
    rate <-? getUint 4 view 24 ;;
    brate <-? getUint 4 view 28 ;;
    align <-? getUint 2 view 32 ;;
    bits <-? getUint 2 view 34 ;;
    size <-? getUint 4 view 40 ;;
    if ((fmtSize =? 16) && (riff =? 36 + size))%Z
    then Some (mkWavInfo fmt ch rate brate align bits size)
    else None
  else None.

(** The header [createWavUrlFromPcm] writes for [n] bytes of data. *)
Definition headerFor (n : nat) : list Z :=
  bytesOf "RIFF" ++ leBytes 4 (36 + Z.of_nat n)
    ++ bytesOf "WAVE" ++ bytesOf "fmt "
    ++ leBytes 4 16 ++ leBytes 2 1 ++ leBytes 2 1
    ++ leBytes 4 24000 ++ leBytes 4 48000 ++ leBytes 2 2 ++ leBytes 2 16
    ++ bytesOf "data" ++ leBytes 4 (Z.of_nat n).

Lemma bytesOf_length (s : string) : List.length (bytesOf s) = String.length s.
Proof. induction s as [|c s IH]; cbn; [reflexivity | now rewrite IH]. Qed.

Lemma bytesOf_range (s : string) :
  Forall (fun b => 0 <= b < 256)%Z (bytesOf s).
Proof.
  induction s as [|c s IH]; cbn; constructor; [|exact IH].
  apply Z.mod_pos_bound. lia.
Qed.

Lemma skipn_repeat_all (n : nat) : skipn n (repeat 0%Z n) = [].
Proof. induction n as [|n IH]; [reflexivity | exact IH]. Qed.

(** The buffer is the header followed by the data. *)
Lemma createWav_layout (binaryString : string) :
  createWavUrlFromPcm binaryString =
  Some (headerFor (String.length binaryString) ++ bytesOf binaryString).
Proof.
  unfold createWavUrlFromPcm. cbv zeta.
  rewrite bytesOf_length.
  set (n := String.length binaryString).
  set (size := (36 + Z.of_nat n)%Z).
  set (dsize := Z.of_nat n).
  cbn -[Z.modulo Z.div Z.add Z.of_nat bytesOf headerFor setBytes].
  unfold setBytes.
  cbn -[Z.modulo Z.div Z.add Z.of_nat bytesOf headerFor].
  rewrite bytesOf_length, repeat_length. fold n.
  rewrite Nat.leb_refl, skipn_repeat_all, app_nil_r.
  reflexivity.
Qed.

Lemma charCode_range (c : ascii) : (0 <= charCode c < 256)%Z.
Proof.
  unfold charCode. pose proof (nat_ascii_bounded c). lia.
Qed.

Lemma bytesOf_codes (s : string) :
  bytesOf s = map charCode (list_ascii_of_string s).
Proof.
  induction s as [|c s IH]; cbn; [reflexivity|].
  rewrite IH, Z.mod_small by apply charCode_range. reflexivity.
Qed.

Lemma headerFor_length (n : nat) : List.length (headerFor n) = 44%nat.
Proof. reflexivity. Qed.

(** X1: wrapping never fails and never touches the samples: for every
    decoded string the blob is 44 bytes longer than the data, and what
    follows its first 44 bytes is the data, byte for byte. *)
Theorem wav_data_preserved (binaryString : string) :
  exists buffer,
    createWavUrlFromPcm binaryString = Some buffer /\
    List.length buffer = (44 + String.length binaryString)%nat /\
    skipn 44 buffer = map charCode (list_ascii_of_string binaryString) /\
    firstn 44 buffer = headerFor (String.length binaryString).
Proof.
  exists (headerFor (String.length binaryString) ++ bytesOf binaryString).
  split; [apply createWav_layout|]. split; [|split].
  - rewrite length_app, headerFor_length, bytesOf_length. reflexivity.
  - rewrite <- bytesOf_codes.
    rewrite <- (headerFor_length (String.length binaryString)) at 1.
    now rewrite skipn_app, skipn_all, Nat.sub_diag.
  - rewrite <- (headerFor_length (String.length binaryString)) at 1.
    now rewrite firstn_app, firstn_all, Nat.sub_diag, app_nil_r.
Qed.

Lemma leValue_leBytes (w : nat) :
  forall v, leValue (leBytes w v) = (v mod 256 ^ Z.of_nat w)%Z.
Proof.
  induction w as [|w IH]; intros v.
  - cbn. now rewrite Z.mod_1_r.
  - cbn [leBytes leValue]. rewrite IH.
    rewrite Nat2Z.inj_succ, Z.pow_succ_r by lia.
    rewrite Z.rem_mul_r by lia. reflexivity.
Qed.

(** X2: the header reads back as what the service was given: for data
    short enough for the 32-bit size fields, a reader of the canonical PCM
    header finds uncompressed PCM, one channel, 24000 samples a second of
    16 bits (48000 bytes a second, 2 bytes a frame) and the exact number
    of data bytes, with the RIFF size 36 more than that. *)
Theorem wav_header_round_trip (binaryString : string) (buffer : View)
        (Hfit : (Z.of_nat (String.length binaryString) < 2 ^ 32 - 36)%Z)
        (Hbuf : createWavUrlFromPcm binaryString = Some buffer) :
  readHeader buffer =
  Some (mkWavInfo 1 1 24000 48000 2 16
                  (Z.of_nat (String.length binaryString))).
Proof.
  assert (Eb : buffer = headerFor (String.length binaryString)
                         ++ bytesOf binaryString)
    by (rewrite createWav_layout in Hbuf; congruence).
  subst buffer. clear Hbuf.
  set (n := String.length binaryString) in *.
  set (data := bytesOf binaryString).
  change (2 ^ 32)%Z with 4294967296%Z in Hfit.
  assert (E4 : leValue (leBytes 4 (36 + Z.of_nat n)) = (36 + Z.of_nat n)%Z).
  { rewrite leValue_leBytes. apply Z.mod_small.
    change (256 ^ Z.of_nat 4)%Z with 4294967296%Z. lia. }
  assert (E40 : leValue (leBytes 4 (Z.of_nat n)) = Z.of_nat n).
  { rewrite leValue_leBytes. apply Z.mod_small.
    change (256 ^ Z.of_nat 4)%Z with 4294967296%Z. lia. }
  unfold headerFor.
  remember (leBytes 4 (36 + Z.of_nat n)) as riff eqn:Er.
  remember (leBytes 4 (Z.of_nat n)) as size eqn:Es.
  cbn [leBytes] in Er, Es.
  destruct riff as [|r0 [|r1 [|r2 [|r3 [|]]]]]; try discriminate Er.
  destruct size as [|s0 [|s1 [|s2 [|s3 [|]]]]]; try discriminate Es.
  clear Er Es.
  unfold readHeader.
  replace (tagAt _ 0 "RIFF" && tagAt _ 8 "WAVE" && tagAt _ 12 "fmt "
           && tagAt _ 36 "data") with true by reflexivity.
  unfold andThen, getUint.
  cbn [app bytesOf leBytes List.length Nat.add Nat.leb skipn firstn].
  rewrite E4, E40.
  replace (leValue _ =? 16)%Z with true by reflexivity.
  rewrite Z.eqb_refl. reflexivity.
Qed.

Lemma wav_header_round_trip_witness :
  (Z.of_nat (String.length "abcd") < 2 ^ 32 - 36)%Z /\
  exists buffer,
    createWavUrlFromPcm "abcd" = Some buffer /\
    readHeader buffer = Some (mkWavInfo 1 1 24000 48000 2 16 4).
Proof.
  assert (Hfit : (Z.of_nat (String.length "abcd") < 2 ^ 32 - 36)%Z)
    by reflexivity.
  split; [exact Hfit|].
  eexists. split; [reflexivity|].
  exact (wav_header_round_trip "abcd" _ Hfit eq_refl).
Defined.

Lemma upd_length (l : View) : forall n v, List.length (upd l n v) = List.length l.
Proof.
  induction l as [|h t IH]; intros [|n] v; cbn; try reflexivity.
  now rewrite IH.
Qed.

Lemma upd_app (pre post : View) (x v : Z) :
  upd (pre ++ x :: post) (List.length pre) v = pre ++ v :: post.
Proof. induction pre as [|h t IH]; cbn; [reflexivity | now rewrite IH]. Qed.

(** Writing over a stretch of the buffer as long as the string. *)
Lemma writeString_over (s : string) :
  forall pre mid post : View,
    List.length mid = String.length s ->
    writeString (pre ++ mid ++ post) (List.length pre) s
    = Some (pre ++ bytesOf s ++ post).
Proof.
  induction s as [|c s IH]; intros pre mid post Hlen;
    destruct mid as [|x mid]; cbn in Hlen; try discriminate.
  - reflexivity.
  - cbn [writeString bytesOf app]. unfold setUint8.
    assert (Hb : (List.length pre <? List.length (pre ++ x :: mid ++ post))%nat
                 = true)
      by (apply Nat.ltb_lt; rewrite length_app; cbn; lia).
    rewrite Hb, upd_app.
    replace (pre ++ (charCode c mod 256)%Z :: mid ++ post)
      with ((pre ++ [(charCode c mod 256)%Z]) ++ mid ++ post)
      by (now rewrite <- app_assoc).
    replace (S (List.length pre))
      with (List.length (pre ++ [(charCode c mod 256)%Z]))
      by (rewrite length_app; cbn; lia).
    rewrite IH by lia. now rewrite <- app_assoc.
Qed.

(** X3: [writeString] writes the character codes of the string at the
    offset and changes no other byte when the string fits in the buffer;
    a non-empty string that does not fit raises the range error. *)
Theorem writeString_in_place (s : string) (view : View) (offset : nat) :
  ((offset + String.length s <= List.length view)%nat ->
   writeString view offset s =
   Some (firstn offset view ++ bytesOf s
                ++ skipn (offset + String.length s) view)) /\
  (s <> EmptyString ->
   (List.length view < offset + String.length s)%nat ->
   writeString view offset s = None).
Proof.
  split.
  - intros Hfit.
    set (pre := firstn offset view).
    set (mid := firstn (String.length s) (skipn offset view)).
    set (post := skipn (offset + String.length s) view).
    assert (Hpre : List.length pre = offset)
      by (apply firstn_length_le; lia).
    assert (Hmid : List.length mid = String.length s)
      by (apply firstn_length_le; rewrite length_skipn; lia).
    assert (Hview : view = pre ++ mid ++ post).
    { unfold pre, mid, post.
      rewrite <- (firstn_skipn offset view) at 1. f_equal.
      rewrite <- (firstn_skipn (String.length s) (skipn offset view)) at 1.
      f_equal. rewrite skipn_skipn. f_equal. lia. }
    rewrite Hview at 1. rewrite <- Hpre at 1.
    apply writeString_over. exact Hmid.
  - revert view offset.
    induction s as [|c s IH]; intros view offset Hne Hover; [congruence|].
    cbn [writeString]. unfold setUint8.
    destruct (offset <? List.length view)%nat eqn:Hb; [|reflexivity].
    apply Nat.ltb_lt in Hb. cbn [String.length] in Hover.
    destruct s as [|c' s']; [cbn in Hover; lia|].
    apply IH; [discriminate | rewrite upd_length; lia].
Qed.

Lemma writeString_in_place_witness :
  (2 + String.length "ab" <= List.length [1; 2; 3; 4; 5]%Z)%nat /\
  writeString [1; 2; 3; 4; 5]%Z 2 "ab" = Some [1; 2; 97; 98; 5]%Z /\
  "ab"%string <> EmptyString /\
  (List.length [1; 2; 3; 4; 5]%Z < 4 + String.length "ab")%nat /\
  writeString [1; 2; 3; 4; 5]%Z 4 "ab" = None.
Proof.
  assert (H1 : (2 + String.length "ab" <= List.length [1; 2; 3; 4; 5]%Z)%nat)
    by (cbn; lia).
  assert (H2 : "ab"%string <> EmptyString) by discriminate.
  assert (H3 : (List.length [1; 2; 3; 4; 5]%Z < 4 + String.length "ab")%nat)
    by (cbn; lia).
  split; [exact H1|]. split.
  - exact (proj1 (writeString_in_place "ab" [1; 2; 3; 4; 5]%Z 2) H1).
  - split; [exact H2|]. split; [exact H3|].
    exact (proj2 (writeString_in_place "ab" [1; 2; 3; 4; 5]%Z 4) H2 H3).
Defined.

End Wav.

(** ** JavaScript string operations used by the application *)

Module JSString.

(** [s.includes(needle)] *)
Fixpoint includes (needle s : string) : bool :=
  if String.prefix needle s then true
  else match s with
       | EmptyString => false
       | String _ s' => includes needle s'
       end.

(** [s.split(c)] for a one-character separator. *)
Fixpoint split (c : ascii) (s : string) : list string :=
  match s with
  | EmptyString => [EmptyString]
  | String a s' =>
      if Ascii.eqb a c then EmptyString :: split c s'
      else match split c s' with
           | [] => [String a EmptyString]
           | w :: ws => String a w :: ws
           end
  end.

(** [s.indexOf(c)]: the first position of the character, or -1. *)
Fixpoint indexOf (c : ascii) (s : string) : Z :=
  match s with
  | EmptyString => (-1)%Z
  | String a s' =>
      if Ascii.eqb a c then 0%Z
      else let i := indexOf c s' in
           if (i <? 0)%Z then (-1)%Z else (i + 1)%Z
  end.

(** [s.substring(start, end)]: both indices are clamped to the string and
    swapped when out of order. *)
Definition substring (s : string) (startIndex endIndex : Z) : string :=
  let len := Z.of_nat (String.length s) in
  let clamp := fun i => Z.max 0 (Z.min i len) in
  let a := clamp startIndex in
  let b := clamp endIndex in
  let lo := Z.min a b in
  let hi := Z.max a b in
  String.substring (Z.to_nat lo) (Z.to_nat (hi - lo)) s.

Lemma prefix_app (p s : string) : String.prefix p (p ++ s) = true.
Proof.
  induction p as [|c p IH]; cbn.
  - destruct s; reflexivity.
  - destruct (ascii_dec c c) as [_|N]; [exact IH | congruence].
Qed.

Lemma includes_app_r (needle pre post : string) :
  includes needle (pre ++ needle ++ post) = true.
Proof.
  induction pre as [|c pre IH]; cbn [String.append].
  - destruct (needle ++ post)%string eqn:E; cbn [includes];
      rewrite <- E, prefix_app; reflexivity.
  - cbn [includes]. rewrite IH. now destruct (String.prefix _ _).
Qed.

Lemma includes_self (s : string) : includes s s = true.
Proof.
  rewrite <- (includes_app_r s EmptyString EmptyString).
  cbn [String.append]. f_equal.
  induction s as [|c s IH]; cbn; [reflexivity | now rewrite <- IH].
Qed.

End JSString.

(** ** Retrying a generation call ([App.tsx]) *)

Module Retry.

(** A thrown [Error]; only its message is looked at. *)
Record JsError : Type := mkJsError { message : string }.

(** [error?.message || JSON.stringify(error)]: an [Error] without a
    message serializes to an empty object. *)
Definition errorStr (e : JsError) : string :=
  match message e with
  | EmptyString => "{}"%string
  | m => m
  end.

Definition isRateLimit (e : JsError) : bool :=
  JSString.includes "429" (errorStr e)
  || JSString.includes "RESOURCE_EXHAUSTED" (errorStr e)
  || JSString.includes "quota" (errorStr e).

(** What a retried operation did: its result, the times waited between
    attempts (milliseconds), and how often the operation was called. *)
Record Attempts (A : Type) : Type := mkAttempts {
  result : JsError + A;
  waits : list Q;
  calls : nat
}.
Arguments mkAttempts {A} _ _ _.
Arguments result {A} _.
Arguments waits {A} _.
Arguments calls {A} _.

Section Operation.

Context {A : Type}.

(** The operation: what its [k]-th call (counted from 0) gives. *)
Variable operation : nat -> JsError + A.

(** [retryOperation(operation, retries, delay)] when [call] calls have
    been made before. *)
Fixpoint retryFrom (call : nat) (retries : nat) (delay : Q) : Attempts A :=
  match operation call with
  | inr a => mkAttempts (inr a) [] 1
  | inl e =>
      match retries with
      | O => mkAttempts (inl e) [] 1
      | S retries' =>
          let waitTime := if isRateLimit e then Qmax delay 20000 else delay in
          let r := retryFrom (S call) retries'
                             (if isRateLimit e then waitTime * 1.5
                              else waitTime * 2) in
          mkAttempts (result r) (waitTime :: waits r) (S (calls r))
      end
  end.

Definition retryOperation (retries : nat) (delay : Q) : Attempts A :=
  retryFrom 0 retries delay.

(** The [k]-th call fails. *)
Definition fails (k : nat) : Prop := exists e, operation k = inl e.

Lemma retryFrom_counts (retries : nat) :
  forall call delay,
    (1 <= calls (retryFrom call retries delay) <= S retries)%nat /\
    S (List.length (waits (retryFrom call retries delay)))
    = calls (retryFrom call retries delay).
Proof.
  induction retries as [|r IH]; intros call delay; cbn [retryFrom].
  - destruct (operation call); cbn; lia.
  - destruct (operation call) as [e|a]; cbn; [|lia].
    destruct (IH (S call) (if isRateLimit e
                           then (if isRateLimit e then Qmax delay 20000
                                 else delay) * 1.5
                           else (if isRateLimit e then Qmax delay 20000
                                 else delay) * 2)) as [H1 H2].
    lia.
Qed.

Lemma retryFrom_first_success (retries : nat) :
  forall call delay j a,
    (j <= retries)%nat ->
    (forall i, (i < j)%nat -> fails (call + i)) ->
    operation (call + j) = inr a ->
    result (retryFrom call retries delay) = inr a /\
    calls (retryFrom call retries delay) = S j.
Proof.
  induction retries as [|r IH]; intros call delay j a Hj Hfail Hok.
  - assert (j = 0)%nat by lia. subst j. rewrite Nat.add_0_r in Hok.
    cbn [retryFrom]. rewrite Hok. split; reflexivity.
  - destruct j as [|j].
    + rewrite Nat.add_0_r in Hok. cbn [retryFrom]. rewrite Hok.
      split; reflexivity.
    + destruct (Hfail 0%nat) as [e He]; [lia|]. rewrite Nat.add_0_r in He.
      cbn [retryFrom]. rewrite He. cbn [result calls].
      destruct (IH (S call)
                   (if isRateLimit e
                    then (if isRateLimit e then Qmax delay 20000 else delay)
                         * 1.5
                    else (if isRateLimit e then Qmax delay 20000 else delay)
                         * 2) j a) as [H1 H2].
      * lia.
      * intros i Hi. replace (S call + i)%nat with (call + S i)%nat by lia.
        apply Hfail. lia.
      * replace (S call + j)%nat with (call + S j)%nat by lia. exact Hok.
      * split; [exact H1 | now rewrite H2].
Qed.

Lemma retryFrom_all_fail (retries : nat) :
  forall call delay e,
    (forall i, (i <= retries)%nat -> fails (call + i)) ->
    operation (call + retries) = inl e ->
    result (retryFrom call retries delay) = inl e /\
    calls (retryFrom call retries delay) = S retries.
Proof.
  induction retries as [|r IH]; intros call delay e Hfail Hlast.
  - rewrite Nat.add_0_r in Hlast. cbn [retryFrom]. rewrite Hlast.
    split; reflexivity.
  - destruct (Hfail 0%nat) as [e0 He0]; [lia|]. rewrite Nat.add_0_r in He0.
    cbn [retryFrom]. rewrite He0. cbn [result calls].
    destruct (IH (S call)
                 (if isRateLimit e0
                  then (if isRateLimit e0 then Qmax delay 20000 else delay)
                       * 1.5
                  else (if isRateLimit e0 then Qmax delay 20000 else delay)
                       * 2) e) as [H1 H2].
    + intros i Hi. replace (S call + i)%nat with (call + S i)%nat by lia.
      apply Hfail. lia.
    + replace (S call + r)%nat with (call + S r)%nat by lia. exact Hlast.
    + split; [exact H1 | now rewrite H2].
Qed.

End Operation.

(** X4: a retried operation is called at most [retries + 1] times, with
    one wait between two calls; its result is the value of the first call
    that succeeds, when one of the first [retries + 1] does, and otherwise
    the error of the last of these calls. *)
Theorem retry_attempts_and_result {A : Type} (operation : nat -> JsError + A)
        (retries : nat) (delay : Q) :
  let r := retryOperation operation retries delay in
  (1 <= calls r <= retries + 1)%nat /\
  S (List.length (waits r)) = calls r /\
  (forall j a,
      (j <= retries)%nat ->
      (forall i, (i < j)%nat -> fails operation i) ->
      operation j = inr a ->
      result r = inr a /\ calls r = S j) /\
  (forall e,
      (forall i, (i <= retries)%nat -> fails operation i) ->
      operation retries = inl e ->
      result r = inl e /\ calls r = S retries).
Proof.
  cbv zeta. unfold retryOperation.
  destruct (retryFrom_counts operation retries 0 delay) as [H1 H2].
  split; [lia|]. split; [exact H2|]. split.
  - intros j a Hj Hf Hok.
    exact (retryFrom_first_success operation retries 0 delay j a Hj Hf Hok).
  - intros e Hf Hl.
    exact (retryFrom_all_fail operation retries 0 delay e Hf Hl).
Qed.

(** An operation that fails twice, once rate-limited, and then succeeds. *)
Definition flaky (k : nat) : JsError + nat :=
  match k with
  | 0%nat => inl (mkJsError "fetch failed")
  | 1%nat => inl (mkJsError "429 Too Many Requests")
  | _ => inr 7%nat
  end.

Lemma retry_attempts_and_result_witness :
  (2 <= 5)%nat /\
  (forall i, (i < 2)%nat -> fails flaky i) /\
  flaky 2 = inr 7%nat /\
  result (retryOperation flaky 5 4000) = inr 7%nat /\
  calls (retryOperation flaky 5 4000) = 3%nat.
Proof.
  assert (H1 : (2 <= 5)%nat) by lia.
  assert (H2 : forall i, (i < 2)%nat -> fails flaky i).
  { intros i Hi. destruct i as [|[|i]]; [eexists; reflexivity ..| lia]. }
  split; [exact H1|]. split; [exact H2|]. split; [reflexivity|].
  destruct (retry_attempts_and_result flaky 5 4000) as (_ & _ & Hfirst & _).
  exact (Hfirst 2%nat 7%nat H1 H2 eq_refl).
Defined.

(** Each element is at most the next. *)
Fixpoint nondecreasing (l : list Q) : Prop :=
  match l with
  | [] => True
  | x :: l' =>
      match l' with [] => True | y :: _ => x <= y end /\ nondecreasing l'
  end.

Lemma Forall2_Qeq_map (f g : nat -> Q) (l : list nat) :
  (forall i, f i == g i) ->
  forall ws, Forall2 Qeq ws (map f l) -> Forall2 Qeq ws (map g l).
Proof.
  intros Hfg. induction l as [|i l IH]; intros ws H;
    inversion H as [|x y xs ys Hxy Hrest]; subst; constructor.
  - rewrite Hxy. apply Hfg.
  - apply IH. exact Hrest.
Qed.

Section Backoff.

Context {A : Type}.
Variable operation : nat -> JsError + A.

Lemma retryFrom_backoff (retries : nat) :
  forall call delay,
    0 <= delay ->
    Forall (fun w => delay <= w) (waits (retryFrom operation call retries delay)) /\
    nondecreasing (waits (retryFrom operation call retries delay)) /\
    (forall i e w,
        nth_error (waits (retryFrom operation call retries delay)) i = Some w ->
        operation (call + i) = inl e -> isRateLimit e = true ->
        20000 <= w).
Proof.
  induction retries as [|r IH]; intros call delay Hd; cbn [retryFrom].
  - destruct (operation call); cbn; repeat split; try constructor;
      intros [|i] e' w H; discriminate H.
  - destruct (operation call) as [e|a] eqn:Eop; cbn [waits].
    2:{ repeat split; try constructor. intros [|i] e' w H; discriminate H. }
    set (w0 := if isRateLimit e then Qmax delay 20000 else delay).
    assert (Hw0 : delay <= w0).
    { unfold w0. destruct (isRateLimit e); [apply Q.le_max_l | lra]. }
    set (d1 := if isRateLimit e then w0 * 1.5 else w0 * 2).
    assert (Hd1 : w0 <= d1).
    { unfold d1. destruct (isRateLimit e); lra. }
    destruct (IH (S call) d1) as (Hall & Hsorted & Hrate); [lra|].
    split; [|split].
    + constructor; [exact Hw0|].
      eapply Forall_impl; [|exact Hall]. cbn. intros x Hx. lra.
    + cbn [nondecreasing]. split; [|exact Hsorted].
      destruct (waits (retryFrom operation (S call) r d1)) as [|y l];
        [exact I|].
      inversion Hall; subst. lra.
    + intros [|i] e' w Hn Hop Hrl.
      * cbn in Hn. inversion Hn; subst w. rewrite Nat.add_0_r in Hop.
        assert (e' = e) by congruence. subst e'.
        unfold w0. rewrite Hrl. apply Q.le_max_r.
      * cbn in Hn. apply (Hrate i e' w Hn); [|exact Hrl].
        replace (S call + i)%nat with (call + S i)%nat by lia. exact Hop.
Qed.

(** Without rate-limit errors every wait is twice the one before. *)
Lemma retryFrom_doubling (retries : nat) :
  forall call delay,
    (forall k e, operation k = inl e -> isRateLimit e = false) ->
    Forall2 Qeq
      (waits (retryFrom operation call retries delay))
      (map (fun i => delay * inject_Z (2 ^ Z.of_nat i))
           (seq 0 (List.length (waits (retryFrom operation call retries delay))))).
Proof.
  induction retries as [|r IH]; intros call delay Hnr; cbn [retryFrom].
  - destruct (operation call); constructor.
  - destruct (operation call) as [e|a] eqn:Eop; cbn [waits]; [|constructor].
    rewrite (Hnr call e Eop). cbn [List.length seq map].
    constructor.
    + change (inject_Z (2 ^ Z.of_nat 0)) with 1. ring.
    + specialize (IH (S call) (delay * 2) Hnr).
      rewrite <- seq_shift, map_map.
      eapply Forall2_Qeq_map; [|exact IH].
      intros i. cbv beta.
      rewrite Nat2Z.inj_succ, Z.pow_succ_r by lia.
      rewrite inject_Z_mult. change (inject_Z 2) with 2. ring.
Qed.

End Backoff.

(** X5: the waits of a retried operation back off: started with a
    non-negative delay, no wait is shorter than the delay or than the wait
    before it, and the wait after a rate-limit error (a message containing
    429, RESOURCE_EXHAUSTED or quota) is at least 20 seconds. *)
Theorem retry_backoff {A : Type} (operation : nat -> JsError + A)
        (retries : nat) (delay : Q) (Hdelay : 0 <= delay) :
  let r := retryOperation operation retries delay in
  Forall (fun w => delay <= w) (waits r) /\
  nondecreasing (waits r) /\
  (forall i e w,
      nth_error (waits r) i = Some w ->
      operation i = inl e -> isRateLimit e = true ->
      20000 <= w).
Proof.
  cbv zeta. unfold retryOperation.
  destruct (retryFrom_backoff operation retries 0 delay Hdelay)
    as (H1 & H2 & H3).
  repeat split; assumption.
Qed.

Lemma retry_backoff_witness :
  0 <= 4000 /\
  nondecreasing (waits (retryOperation flaky 5 4000)) /\
  Forall2 Qeq (waits (retryOperation flaky 5 4000)) [4000; 20000].
Proof.
  assert (H : 0 <= 4000) by discriminate.
  split; [exact H|].
  destruct (retry_backoff flaky 5 4000 H) as (_ & Hs & _).
  split; [exact Hs|]. repeat constructor.
Defined.

(** X6: an operation that never meets a rate limit waits the delay, then
    twice that, then four times, and so on: the wait before attempt
    [i + 1] is [delay * 2 ^ i]; with the defaults (5 retries, 4000 ms) an
    operation that always fails is called 6 times after waits of 4, 8,
    16, 32 and 64 seconds. *)
Theorem retry_doubles_without_rate_limit
        {A : Type} (operation : nat -> JsError + A)
        (retries : nat) (delay : Q)
        (Hplain : forall k e, operation k = inl e -> isRateLimit e = false) :
  let r := retryOperation operation retries delay in
  Forall2 Qeq (waits r)
          (map (fun i => delay * inject_Z (2 ^ Z.of_nat i))
               (seq 0 (calls r - 1))).
Proof.
  cbv zeta. unfold retryOperation.
  destruct (retryFrom_counts operation retries 0 delay) as [_ Hc].
  rewrite <- Hc. cbn [Nat.sub]. rewrite Nat.sub_0_r.
  apply retryFrom_doubling. exact Hplain.
Qed.

(** An operation that always fails for an ordinary reason. *)
Definition hopeless (k : nat) : JsError + nat := inl (mkJsError "offline").

Lemma retry_doubles_without_rate_limit_witness :
  (forall k e, hopeless k = inl e -> isRateLimit e = false) /\
  calls (retryOperation hopeless 5 4000) = 6%nat /\
  Forall2 Qeq (waits (retryOperation hopeless 5 4000))
          (map (fun i => 4000 * inject_Z (2 ^ Z.of_nat i))
               (seq 0 (calls (retryOperation hopeless 5 4000) - 1))) /\
  Forall2 Qeq
          (map (fun i => 4000 * inject_Z (2 ^ Z.of_nat i))
               (seq 0 (calls (retryOperation hopeless 5 4000) - 1)))
          [4000; 8000; 16000; 32000; 64000].
Proof.
  assert (H : forall k e, hopeless k = inl e -> isRateLimit e = false).
  { intros k e E. inversion E; subst e. reflexivity. }
  split; [exact H|]. split; [reflexivity|]. split.
  - exact (retry_doubles_without_rate_limit hopeless 5 4000 H).
  - vm_compute. repeat constructor.
Defined.

End Retry.

(** ** Image generation and the data URL ([services/gemini.ts]) *)

Module Gemini.

Record InlineData : Type := mkInlineData {
  mimeType : option string;
  data : option string
}.

Record Part : Type := mkPart {
  inlineData : option InlineData;
  text : option string
}.

(** [response.candidates?.[0]] with its [finishReason] and
    [content?.parts]. *)
Record Candidate : Type := mkCandidate {
  finishReason : option string;
  parts : option (list Part)
}.

Definition newline : string := String (ascii_of_nat 10) EmptyString.

(** [a || b] on optional strings. *)
Definition orStr (a : option string) (b : string) : string :=
  match a with
  | Some (String c s) => String c s
  | _ => b
  end.

(** The data URL returned for a part with inline data. *)
Definition dataUrl (d : InlineData) : string :=
  ("data:" ++ orStr (mimeType d) "image/png" ++ ";base64,"
           ++ orStr (data d) EmptyString)%string.

(** The [for (const part of parts)] loop: the URL it returns from, or the
    refusal text collected when it runs to the end. *)
Fixpoint scanParts (ps : list Part) (textRefusal : string) : string + string :=
  match ps with
  | [] => inr textRefusal
  | part :: rest =>
      match inlineData part with
      | Some d =>
          if JS.truthy (data d) then inl (dataUrl d)
          else scanParts rest
                 (if JS.truthy (text part)
                  then (textRefusal ++ orStr (text part) EmptyString)%string
                  else textRefusal)
      | None =>
          scanParts rest
            (if JS.truthy (text part)
             then (textRefusal ++ orStr (text part) EmptyString)%string
             else textRefusal)
      end
  end.

(** The body of the [try] block once the model has answered: an error
    message thrown, or the URL. *)
Definition readImage (candidate : option Candidate) : string + string :=
  let reason := match candidate with
                | Some c => finishReason c
                | None => None
                end in
  if match reason with
     | Some r => String.eqb r "SAFETY"
     | None => false
     end
  then inl "Image generation blocked by safety filters."%string
  else
    match match candidate with Some c => parts c | None => None end with
    | None | Some [] =>
        inl ("No image content returned. Reason: "
               ++ orStr reason "Unknown")%string
    | Some ps =>
        match scanParts ps EmptyString with
        | inl url => inr url
        | inr EmptyString =>
            inl "Image generation successful but no inline data found."%string
        | inr textRefusal =>
            inl ("Model returned text instead of image: "
                   ++ String (ascii_of_nat 34)
                        (JSString.substring textRefusal 0 100 ++ "..."
                           ++ String (ascii_of_nat 34) EmptyString))%string
        end
    end.

(** [generateImageForScene]: [apiKey] is [process.env.API_KEY], [model]
    the call to the image model, given the final prompt and the aspect
    ratio, which answers with the first candidate or throws an error with
    a message.  The result is the message of the error thrown, or the data
    URL. *)
Definition generateImageForScene
           (apiKey : option string)
           (model : string -> string -> string + option Candidate)
           (prompt aspectRatio : string) (characterDesc : option string)
  : string + string :=
  if JS.truthy apiKey then
    let finalPrompt :=
      if JS.truthy characterDesc
      then ("Character/Style Reference: " ++ orStr characterDesc EmptyString
              ++ ". " ++ newline ++ "Scene Action: " ++ prompt)%string
      else prompt in
    match match model finalPrompt aspectRatio with
          | inl message => inl message
          | inr candidate => readImage candidate
          end with
    | inl message => inl ("Image Gen Error: " ++ message)%string
    | inr url => inr url
    end
  else inl "API Key not found"%string.

(** The two expressions with which [generateVideoFromImage] takes a data
    URL apart. *)
Definition base64Data (imageBase64 : string) : option string :=
  nth_error (JSString.split "," imageBase64) 1.

Definition mimeTypeOf (imageBase64 : string) : string :=
  JSString.substring imageBase64
                     (JSString.indexOf ":" imageBase64 + 1)
                     (JSString.indexOf ";" imageBase64).

(** No part before a position carries image data. *)
Definition noImage (part : Part) : Prop :=
  match inlineData part with
  | Some d => JS.truthy (data d) = false
  | None => True
  end.

Lemma scanParts_first (pre : list Part) :
  forall part rest d acc,
    Forall noImage pre ->
    inlineData part = Some d -> JS.truthy (data d) = true ->
    scanParts (pre ++ part :: rest) acc = inl (dataUrl d).
Proof.
  induction pre as [|p pre IH]; intros part rest d acc Hpre Hd Ht; cbn.
  - now rewrite Hd, Ht.
  - inversion Hpre as [|x l Hp Hrest]; subst. unfold noImage in Hp.
    destruct (inlineData p) as [d0|]; [rewrite Hp|]; now apply IH.
Qed.

Lemma scanParts_found (ps : list Part) :
  forall acc url,
    scanParts ps acc = inl url ->
    exists pre part rest d,
      ps = pre ++ part :: rest /\ Forall noImage pre /\
      inlineData part = Some d /\ JS.truthy (data d) = true /\
      url = dataUrl d.
Proof.
  induction ps as [|p ps IH]; intros acc url H; cbn in H; [discriminate|].
  destruct (inlineData p) as [d|] eqn:Ed.
  - destruct (JS.truthy (data d)) eqn:Et.
    + inversion H; subst url. exists [], p, ps, d. repeat split; auto.
    + destruct (IH _ _ H) as (pre & part & rest & d' & -> & Hpre & H1 & H2 & H3).
      exists (p :: pre), part, rest, d'. repeat split; auto.
      constructor; [unfold noImage; now rewrite Ed | exact Hpre].
  - destruct (IH _ _ H) as (pre & part & rest & d' & -> & Hpre & H1 & H2 & H3).
    exists (p :: pre), part, rest, d'. repeat split; auto.
    constructor; [unfold noImage; now rewrite Ed | exact Hpre].
Qed.

(** X7: [generateImageForScene] returns a URL only when the key is set,
    the model answered, the answer was not stopped for safety, and some
    part carries image data; the URL is then built from the first such
    part, whatever text the parts before it hold.  Every failure carries
    either the missing-key message or a message starting with
    "Image Gen Error: ". *)
Theorem image_result_characterized
        (apiKey : option string)
        (model : string -> string -> string + option Candidate)
        (prompt aspectRatio : string) (characterDesc : option string) :
  let r := generateImageForScene apiKey model prompt aspectRatio
                                 characterDesc in
  (forall url,
      r = inr url ->
      JS.truthy apiKey = true /\
      exists finalPrompt cand pre part rest d,
        model finalPrompt aspectRatio = inr (Some cand) /\
        finishReason cand <> Some "SAFETY"%string /\
        parts cand = Some (pre ++ part :: rest) /\
        Forall noImage pre /\
        inlineData part = Some d /\ JS.truthy (data d) = true /\
        url = dataUrl d) /\
  (forall msg,
      r = inl msg ->
      (JS.truthy apiKey = false /\ msg = "API Key not found"%string) \/
      (JS.truthy apiKey = true /\
       String.prefix "Image Gen Error: " msg = true)).
Proof.
  cbv zeta. unfold generateImageForScene.
  destruct (JS.truthy apiKey); [|split; [discriminate|]].
  2:{ intros msg H. inversion H. left. split; reflexivity. }
  set (finalPrompt := if JS.truthy characterDesc then _ else prompt).
  split.
  - intros url H. split; [reflexivity|].
    destruct (model finalPrompt aspectRatio) as [m|cand] eqn:Em;
      [discriminate|].
    unfold readImage in H.
    destruct cand as [cand|]; [|discriminate].
    destruct (finishReason cand) as [r|] eqn:Er.
    + destruct (String.eqb r "SAFETY") eqn:Es; [discriminate|].
      destruct (parts cand) as [[|p ps]|] eqn:Ep; try discriminate.
      destruct (scanParts (p :: ps) EmptyString) as [u|[|c t]] eqn:Esc;
        try discriminate.
      inversion H; subst u.
      destruct (scanParts_found _ _ _ Esc)
        as (pre & part & rest & d & E & Hpre & Hd & Ht & ->).
      exists finalPrompt, cand, pre, part, rest, d.
      rewrite Er, Ep, E. repeat split; auto.
      intros C. inversion C; subst r. discriminate Es.
    + destruct (parts cand) as [[|p ps]|] eqn:Ep; try discriminate.
      destruct (scanParts (p :: ps) EmptyString) as [u|[|c t]] eqn:Esc;
        try discriminate.
      inversion H; subst u.
      destruct (scanParts_found _ _ _ Esc)
        as (pre & part & rest & d & E & Hpre & Hd & Ht & ->).
      exists finalPrompt, cand, pre, part, rest, d.
      rewrite Er, Ep, E. repeat split; auto. discriminate.
  - intros msg H. right. split; [reflexivity|].
    destruct (match model finalPrompt aspectRatio with
              | inl message => inl message
              | inr candidate => readImage candidate
              end) as [m|u]; [|discriminate].
    inversion H. apply (JSString.prefix_app "Image Gen Error: " m).
Qed.

(** A model that answers with a remark and then the image. *)
Definition chatty (finalPrompt aspectRatio : string)
  : string + option Candidate :=
  inr (Some (mkCandidate (Some "STOP"%string)
               (Some [mkPart None (Some "Here you go"%string);
                      mkPart (Some (mkInlineData None (Some "QUJD"%string)))
                             None]))).

Lemma image_result_characterized_witness :
  generateImageForScene (Some "k"%string) chatty "a cat" "1:1" None
  = inr "data:image/png;base64,QUJD"%string /\
  JS.truthy (Some "k"%string) = true.
Proof.
  assert (E : generateImageForScene (Some "k"%string) chatty "a cat" "1:1" None
              = inr "data:image/png;base64,QUJD"%string) by reflexivity.
  split; [exact E|].
  destruct (image_result_characterized (Some "k"%string) chatty
              "a cat" "1:1" None) as [Hok _].
  exact (proj1 (Hok _ E)).
Defined.

(** *** Taking the data URL apart again *)

(** The string does not contain the character. *)
Fixpoint lacks (c : ascii) (s : string) : Prop :=
  match s with
  | EmptyString => True
  | String a s' => a <> c /\ lacks c s'
  end.

Lemma lacks_app (c : ascii) (a b : string) :
  lacks c a -> lacks c b -> lacks c (a ++ b).
Proof.
  induction a as [|x a IH]; cbn; [auto|]. intros [H1 H2] Hb. auto.
Qed.

Lemma split_lacks (c : ascii) (s : string) :
  lacks c s -> JSString.split c s = [s].
Proof.
  induction s as [|a s IH]; cbn; [reflexivity|]. intros [Ha Hs].
  apply Ascii.eqb_neq in Ha. rewrite Ha, (IH Hs). reflexivity.
Qed.

Lemma split_app_sep (c : ascii) (a b : string) :
  lacks c a ->
  JSString.split c (a ++ String c b) = a :: JSString.split c b.
Proof.
  induction a as [|x a IH]; cbn.
  - intros _. now rewrite Ascii.eqb_refl.
  - intros [Hx Ha]. apply Ascii.eqb_neq in Hx. rewrite Hx, (IH Ha).
    reflexivity.
Qed.

Lemma indexOf_app_sep (c : ascii) (a b : string) :
  lacks c a ->
  JSString.indexOf c (a ++ String c b) = Z.of_nat (String.length a).
Proof.
  induction a as [|x a IH]; cbn [String.append JSString.indexOf String.length].
  - intros _. now rewrite Ascii.eqb_refl.
  - intros [Hx Ha]. apply Ascii.eqb_neq in Hx. rewrite Hx, (IH Ha).
    destruct (Z.of_nat (String.length a) <? 0)%Z eqn:E.
    + apply Z.ltb_lt in E. lia.
    + lia.
Qed.

Lemma substring_mid (a m b : string) :
  String.substring (String.length a) (String.length m) (a ++ m ++ b) = m.
Proof.
  induction a as [|x a IH]; cbn [String.length String.append].
  - induction m as [|y m IHm]; cbn.
    + destruct b; reflexivity.
    + now rewrite IHm.
  - cbn. exact IH.
Qed.

Lemma append_assoc_str (a b c : string) :
  ((a ++ b) ++ c = a ++ (b ++ c))%string.
Proof. induction a as [|x a IH]; cbn; [reflexivity | now rewrite IH]. Qed.

Lemma length_app_str (a b : string) :
  String.length (a ++ b) = (String.length a + String.length b)%nat.
Proof. induction a as [|c a IH]; cbn; [reflexivity | now rewrite IH]. Qed.

(** X8: what [generateImageForScene] puts into a data URL,
    [generateVideoFromImage] gets out again: when the MIME type contains
    no colon, semicolon or comma and the base64 data no comma, the URL
    splits at its comma into the very data, and the text between its colon
    and its semicolon is the very MIME type. *)
Theorem data_url_round_trip (d : InlineData) :
  let mime := orStr (mimeType d) "image/png" in
  let payload := orStr (data d) EmptyString in
  lacks ":" mime -> lacks ";" mime -> lacks "," mime ->
  lacks "," payload ->
  base64Data (dataUrl d) = Some payload /\
  mimeTypeOf (dataUrl d) = mime.
Proof.
  cbv zeta. unfold dataUrl.
  generalize (orStr (mimeType d) "image/png") as mime.
  generalize (orStr (data d) EmptyString) as payload.
  intros payload mime Hcolon Hsemi Hcomma Hpay. split.
  - unfold base64Data.
    replace ("data:" ++ mime ++ ";base64," ++ payload)%string
      with (("data:" ++ mime ++ ";base64") ++ String "," payload)%string
      by (rewrite !append_assoc_str; reflexivity).
    rewrite split_app_sep, (split_lacks _ _ Hpay); [reflexivity|].
    apply (lacks_app "," "data:"); [cbn; repeat split; discriminate|].
    apply lacks_app; [exact Hcomma | cbn; repeat split; discriminate].
  - unfold mimeTypeOf.
    assert (Ei : JSString.indexOf ":" ("data:" ++ mime ++ ";base64," ++ payload)
                 = 4%Z) by reflexivity.
    assert (Ej : JSString.indexOf ";" ("data:" ++ mime ++ ";base64," ++ payload)
                 = Z.of_nat (5 + String.length mime)).
    { replace ("data:" ++ mime ++ ";base64," ++ payload)%string
        with (("data:" ++ mime) ++ String ";" ("base64," ++ payload))%string
        by (rewrite !append_assoc_str; reflexivity).
      rewrite indexOf_app_sep.
      - rewrite length_app_str. reflexivity.
      - apply (lacks_app ";" "data:");
          [cbn; repeat split; discriminate | exact Hsemi]. }
    rewrite Ei, Ej. unfold JSString.substring. cbv zeta.
    set (len := Z.of_nat (String.length
                            ("data:" ++ mime ++ ";base64," ++ payload))).
    assert (Hlen : (Z.of_nat (5 + String.length mime) <= len)%Z).
    { unfold len. apply inj_le.
      change ("data:" ++ mime ++ ";base64," ++ payload)%string
        with ("data:" ++ (mime ++ ";base64," ++ payload))%string.
      rewrite (length_app_str "data:"), (length_app_str mime).
      cbn [String.length]. lia. }
    replace (Z.max 0 (Z.min (4 + 1) len)) with 5%Z by lia.
    replace (Z.max 0 (Z.min (Z.of_nat (5 + String.length mime)) len))
      with (Z.of_nat (5 + String.length mime)) by lia.
    replace (Z.min 5 (Z.of_nat (5 + String.length mime))) with 5%Z by lia.
    replace (Z.max 5 (Z.of_nat (5 + String.length mime)))
      with (Z.of_nat (5 + String.length mime)) by lia.
    replace (Z.to_nat (Z.of_nat (5 + String.length mime) - 5))
      with (String.length mime) by lia.
    change (Z.to_nat 5) with (String.length "data:").
    apply (substring_mid "data:" mime (";base64," ++ payload)).
Qed.

Lemma data_url_round_trip_witness :
  lacks ":" "image/jpeg" /\ lacks "," "QUJD" /\
  base64Data (dataUrl (mkInlineData (Some "image/jpeg"%string)
                                    (Some "QUJD"%string)))
  = Some "QUJD"%string /\
  mimeTypeOf (dataUrl (mkInlineData (Some "image/jpeg"%string)
                                    (Some "QUJD"%string)))
  = "image/jpeg"%string.
Proof.
  assert (H1 : lacks ":" "image/jpeg") by (cbn; repeat split; discriminate).
  assert (H2 : lacks ";" "image/jpeg") by (cbn; repeat split; discriminate).
  assert (H3 : lacks "," "image/jpeg") by (cbn; repeat split; discriminate).
  assert (H4 : lacks "," "QUJD") by (cbn; repeat split; discriminate).
  split; [exact H1|]. split; [exact H4|].
  exact (data_url_round_trip
           (mkInlineData (Some "image/jpeg"%string) (Some "QUJD"%string))
           H1 H2 H3 H4).
Defined.

End Gemini.

(** ** Editing handlers of the application ([App.tsx]) *)

Module AppHandlers.

(** [handleAddStyle(style)] on the [characterDesc] state. *)
Definition handleAddStyle (style characterDesc : string) : string :=
  match characterDesc with
  | EmptyString => style
  | _ =>
      if negb (JSString.includes style characterDesc)
      then (characterDesc ++ ", " ++ style)%string
      else characterDesc
  end.

Lemma append_empty_r (s : string) : (s ++ EmptyString)%string = s.
Proof. induction s as [|c s IH]; cbn; [reflexivity | now rewrite IH]. Qed.

Lemma includes_empty (needle : string) :
  JSString.includes needle EmptyString = true -> needle = EmptyString.
Proof. destruct needle; [reflexivity | discriminate]. Qed.

Lemma handleAddStyle_includes (style characterDesc : string) :
  JSString.includes style (handleAddStyle style characterDesc) = true.
Proof.
  unfold handleAddStyle. destruct characterDesc as [|c d].
  - apply JSString.includes_self.
  - destruct (JSString.includes style (String c d)) eqn:E; cbn [negb].
    + exact E.
    + rewrite <- (append_empty_r style) at 2.
      rewrite <- Gemini.append_assoc_str.
      apply (JSString.includes_app_r style (String c d ++ ", ") EmptyString).
Qed.

(** X9: after a style preset is added the character description
    contains it, a description that was not empty is still the beginning
    of the new one, and adding the same preset again changes nothing. *)
Theorem handleAddStyle_idempotent (style characterDesc : string) :
  let added := handleAddStyle style characterDesc in
  JSString.includes style added = true /\
  (characterDesc <> EmptyString -> String.prefix characterDesc added = true) /\
  handleAddStyle style added = added.
Proof.
  cbv zeta. split; [apply handleAddStyle_includes|]. split.
  - intros Hne. unfold handleAddStyle.
    destruct characterDesc as [|c d]; [congruence|].
    destruct (negb _).
    + apply (JSString.prefix_app (String c d)).
    + rewrite <- (append_empty_r (String c d)) at 2.
      apply (JSString.prefix_app (String c d)).
  - pose proof (handleAddStyle_includes style characterDesc) as H.
    set (added := handleAddStyle style characterDesc) in *.
    unfold handleAddStyle at 1.
    destruct added as [|c d].
    + apply includes_empty. exact H.
    + now rewrite H.
Qed.

Lemma handleAddStyle_idempotent_witness :
  "Pixar 3D Style"%string <> EmptyString /\
  handleAddStyle "Low Poly" "Pixar 3D Style" = "Pixar 3D Style, Low Poly"%string /\
  handleAddStyle "Low Poly" (handleAddStyle "Low Poly" "Pixar 3D Style")
  = handleAddStyle "Low Poly" "Pixar 3D Style" /\
  String.prefix "Pixar 3D Style"
                (handleAddStyle "Low Poly" "Pixar 3D Style") = true.
Proof.
  assert (Hne : "Pixar 3D Style"%string <> EmptyString) by discriminate.
  destruct (handleAddStyle_idempotent "Low Poly" "Pixar 3D Style")
    as (_ & Hpre & Hidem).
  split; [exact Hne|]. split; [reflexivity|].
  split; [exact Hidem | exact (Hpre Hne)].
Defined.

(** The two text fields of a scene. *)
Inductive TextField : Type := narrationField | visualPromptField.

(** [{ ...s, [field]: value }] *)
Definition withText (field : TextField) (value : string) (s : GeneratedScene)
  : GeneratedScene :=
  match field with
  | narrationField =>
      mkScene (id s) value (visual_prompt s) (imageUrl s) (videoUrl s)
              (audioUrl s) (status s) (isRegeneratingAudio s)
              (isRegeneratingImage s) (isGeneratingVideo s)
  | visualPromptField =>
      mkScene (id s) (narration s) value (imageUrl s) (videoUrl s)
              (audioUrl s) (status s) (isRegeneratingAudio s)
              (isRegeneratingImage s) (isGeneratingVideo s)
  end.

(** [prev.map(s => s.id === id ? f(s) : s)] *)
Definition updateById (sceneId : string) (f : GeneratedScene -> GeneratedScene)
           (scenes : list GeneratedScene) : list GeneratedScene :=
  map (fun s => if String.eqb (id s) sceneId then f s else s) scenes.

Definition handleUpdateSceneText (sceneId : string) (field : TextField)
           (value : string) (scenes : list GeneratedScene)
  : list GeneratedScene :=
  updateById sceneId (withText field value) scenes.

(** The generated media and the life-cycle state of a scene. *)
Definition sameMedia (a b : GeneratedScene) : Prop :=
  id a = id b /\ imageUrl a = imageUrl b /\ videoUrl a = videoUrl b /\
  audioUrl a = audioUrl b /\ status a = status b /\
  isRegeneratingAudio a = isRegeneratingAudio b /\
  isRegeneratingImage a = isRegeneratingImage b /\
  isGeneratingVideo a = isGeneratingVideo b.

(** X10: editing a scene's text keeps the number and order of the scenes,
    leaves every scene with another id exactly as it was, and in the
    edited scene changes the one text field only: the image, the video,
    the narration audio recorded for the old text and the completed
    status all stay. *)
Theorem handleUpdateSceneText_frame
        (sceneId : string) (field : TextField) (value : string)
        (scenes : list GeneratedScene) :
  let updated := handleUpdateSceneText sceneId field value scenes in
  List.length updated = List.length scenes /\
  forall i s,
    nth_error scenes i = Some s ->
    exists s',
      nth_error updated i = Some s' /\
      sameMedia s' s /\ isReady s' = isReady s /\
      (id s <> sceneId -> s' = s) /\
      (id s = sceneId ->
       match field with
       | narrationField =>
           narration s' = value /\ visual_prompt s' = visual_prompt s
       | visualPromptField =>
           visual_prompt s' = value /\ narration s' = narration s
       end).
Proof.
  cbv zeta. unfold handleUpdateSceneText, updateById.
  split; [apply length_map|].
  intros i s Hi.
  exists (if String.eqb (id s) sceneId then withText field value s else s).
  split; [now rewrite nth_error_map, Hi|].
  destruct (String.eqb (id s) sceneId) eqn:E.
  - apply String.eqb_eq in E.
    destruct field; cbn; repeat split; try reflexivity; try congruence.
  - apply String.eqb_neq in E.
    repeat split; try reflexivity; try congruence.
Qed.

Lemma handleUpdateSceneText_frame_witness :
  nth_error Sample.threeScenes 1 = Some (Sample.scene (Some "b.png"%string) None) /\
  List.length (handleUpdateSceneText "s" narrationField "Once upon a time"
                                     Sample.threeScenes) = 3%nat /\
  exists s',
    nth_error (handleUpdateSceneText "s" narrationField "Once upon a time"
                                     Sample.threeScenes) 1 = Some s' /\
    sameMedia s' (Sample.scene (Some "b.png"%string) None).
Proof.
  assert (H : nth_error Sample.threeScenes 1
              = Some (Sample.scene (Some "b.png"%string) None)) by reflexivity.
  destruct (handleUpdateSceneText_frame "s" narrationField "Once upon a time"
              Sample.threeScenes) as [Hlen Hnth].
  split; [exact H|]. split; [exact Hlen|].
  destruct (Hnth 1%nat _ H) as (s' & E & Hm & _).
  exists s'. split; assumption.
Defined.

(** The three [setScenes] updates of [handleRegenerateScene]. *)
Definition markRegenerating (s : GeneratedScene) : GeneratedScene :=
  mkScene (id s) (narration s) (visual_prompt s) (imageUrl s) None
          (audioUrl s) (status s) true true (isGeneratingVideo s).

Definition regenerated (newImageUrl newAudioUrl : string) (s : GeneratedScene)
  : GeneratedScene :=
  mkScene (id s) (narration s) (visual_prompt s) (Some newImageUrl)
          (videoUrl s) (Some newAudioUrl) completed false false
          (isGeneratingVideo s).

Definition regenerationFailed (s : GeneratedScene) : GeneratedScene :=
  mkScene (id s) (narration s) (visual_prompt s) (imageUrl s) (videoUrl s)
          (audioUrl s) (status s) false false (isGeneratingVideo s).

(** [handleRegenerateScene(id)]: [imageCalls] and [speechCalls] are what
    the successive calls of the image and of the speech service give for
    the scene found; each is retried with the default policy.  The result
    is the scene list once the handler has finished. *)
Definition handleRegenerateScene
           (sceneId : string)
           (imageCalls speechCalls : GeneratedScene -> nat -> Retry.JsError + string)
           (scenes : list GeneratedScene) : list GeneratedScene :=
  match find (fun s => String.eqb (id s) sceneId) scenes with
  | None => scenes
  | Some scene =>
      let started := updateById sceneId markRegenerating scenes in
      match Retry.result (Retry.retryOperation (imageCalls scene) 5 4000) with
      | inr newImageUrl =>
          match Retry.result
                  (Retry.retryOperation (speechCalls scene) 5 4000) with
          | inr newAudioUrl =>
              updateById sceneId (regenerated newImageUrl newAudioUrl) started
          | inl _ => updateById sceneId regenerationFailed started
          end
      | inl _ => updateById sceneId regenerationFailed started
      end
  end.

Lemma updateById_twice (sceneId : string)
      (f g : GeneratedScene -> GeneratedScene) (scenes : list GeneratedScene) :
  (forall s, id (f s) = id s) ->
  updateById sceneId g (updateById sceneId f scenes)
  = updateById sceneId (fun s => g (f s)) scenes.
Proof.
  intros Hid. unfold updateById. rewrite map_map. apply map_ext.
  intros s. destruct (String.eqb (id s) sceneId) eqn:E; [|now rewrite E].
  now rewrite Hid, E.
Qed.

(** How regenerating a scene ended. *)
Definition regenerationOutcome
           (imageCalls speechCalls : nat -> Retry.JsError + string)
  : option (string * string) :=
  match Retry.result (Retry.retryOperation imageCalls 5 4000) with
  | inr img =>
      match Retry.result (Retry.retryOperation speechCalls 5 4000) with
      | inr aud => Some (img, aud)
      | inl _ => None
      end
  | inl _ => None
  end.

(** X11: regenerating a scene touches that scene only and always ends
    with both regeneration flags cleared and the scene's animation
    discarded; when both retried services succeed the scene gets the new
    image and audio and is completed, and when either gives up it keeps
    its old image, audio and status but has still lost its video.  An id
    no scene has changes nothing. *)
Theorem handleRegenerateScene_outcome
        (sceneId : string)
        (imageCalls speechCalls : GeneratedScene -> nat -> Retry.JsError + string)
        (scenes : list GeneratedScene) :
  let after := handleRegenerateScene sceneId imageCalls speechCalls scenes in
  List.length after = List.length scenes /\
  ((forall s, In s scenes -> id s <> sceneId) -> after = scenes) /\
  forall found,
    find (fun s => String.eqb (id s) sceneId) scenes = Some found ->
    forall i s,
      nth_error scenes i = Some s ->
      exists s',
        nth_error after i = Some s' /\
        id s' = id s /\ narration s' = narration s /\
        visual_prompt s' = visual_prompt s /\
        (id s <> sceneId -> s' = s) /\
        (id s = sceneId ->
         isRegeneratingAudio s' = false /\ isRegeneratingImage s' = false /\
         videoUrl s' = None /\
         match regenerationOutcome (imageCalls found) (speechCalls found) with
         | Some (img, aud) =>
             imageUrl s' = Some img /\ audioUrl s' = Some aud /\
             status s' = completed
         | None =>
             imageUrl s' = imageUrl s /\ audioUrl s' = audioUrl s /\
             status s' = status s
         end).
Proof.
  cbv zeta. unfold handleRegenerateScene, regenerationOutcome.
  split; [|split].
  - destruct (find _ scenes); [|reflexivity].
    destruct (Retry.result _); [|destruct (Retry.result _)];
      unfold updateById; now rewrite !length_map.
  - intros Hnone.
    destruct (find _ scenes) as [sc|] eqn:Ef; [|reflexivity].
    apply find_some in Ef. destruct Ef as [Hin Heq].
    apply String.eqb_eq in Heq. destruct (Hnone sc Hin Heq).
  - intros found Ef i s Hi. rewrite Ef.
    set (out :=
           match Retry.result (Retry.retryOperation (imageCalls found) 5 4000) with
           | inr img =>
               match Retry.result
                       (Retry.retryOperation (speechCalls found) 5 4000) with
               | inr aud => Some (img, aud)
               | inl _ => None
               end
           | inl _ => None
           end).
    assert (E : match Retry.result
                        (Retry.retryOperation (imageCalls found) 5 4000) with
                | inr newImageUrl =>
                    match Retry.result
                            (Retry.retryOperation (speechCalls found) 5 4000) with
                    | inr newAudioUrl =>
                        updateById sceneId (regenerated newImageUrl newAudioUrl)
                                   (updateById sceneId markRegenerating scenes)
                    | inl _ =>
                        updateById sceneId regenerationFailed
                                   (updateById sceneId markRegenerating scenes)
                    end
                | inl _ =>
                    updateById sceneId regenerationFailed
                               (updateById sceneId markRegenerating scenes)
                end
                = updateById sceneId
                    (fun s0 => match out with
                               | Some (img, aud) =>
                                   regenerated img aud (markRegenerating s0)
                               | None => regenerationFailed (markRegenerating s0)
                               end) scenes).
    { unfold out.
      destruct (Retry.result (Retry.retryOperation (imageCalls found) 5 4000));
        [|destruct (Retry.result
                      (Retry.retryOperation (speechCalls found) 5 4000))];
        now rewrite updateById_twice. }
    rewrite E. clear E. unfold updateById. rewrite nth_error_map, Hi.
    cbn [option_map].
    eexists. split; [reflexivity|].
    destruct (String.eqb (id s) sceneId) eqn:Es.
    + apply String.eqb_eq in Es.
      destruct out as [[img aud]|]; cbn; repeat split; congruence.
    + apply String.eqb_neq in Es. repeat split; congruence.
Qed.

(** Services that are out of quota for good. *)
Definition exhausted (s : GeneratedScene) (k : nat) : Retry.JsError + string :=
  inl (Retry.mkJsError "quota exceeded").

Definition animated : GeneratedScene :=
  mkScene "s7" "Hello" "a cat" (Some "a.png"%string) (Some "a.mp4"%string)
          (Some "a.wav"%string) completed false false false.

Lemma handleRegenerateScene_outcome_witness :
  find (fun s => String.eqb (id s) "s7") [animated] = Some animated /\
  nth_error [animated] 0 = Some animated /\
  exists s',
    nth_error (handleRegenerateScene "s7" exhausted exhausted [animated]) 0
    = Some s' /\
    videoUrl s' = None /\ imageUrl s' = Some "a.png"%string /\
    isRegeneratingImage s' = false.
Proof.
  assert (Hf : find (fun s => String.eqb (id s) "s7") [animated] = Some animated)
    by reflexivity.
  assert (Hn : nth_error [animated] 0 = Some animated) by reflexivity.
  split; [exact Hf|]. split; [exact Hn|].
  destruct (handleRegenerateScene_outcome "s7" exhausted exhausted [animated])
    as (_ & _ & H).
  destruct (H animated Hf 0%nat animated Hn)
    as (s' & E & _ & _ & _ & _ & Hsame).
  destruct (Hsame eq_refl) as (_ & Himg & Hvid & Hout).
  exists s'. repeat split; try assumption.
  exact (proj1 Hout).
Defined.

End AppHandlers.

(** ** More on the export run *)

Module ExportFacts.

(** The events an iteration of the playback loop can log. *)
Definition bodyEvent (e : Event) : bool :=
  match e with
  | ConsoleError _ | FillRect _ _ | SourceStarted _ _ | VideoPlay _
  | DrawImage _ _ | SubtitlesDrawn _ _ | LoopResolved _ _
  | SourceStopped _ _ | VideoPaused _ => true
  | _ => false
  end.

Section Kinds.

Variable env : Browser.
Variables width height : Q.

Lemma render_kinds (i : nat) (scene : GeneratedScene) (v : Visual)
      (start d : Q) (fuel : nat) :
  forall t e,
    In e (log (render env width height i scene v start d fuel t)) ->
    bodyEvent e = true /\
    (forall j r, e = DrawImage j r -> r = drawCover v width height).
Proof.
  induction fuel as [|fuel IH]; intros t e;
    destruct (Qle_bool d ((t - start) / 1000)) eqn:Hc.
  - rewrite render_stop by exact Hc. cbn. intros [<-|[]].
    split; [reflexivity | discriminate].
  - rewrite render_out_of_fuel by exact Hc. intros [].
  - rewrite render_stop by exact Hc. cbn. intros [<-|[]].
    split; [reflexivity | discriminate].
  - rewrite render_step by exact Hc. cbn [log]. intros H.
    apply in_app_or in H. destruct H as [H|H]; [|exact (IH _ _ H)].
    destruct (drawFrame_run env width height i scene v t)
      as (_ & _ & cap & Hl & Hcap).
    rewrite Hl in H. destruct H as [<-|[<-|H]].
    + split; [reflexivity | discriminate].
    + split; [reflexivity|]. intros j r E. now inversion E.
    + rewrite Forall_forall in Hcap. destruct (Hcap _ H) as [l ->].
      split; [reflexivity | discriminate].
Qed.

Lemma playScene_kinds (i : nat) (scene : GeneratedScene) (v : Visual)
      (a : option AudioBuffer) (t : Q) (e : Event) :
  In e (log (playScene env width height i scene v a t)) ->
  bodyEvent e = true /\
  (forall j r, e = DrawImage j r -> r = drawCover v width height).
Proof.
  pose proof (playScene_run env width height i scene v a t) as H.
  cbv zeta in H.
  assert (H1 : forall t', In e (sourceStart i a t') ->
                          bodyEvent e = true /\
                          (forall j r, e = DrawImage j r ->
                                       r = drawCover v width height)).
  { intros t'. destruct a; cbn; [intros [<-|[]] | intros []].
    split; [reflexivity | discriminate]. }
  assert (H2 : forall t', In e (sourceStop i a t') ->
                          bodyEvent e = true /\
                          (forall j r, e = DrawImage j r ->
                                       r = drawCover v width height)).
  { intros t'. destruct a; cbn; [intros [<-|[]] | intros []].
    split; [reflexivity | discriminate]. }
  assert (H3 : In e (videoStart i v) ->
               bodyEvent e = true /\
               (forall j r, e = DrawImage j r -> r = drawCover v width height)).
  { unfold videoStart. destruct (isVideo v); cbn; [intros [<-|[]] | intros []].
    split; [reflexivity | discriminate]. }
  assert (H4 : In e (videoStop i v) ->
               bodyEvent e = true /\
               (forall j r, e = DrawImage j r -> r = drawCover v width height)).
  { unfold videoStop. destruct (isVideo v); cbn; [intros [<-|[]] | intros []].
    split; [reflexivity | discriminate]. }
  pose proof (render_kinds i scene v (playEnd env scene v t)
                (visibleDuration a) (framesBound env (visibleDuration a))
                (playEnd env scene v t) e) as H5.
  destruct (playRejects env scene v).
  - destruct H as [_ ->]. rewrite in_app_iff. intros [Hi|Hi]; eauto.
  - destruct (outcome (render env width height i scene v _ _ _ _));
      [destruct H as (_ & _ & ->) | destruct H as (_ & ->) ..];
      rewrite !in_app_iff; intros Hin; decompose [or] Hin; eauto.
Qed.

(** An event of an iteration is of the loop's kinds, and a frame drawn is
    the cover-fit of the scene's loaded visual. *)
Lemma sceneBody_kinds (i : nat) (scene : GeneratedScene) (t : Q) (e : Event) :
  In e (log (sceneBody env width height i scene t)) ->
  bodyEvent e = true /\
  (forall j r, e = DrawImage j r ->
               exists v, loadedVisual env scene = Some (Some v) /\
                         r = drawCover v width height).
Proof.
  destruct (loadedVisual env scene) as [[v|]|] eqn:Ev;
    destruct (loadedAudio env scene) as [a|] eqn:Ea.
  - destruct (sceneBody_plays env width height i scene t v a Ev Ea)
      as (t' & _ & _ & ->).
    intros H. apply playScene_kinds in H. destruct H as [H1 H2].
    split; [exact H1|]. intros j r E. exists v. split; [reflexivity | eauto].
  - destruct (sceneBody_load_error env width height i scene t
                (or_intror Ea)) as [_ ->].
    intros [<-|[]]. split; [reflexivity | discriminate].
  - destruct (sceneBody_no_visual env width height i scene t a Ev Ea)
      as [_ ->]. intros [].
  - destruct (sceneBody_load_error env width height i scene t
                (or_intror Ea)) as [_ ->].
    intros [<-|[]]. split; [reflexivity | discriminate].
  - destruct (sceneBody_load_error env width height i scene t
                (or_introl Ev)) as [_ ->].
    intros [<-|[]]. split; [reflexivity | discriminate].
  - destruct (sceneBody_load_error env width height i scene t
                (or_introl Ev)) as [_ ->].
    intros [<-|[]]. split; [reflexivity | discriminate].
Qed.

(** The log of the loop over a list that starts with scenes whose
    iterations all finish. *)
Lemma playbackLoop_app (pre rest : list GeneratedScene) :
  forall i t,
    outcome (playbackLoop env width height i pre t) = Done tt ->
    let P := playbackLoop env width height i pre t in
    let R := playbackLoop env width height (i + List.length pre) rest
                          (clock P) in
    playbackLoop env width height i (pre ++ rest) t
    = mkRun (outcome R) (clock R) (log P ++ log R).
Proof.
  induction pre as [|s pre IH]; intros i t Hd; cbv zeta.
  - cbn [playbackLoop app List.length ret clock log].
    rewrite Nat.add_0_r. now rewrite run_eta.
  - cbn [playbackLoop app List.length] in Hd |- *.
    destruct (bind_done_inv _ _ _ _ Hd) as ([] & Ho & Ho' & Hc & Hl).
    rewrite (bind_done _ _ t tt Ho).
    rewrite (IH (S i) _ Ho'). cbv zeta. cbn [outcome clock log].
    rewrite Hl, Hc.
    replace (S i + List.length pre)%nat with (i + S (List.length pre))%nat
      by lia.
    now rewrite app_assoc.
Qed.

End Kinds.

(** Where the events of an export come from. *)
Lemma generateVideo_events (env : Browser) (scenes : list GeneratedScene)
      (aspectRatio : string) (t : Q) (e : Event) :
  In e (log (generateVideo env scenes aspectRatio t)) ->
  eventScene e = None \/
  In e (log (playbackLoop env (fst (getDimensions aspectRatio))
                          (snd (getDimensions aspectRatio)) 0 scenes
                          (setupEnd env t))).
Proof.
  pose proof (generateVideo_run env scenes aspectRatio t) as H. cbv zeta in H.
  assert (Hset : In e (setupLog env (fst (getDimensions aspectRatio))
                                (snd (getDimensions aspectRatio))) ->
                 eventScene e = None).
  { unfold setupLog. destruct (startsSuspended env); cbn;
      intros Hin; decompose [or] Hin; subst; try reflexivity; contradiction. }
  assert (Htear : In e teardownLog -> eventScene e = None).
  { cbn. intros Hin; decompose [or] Hin; subst; try reflexivity;
      contradiction. }
  destruct (setupError env) as [x|].
  - destruct H as (_ & rest & _ & Hl). intros Hin. left. apply Hset.
    rewrite Hl. apply in_or_app. now left.
  - destruct (outcome (playbackLoop env _ _ 0 scenes _)) as [u|x|];
      [destruct H as (_ & _ & ->) | destruct H as (_ & ->) ..];
      rewrite !in_app_iff; intros Hin; decompose [or] Hin; auto.
Qed.

(** X12: a scene one of whose assets fails to load is skipped whole,
    also when it is the audio that fails and the visual has loaded:
    whatever else happens in the export, no frame is drawn for that scene
    and no source or video of it is started. *)
Theorem failed_load_skips_scene
        (env : Browser) (scenes : list GeneratedScene)
        (aspectRatio : string) (t : Q) (i : nat) (scene : GeneratedScene)
        (Hscene : nth_error scenes i = Some scene)
        (Hfail : loadedVisual env scene = None \/ loadedAudio env scene = None) :
  forall e,
    In e (log (generateVideo env scenes aspectRatio t)) ->
    eventScene e <> Some i.
Proof.
  intros e Hin Hes.
  destruct (generateVideo_events env scenes aspectRatio t e Hin) as [Hb|Hloop].
  - congruence.
  - destruct (playbackLoop_events env _ _ scenes 0 _ e Hloop)
      as (k & s & t' & Hk & Hbody).
    cbn [Nat.add] in Hbody.
    destruct (sceneBody_events env _ _ k s t' e Hbody) as [Hn|[Hsome _]];
      [congruence|].
    assert (k = i) by congruence. subst k.
    assert (s = scene) by congruence. subst s.
    destruct (sceneBody_load_error env (fst (getDimensions aspectRatio))
                (snd (getDimensions aspectRatio)) i scene t' Hfail) as [_ Hl].
    rewrite Hl in Hbody. destruct Hbody as [<-|[]]. discriminate.
Qed.

(** A runtime in which no narration can be decoded. *)
Definition deafBrowser : Browser :=
  mkBrowser true false (fun _ => true)
            (fun _ => Some (1024, 1024)) (fun _ => Some (640, 360))
            (fun _ => None) (fun _ => 0) (fun _ => true) 500 fixedPitch
            (fun _ => None) 0 (fun _ => 0) 0 0.

Lemma failed_load_skips_scene_witness :
  nth_error Sample.threeScenes 0
  = Some (Sample.scene (Some "a.png"%string) (Some "3.wav"%string)) /\
  loadedAudio deafBrowser
    (Sample.scene (Some "a.png"%string) (Some "3.wav"%string)) = None /\
  ~ In (DrawImage 0 (drawCover (ImageEl 1024 1024) 1280 720))
       (log (generateVideo deafBrowser Sample.threeScenes "16:9" 0)).
Proof.
  assert (H1 : nth_error Sample.threeScenes 0
               = Some (Sample.scene (Some "a.png"%string)
                                    (Some "3.wav"%string))) by reflexivity.
  assert (H2 : loadedAudio deafBrowser
                 (Sample.scene (Some "a.png"%string) (Some "3.wav"%string))
               = None) by reflexivity.
  split; [exact H1|]. split; [exact H2|].
  intros Hin.
  exact (failed_load_skips_scene deafBrowser Sample.threeScenes "16:9" 0
           0%nat _ H1 (or_intror H2) _ Hin eq_refl).
Defined.

(** Every image and video the runtime loads has a positive size. *)
Definition positiveAssets (env : Browser) : Prop :=
  (forall url s, loadImage env url = Some s -> 0 < fst s /\ 0 < snd s) /\
  (forall url s, loadVideo env url = Some s -> 0 < fst s /\ 0 < snd s).

Lemma loadedVisual_positive (env : Browser) (scene : GeneratedScene)
      (v : Visual) :
  positiveAssets env ->
  loadedVisual env scene = Some (Some v) -> 0 < imgW v /\ 0 < imgH v.
Proof.
  intros [Himg Hvid]. unfold loadedVisual.
  assert (Hnz : forall q, 0 < q -> JS.orNum (Some q) 0 = q).
  { intros q Hq. apply JS.orNum_some_nonzero. lra. }
  destruct (JS.truthy (videoUrl scene)).
  - destruct (videoUrl scene) as [url|]; [|discriminate].
    destruct (loadVideo env url) as [s|] eqn:E; [|discriminate].
    cbn. intros H. inversion H; subst v. destruct (Hvid _ _ E) as [H1 H2].
    cbn [imgW imgH]. rewrite !Hnz by assumption. split; assumption.
  - destruct (JS.truthy (imageUrl scene)); [|discriminate].
    destruct (imageUrl scene) as [url|]; [|discriminate].
    destruct (loadImage env url) as [s|] eqn:E; [|discriminate].
    cbn. intros H. inversion H; subst v. exact (Himg _ _ E).
Qed.

Lemma getDimensions_positive (aspectRatio : string) :
  0 < fst (getDimensions aspectRatio) /\ 0 < snd (getDimensions aspectRatio).
Proof.
  unfold getDimensions.
  destruct (String.eqb aspectRatio "16:9"); [split; reflexivity|].
  destruct (String.eqb aspectRatio "9:16"); split; reflexivity.
Qed.

Lemma drawCover_rect_covers (v : Visual) (w h : Q) :
  0 < imgW v -> 0 < imgH v ->
  let r := drawCover v w h in
  offX r <= 0 /\ offY r <= 0 /\
  w <= offX r + newW r /\ h <= offY r + newH r.
Proof.
  intros Hw Hh. cbv zeta. unfold drawCover. cbn [offX offY newW newH].
  fold (coverRatio (imgW v) (imgH v) w h).
  pose proof (scaled_width_covers (imgW v) (imgH v) w h Hw) as HW.
  pose proof (scaled_height_covers (imgW v) (imgH v) w h Hh) as HH.
  set (nw := imgW v * coverRatio (imgW v) (imgH v) w h) in *.
  set (nh := imgH v * coverRatio (imgW v) (imgH v) w h) in *.
  assert (E1 : (w - nw) / 2 == (w - nw) * (1 # 2)) by field.
  assert (E2 : (h - nh) / 2 == (h - nh) * (1 # 2)) by field.
  rewrite E1, E2. repeat split; lra.
Qed.

(** X13: whatever the aspect ratio tag, the scenes and the runtime's
    answers, every frame an export draws covers the whole canvas, provided
    the images and videos loaded have a positive size: the rectangle drawn
    starts at or before the canvas origin and ends at or beyond its far
    corner. *)
Theorem export_frames_cover_canvas
        (env : Browser) (scenes : list GeneratedScene)
        (aspectRatio : string) (t : Q)
        (Hpos : positiveAssets env) :
  forall i r,
    In (DrawImage i r) (log (generateVideo env scenes aspectRatio t)) ->
    offX r <= 0 /\ offY r <= 0 /\
    fst (getDimensions aspectRatio) <= offX r + newW r /\
    snd (getDimensions aspectRatio) <= offY r + newH r.
Proof.
  intros i r Hin.
  destruct (generateVideo_events env scenes aspectRatio t _ Hin) as [Hb|Hloop];
    [discriminate Hb|].
  destruct (playbackLoop_events env _ _ scenes 0 _ _ Hloop)
    as (k & s & t' & Hk & Hbody).
  destruct (sceneBody_kinds env _ _ _ s t' _ Hbody) as [_ Hdraw].
  destruct (Hdraw i r eq_refl) as (v & Hv & ->).
  destruct (loadedVisual_positive env s v Hpos Hv) as [Hw Hh].
  exact (drawCover_rect_covers v _ _ Hw Hh).
Qed.

Lemma export_frames_cover_canvas_witness :
  positiveAssets Sample.browser /\
  In (DrawImage 1 (drawCover (ImageEl 1024 1024) 1280 720))
     (log (generateVideo Sample.browser Sample.threeScenes "16:9" 0)) /\
  1280 <= offX (drawCover (ImageEl 1024 1024) 1280 720)
          + newW (drawCover (ImageEl 1024 1024) 1280 720).
Proof.
  assert (Hpos : positiveAssets Sample.browser).
  { split; intros url s E; inversion E; subst s; split; reflexivity. }
  assert (Hin : In (DrawImage 1 (drawCover (ImageEl 1024 1024) 1280 720))
                   (log (generateVideo Sample.browser Sample.threeScenes
                                       "16:9" 0))).
  { vm_compute. repeat (first [left; reflexivity | right]). }
  split; [exact Hpos|]. split; [exact Hin|].
  destruct (export_frames_cover_canvas Sample.browser Sample.threeScenes
              "16:9" 0 Hpos _ _ Hin) as (_ & _ & Hw & _).
  exact Hw.
Defined.

(** The events of the loop over a list belong to its scenes and are of
    the loop's kinds. *)
Lemma playbackLoop_event_range (env : Browser) (width height : Q)
      (scenes : list GeneratedScene) (i : nat) (t : Q) (e : Event) :
  In e (log (playbackLoop env width height i scenes t)) ->
  bodyEvent e = true /\
  (forall k, eventScene e = Some k ->
             (i <= k < i + List.length scenes)%nat).
Proof.
  intros Hin.
  destruct (playbackLoop_events env width height scenes i t e Hin)
    as (k & s & t' & Hk & Hbody).
  split; [exact (proj1 (sceneBody_kinds env width height _ s t' e Hbody))|].
  intros k' Hk'.
  destruct (sceneBody_events env width height _ s t' e Hbody) as [Hn|[Hs _]];
    [congruence|].
  assert (k' = (i + k)%nat) by congruence. subst k'.
  assert (k < List.length scenes)%nat
    by (apply nth_error_Some; congruence).
  lia.
Qed.

(** X14: when [visual.play()] rejects for a video scene, in an export
    whose setup met no error, the export rejects at that scene: the
    recorder has been started and is never stopped, the audio context is
    never closed, the narration source of that scene, if it has one, has
    been started and is never stopped, and no later scene is touched. *)
Theorem rejected_play_aborts_export
        (env : Browser) (pre rest : list GeneratedScene)
        (scene : GeneratedScene) (v : Visual) (a : option AudioBuffer)
        (aspectRatio : string) (t : Q)
        (Hsetup : setupError env = None)
        (Hfi : 0 < frameInterval env)
        (Hpre : playsOk env pre)
        (Hv : loadedVisual env scene = Some (Some v))
        (Ha : loadedAudio env scene = Some a)
        (Hrej : playRejects env scene v = true) :
  let r := generateVideo env (pre ++ scene :: rest) aspectRatio t in
  let i := List.length pre in
  (exists e, outcome r = Threw e) /\
  In RecorderStarted (log r) /\
  ~ In RecorderStopped (log r) /\
  ~ In AudioContextClosed (log r) /\
  In (VideoPlay i) (log r) /\
  (forall b, a = Some b ->
             (exists ts, In (SourceStarted i ts) (log r)) /\
             forall ts, ~ In (SourceStopped i ts) (log r)) /\
  (forall e k, In e (log r) -> eventScene e = Some k -> (k <= i)%nat).
Proof.
  cbv zeta.
  set (w := fst (getDimensions aspectRatio)).
  set (h := snd (getDimensions aspectRatio)).
  set (t0 := setupEnd env t).
  pose proof (playbackLoop_resolves env w h Hfi pre Hpre 0 t0) as HP.
  pose proof (playbackLoop_app env w h pre (scene :: rest) 0 t0 HP) as HL.
  cbv zeta in HL. cbn [Nat.add] in HL.
  set (P := playbackLoop env w h 0 pre t0) in *.
  cbn [playbackLoop] in HL.
  destruct (sceneBody_plays env w h (List.length pre) scene (clock P) v a Hv Ha)
    as (t' & Eo & _ & El).
  pose proof (playScene_run env w h (List.length pre) scene v a t') as Hrun.
  cbv zeta in Hrun. rewrite Hrej in Hrun. destruct Hrun as [[err Herr] Hlog].
  rewrite Herr in Eo. rewrite Hlog in El.
  rewrite (bind_threw _ _ _ _ Eo) in HL. cbn [outcome clock log] in HL.
  rewrite El in HL.
  pose proof (generateVideo_run env (pre ++ scene :: rest) aspectRatio t) as HG.
  cbv zeta in HG. rewrite Hsetup in HG. fold w h t0 in HG. rewrite HL in HG.
  cbn [outcome log] in HG. destruct HG as [HGo HGl].
  assert (Hvid : isVideo v = true).
  { unfold playRejects in Hrej. now destruct (isVideo v). }
  assert (Hset : forall e, In e (setupLog env w h) ->
                             eventScene e = None /\ e <> RecorderStopped /\
                             e <> AudioContextClosed).
  { intros e. unfold setupLog. destruct (startsSuspended env); cbn;
      intros Hin; decompose [or] Hin; subst; try contradiction;
      repeat split; try reflexivity; discriminate. }
  assert (Hstart : forall e, In e (sourceStart (List.length pre) a t')
                             \/ In e (videoStart (List.length pre) v) ->
                             eventScene e = Some (List.length pre) /\
                             bodyEvent e = true /\
                             (forall ts, e <> SourceStopped (List.length pre) ts)).
  { intros e Hin. unfold videoStart in Hin.
    rewrite Hvid in Hin. destruct a; cbn in Hin;
      decompose [or] Hin; subst; try contradiction;
      repeat split; try reflexivity; discriminate. }
  rewrite HGl. split; [eauto|]. split; [|split; [|split; [|split; [|split]]]].
  - apply in_or_app. left. unfold setupLog.
    destruct (startsSuspended env); cbn; auto 10.
  - rewrite !in_app_iff. intros [Hin|[Hin|Hin]].
    + destruct (Hset _ Hin) as (_ & Hn & _). congruence.
    + destruct (playbackLoop_event_range env w h pre 0 t0 _ Hin) as [Hb _].
      discriminate Hb.
    + destruct (Hstart _ Hin) as (_ & Hb & _). discriminate Hb.
  - rewrite !in_app_iff. intros [Hin|[Hin|Hin]].
    + destruct (Hset _ Hin) as (_ & _ & Hn). congruence.
    + destruct (playbackLoop_event_range env w h pre 0 t0 _ Hin) as [Hb _].
      discriminate Hb.
    + destruct (Hstart _ Hin) as (_ & Hb & _). discriminate Hb.
  - rewrite !in_app_iff. right. right. right. unfold videoStart.
    rewrite Hvid. left. reflexivity.
  - intros b ->. split.
    + exists t'. rewrite !in_app_iff. right. right. left. left. reflexivity.
    + intros ts. rewrite !in_app_iff. intros [Hin|[Hin|Hin]].
      * destruct (Hset _ Hin) as (Hn & _). discriminate Hn.
      * destruct (playbackLoop_event_range env w h pre 0 t0 _ Hin) as [_ Hr].
        specialize (Hr (List.length pre) eq_refl). lia.
      * destruct (Hstart _ Hin) as (_ & _ & Hn). exact (Hn ts eq_refl).
  - intros e k. rewrite !in_app_iff. intros [Hin|[Hin|Hin]] Hk.
    + destruct (Hset _ Hin) as (Hn & _). congruence.
    + destruct (playbackLoop_event_range env w h pre 0 t0 _ Hin) as [_ Hr].
      specialize (Hr k Hk). lia.
    + destruct (Hstart _ Hin) as (Hs & _). assert (k = List.length pre)
        by congruence. lia.
Qed.

(** A runtime that refuses to play videos. *)
Definition stillBrowser : Browser :=
  mkBrowser true false (fun _ => true)
            (fun _ => Some (1024, 1024)) (fun _ => Some (640, 360))
            Sample.audioOf (fun _ => 0) (fun _ => false) 500 fixedPitch
            (fun _ => None) 0 (fun _ => 0) 0 0.

Definition clip : GeneratedScene :=
  mkScene "c" EmptyString EmptyString None (Some "c.mp4"%string)
          (Some "2.wav"%string) completed false false false.

Lemma rejected_play_aborts_export_witness :
  setupError stillBrowser = None /\
  0 < frameInterval stillBrowser /\
  playRejects stillBrowser clip (VideoEl 640 360 0 0) = true /\
  (exists e,
      outcome (generateVideo stillBrowser
                 ([Sample.scene (Some "a.png"%string) None] ++ clip
                    :: [Sample.scene (Some "b.png"%string) None]) "16:9" 0)
      = Threw e) /\
  ~ In RecorderStopped
       (log (generateVideo stillBrowser
               ([Sample.scene (Some "a.png"%string) None] ++ clip
                  :: [Sample.scene (Some "b.png"%string) None]) "16:9" 0)).
Proof.
  assert (H1 : setupError stillBrowser = None) by reflexivity.
  assert (H2 : 0 < frameInterval stillBrowser) by reflexivity.
  assert (H3 : playRejects stillBrowser clip (VideoEl 640 360 0 0) = true)
    by reflexivity.
  assert (H4 : playsOk stillBrowser [Sample.scene (Some "a.png"%string) None]).
  { intros s url [<-|[]] E. discriminate E. }
  destruct (rejected_play_aborts_export stillBrowser
              [Sample.scene (Some "a.png"%string) None]
              [Sample.scene (Some "b.png"%string) None]
              clip (VideoEl 640 360 0 0) (Some (mkAudioBuffer 2))
              "16:9" 0 H1 H2 H4 eq_refl eq_refl H3)
    as (Hthrew & _ & Hstop & _).
  repeat split; assumption.
Defined.

(** X15: the container negotiated for the recording is always one of
    the three candidates; it is one the runtime supports whenever it
    supports any of them, and plain WebM when it supports none; the file
    extension chosen from it is mp4 exactly when MP4 is the only candidate
    supported, which is also what looking for "mp4" in the type gives. *)
Theorem selected_container_priority (supported : string -> bool) :
  let type := selectMimeType supported in
  In type mimeTypes /\
  ((exists c, In c mimeTypes /\ supported c = true) -> supported type = true) /\
  ((forall c, In c mimeTypes -> supported c = false) ->
   type = "video/webm"%string) /\
  (extensionOf (mkBlob type) = "mp4"%string <->
   supported "video/webm;codecs=vp9,opus"%string = false /\
   supported "video/webm"%string = false /\ supported "video/mp4"%string = true) /\
  extensionOf (mkBlob type)
  = (if JSString.includes "mp4"%string type then "mp4"%string else "webm"%string)%string.
Proof.
  cbv zeta. unfold selectMimeType, mimeTypes, extensionOf.
  cbn [find blobType].
  destruct (supported "video/webm;codecs=vp9,opus"%string) eqn:E1;
    [|destruct (supported "video/webm"%string) eqn:E2;
      [|destruct (supported "video/mp4"%string) eqn:E3]].
  - split; [cbn; auto|]. split; [intros _; exact E1|].
    split; [intros H; rewrite (H _ (or_introl eq_refl)) in E1; discriminate|].
    split; [|reflexivity].
    split; [intros H; discriminate H | intros (H & _); discriminate H].
  - split; [cbn; auto|]. split; [intros _; exact E2|].
    split; [reflexivity|]. split; [|reflexivity].
    split; [intros H; discriminate H | intros (_ & H & _); discriminate H].
  - split; [cbn; auto|]. split; [intros _; exact E3|].
    split; [intros H;
            rewrite (H _ (or_intror (or_intror (or_introl eq_refl)))) in E3;
            discriminate|].
    split; [|reflexivity]. split; [auto | reflexivity].
  - split; [cbn; auto|].
    split; [intros (c & [<-|[<-|[<-|[]]]] & Hc); congruence|].
    split; [reflexivity|]. split; [|reflexivity].
    split; [intros H; discriminate H | intros (_ & _ & H); discriminate H].
Qed.

Lemma selected_container_priority_witness :
  (exists c, In c mimeTypes /\
             (fun type => String.eqb type "video/mp4"%string) c = true) /\
  selectMimeType (fun type => String.eqb type "video/mp4"%string)
  = "video/mp4"%string.
Proof.
  assert (H : exists c, In c mimeTypes /\
                        (fun type => String.eqb type "video/mp4"%string) c = true).
  { exists "video/mp4"%string. split; [cbn; auto | reflexivity]. }
  split; [exact H|].
  destruct (selected_container_priority
              (fun type => String.eqb type "video/mp4"%string)) as (_ & Hs & _).
  apply String.eqb_eq. exact (Hs H).
Defined.

(** *** The full-movie handler always settles *)

Lemma tryCatch_threw {A} (m : M A) (h : string -> M A) (t : Q) (e : string) :
  outcome (m t) = Threw e ->
  tryCatch m h t =
  mkRun (outcome (h e (clock (m t)))) (clock (h e (clock (m t))))
        (log (m t) ++ log (h e (clock (m t)))).
Proof.
  unfold tryCatch. destruct (m t) as [o c l]. cbn. intros ->.
  destruct (h e c); reflexivity.
Qed.

Lemma tryCatch_done {A} (m : M A) (h : string -> M A) (t : Q) (a : A) :
  outcome (m t) = Done a -> tryCatch m h t = m t.
Proof.
  unfold tryCatch. destruct (m t) as [o c l]. cbn. now intros ->.
Qed.

Section Settles.

Variable env : Browser.
Hypothesis Hfi : 0 < frameInterval env.

Lemma sceneBody_settles (w h : Q) (i : nat) (scene : GeneratedScene) (t : Q) :
  outcome (sceneBody env w h i scene t) <> Diverged.
Proof.
  destruct (loadedVisual env scene) as [[v|]|] eqn:Ev;
    destruct (loadedAudio env scene) as [a|] eqn:Ea.
  - destruct (sceneBody_plays env w h i scene t v a Ev Ea)
      as (t' & -> & _ & _).
    destruct (playRejects env scene v) eqn:Er.
    + pose proof (playScene_run env w h i scene v a t') as H.
      cbv zeta in H. rewrite Er in H. destruct H as [[e ->] _]. discriminate.
    + rewrite (playScene_resolves env w h Hfi i scene v a t' Er). discriminate.
  - rewrite (proj1 (sceneBody_load_error env w h i scene t (or_intror Ea))).
    discriminate.
  - rewrite (proj1 (sceneBody_no_visual env w h i scene t a Ev Ea)).
    discriminate.
  - rewrite (proj1 (sceneBody_load_error env w h i scene t (or_intror Ea))).
    discriminate.
  - rewrite (proj1 (sceneBody_load_error env w h i scene t (or_introl Ev))).
    discriminate.
  - rewrite (proj1 (sceneBody_load_error env w h i scene t (or_introl Ev))).
    discriminate.
Qed.

Lemma playbackLoop_settles (w h : Q) (scenes : list GeneratedScene) :
  forall i t, outcome (playbackLoop env w h i scenes t) <> Diverged.
Proof.
  induction scenes as [|s rest IH]; intros i t; cbn [playbackLoop].
  - discriminate.
  - destruct (outcome (sceneBody env w h i s t)) as [[]|e|] eqn:Eo.
    + rewrite (bind_done _ _ _ _ Eo). cbn [outcome]. apply IH.
    + rewrite (bind_threw _ _ _ _ Eo). discriminate.
    + destruct (sceneBody_settles w h i s t Eo).
Qed.

Lemma generateVideo_settles (scenes : list GeneratedScene)
      (aspectRatio : string) (t : Q) :
  outcome (generateVideo env scenes aspectRatio t) <> Diverged.
Proof.
  pose proof (generateVideo_run env scenes aspectRatio t) as H. cbv zeta in H.
  pose proof (playbackLoop_settles (fst (getDimensions aspectRatio))
                (snd (getDimensions aspectRatio)) scenes 0 (setupEnd env t))
    as HL.
  destruct (setupError env) as [x|].
  - destruct H as (-> & _). discriminate.
  - destruct (outcome (playbackLoop env _ _ 0 scenes _)) as [u|e|];
      [destruct H as (-> & _) | destruct H as (-> & _) | congruence];
      discriminate.
Qed.

End Settles.

Lemma generateVideo_no_download (env : Browser) (scenes : list GeneratedScene)
      (aspectRatio : string) (t : Q) (b : Blob) (f : string) :
  ~ In (BlobDownloaded b f) (log (generateVideo env scenes aspectRatio t)).
Proof.
  intros Hin.
  pose proof (generateVideo_run env scenes aspectRatio t) as H. cbv zeta in H.
  assert (Hset : ~ In (BlobDownloaded b f)
                      (setupLog env (fst (getDimensions aspectRatio))
                                (snd (getDimensions aspectRatio)))).
  { unfold setupLog. destruct (startsSuspended env); cbn;
      intros Hx; decompose [or] Hx; try discriminate; contradiction. }
  assert (Hloop : ~ In (BlobDownloaded b f)
                       (log (playbackLoop env (fst (getDimensions aspectRatio))
                               (snd (getDimensions aspectRatio)) 0 scenes
                               (setupEnd env t)))).
  { intros Hx. apply playbackLoop_event_range in Hx. destruct Hx as [Hb _].
    discriminate Hb. }
  destruct (setupError env) as [x|].
  - destruct H as (_ & rest & _ & Hl). apply Hset. rewrite Hl.
    apply in_or_app. now left.
  - destruct (outcome (playbackLoop env _ _ 0 scenes _)) as [u|e|];
      [destruct H as (_ & _ & Hl) | destruct H as (_ & Hl) ..];
      rewrite Hl, !in_app_iff in Hin; decompose [or] Hin; try contradiction.
    cbn in H0. decompose [or] H0; try discriminate; contradiction.
Qed.

(** X16: with a positive frame interval the full-movie handler always
    settles, never throwing to its caller, with the exporting flag cleared
    and playback stopped.  Either the pipeline, run on exactly the ready
    scenes, resolved and its blob was downloaded once, as the last thing
    done, under the name chosen from its type; or nothing was downloaded
    and the error message says why.  For an empty scene list the handler
    does nothing at all. *)
Theorem export_full_movie_settles
        (env : Browser) (scenes : list GeneratedScene)
        (selectedRatio : string) (st : AppState) (t : Q)
        (Hfi : 0 < frameInterval env) :
  let r := handleExportFullMovie env scenes selectedRatio st t in
  let G := generateVideo env (filter isReady scenes) selectedRatio t in
  (scenes = [] -> r = mkRun (Done st) t []) /\
  (scenes <> [] ->
   exists st',
     outcome r = Done st' /\
     isExportingFull st' = false /\ appIsPlaying st' = false /\
     ((exists blob,
          filter isReady scenes <> [] /\ outcome G = Done blob /\
          notificationMsg st' = Some "Download started!"%string /\
          errorMsg st' = errorMsg st /\
          log r = log G ++ [BlobDownloaded blob
                              ("storyreel-full-movie."%string ++ extensionOf blob)])
      \/
      (exists msg,
          errorMsg st' = Some ("Failed to export full movie: "%string ++ msg)%string /\
          notificationMsg st' = None /\
          forall b f, ~ In (BlobDownloaded b f) (log r)))).
Proof.
  cbv zeta. split; [intros ->; reflexivity|].
  intros Hne. unfold handleExportFullMovie.
  destruct scenes as [|s0 rest]; [congruence|].
  cbn [List.length Nat.eqb].
  set (ready := filter isReady (s0 :: rest)).
  set (handler := fun e : string =>
                    emit (ConsoleError "Export Full Movie Failed"%string) ;; _).
  destruct ready as [|r0 ready'] eqn:Er.
  - cbn [List.length Nat.eqb].
    match goal with
    | |- context [tryCatch ?m handler] =>
        assert (Htc : tryCatch m handler t =
                      mkRun (Done (mkAppState true false None
                                     (Some noReadyScenesError)))
                            t [ConsoleError "Export Full Movie Failed"%string])
          by reflexivity;
        rewrite (bind_done (tryCatch m handler) _ t _ (f_equal outcome Htc));
        rewrite Htc
    end.
    cbn [outcome clock log ret app].
    eexists. split; [reflexivity|]. split; [reflexivity|].
    split; [reflexivity|]. right.
    exists "No completed scenes to export"%string.
    repeat split. intros b f [Hx|[]]. discriminate Hx.
  - cbn [List.length Nat.eqb].
    assert (Hrne : ready <> []) by (rewrite Er; discriminate).
    rewrite <- Er. clear Er.
    set (G := generateVideo env ready selectedRatio).
    pose proof (generateVideo_settles env Hfi ready selectedRatio t) as Hset.
    fold G in Hset.
    match goal with
    | |- context [tryCatch ?m handler] => set (body := m)
    end.
    destruct (outcome (G t)) as [blob|e|] eqn:Eo; [| |congruence].
    + assert (Hb : body t =
                   mkRun (Done (mkAppState true false
                                  (Some "Download started!"%string)
                                  (errorMsg st)))
                         (clock (G t))
                         (log (G t)
                            ++ [BlobDownloaded blob
                                  ("storyreel-full-movie."%string ++ extensionOf blob)])).
      { unfold body. rewrite bind_ret.
        rewrite (bind_done G _ t blob Eo). step_run.
        cbn [ret outcome clock log app isExportingFull appIsPlaying errorMsg].
        reflexivity. }
      rewrite (bind_done (tryCatch body handler) _ t _
                 ltac:(rewrite (tryCatch_done body handler t _
                                  (f_equal outcome Hb)), Hb; reflexivity)).
      rewrite (tryCatch_done body handler t _ (f_equal outcome Hb)), Hb.
      cbn [outcome clock log ret app].
      eexists. split; [reflexivity|]. split; [reflexivity|].
      split; [reflexivity|]. left. exists blob.
      rewrite app_nil_r. repeat split.
      exact Hrne.
    + assert (Hb : body t = mkRun (Threw e) (clock (G t)) (log (G t))).
      { unfold body. rewrite bind_ret. now rewrite (bind_threw G _ t e Eo). }
      assert (Htc : tryCatch body handler t =
                    mkRun (Done (mkAppState true false None
                                   (Some ("Failed to export full movie: "%string ++ e)%string)))
                          (clock (G t))
                          (log (G t) ++ [ConsoleError "Export Full Movie Failed"%string])).
      { rewrite (tryCatch_threw body handler t e (f_equal outcome Hb)), Hb.
        unfold handler. cbn [clock log]. step_run.
        cbn [ret outcome clock log app isExportingFull appIsPlaying].
        reflexivity. }
      rewrite (bind_done (tryCatch body handler) _ t _ (f_equal outcome Htc)).
      rewrite Htc. cbn [outcome clock log ret app].
      eexists. split; [reflexivity|]. split; [reflexivity|].
      split; [reflexivity|]. right. exists e.
      rewrite app_nil_r. repeat split.
      intros b f Hin. apply in_app_or in Hin. destruct Hin as [Hin|[Hx|[]]].
      * exact (generateVideo_no_download env ready selectedRatio t b f Hin).
      * discriminate Hx.
Qed.

Lemma export_full_movie_settles_witness :
  0 < frameInterval Sample.browser /\
  Sample.threeScenes <> [] /\
  exists st',
    outcome (handleExportFullMovie Sample.browser Sample.threeScenes "16:9"%string
                                   Sample.idle 0) = Done st' /\
    isExportingFull st' = false.
Proof.
  assert (Hfi : 0 < frameInterval Sample.browser) by reflexivity.
  assert (Hne : Sample.threeScenes <> []) by discriminate.
  split; [exact Hfi|]. split; [exact Hne|].
  destruct (export_full_movie_settles Sample.browser Sample.threeScenes
              "16:9"%string Sample.idle 0 Hfi) as [_ H].
  destruct (H Hne) as (st' & Ho & Hflag & _).
  exists st'. split; assumption.
Defined.



(** *** Timing of an export *)

(** Time spent awaiting the assets of a scene: the visual's load, then,
    unless that rejected, the narration's fetch and decode. *)
Definition loadTime (env : Browser) (scene : GeneratedScene) : Q :=
  (if JS.truthy (videoUrl scene) then
     match videoUrl scene with Some url => loadDelay env url | None => 0 end
   else if JS.truthy (imageUrl scene) then
     match imageUrl scene with Some url => loadDelay env url | None => 0 end
   else 0)
  + match loadedVisual env scene with
    | Some _ =>
        if JS.truthy (audioUrl scene) then
          match audioUrl scene with Some url => loadDelay env url | None => 0 end
        else 0
    | None => 0
    end.

(** Seconds for which a scene is on screen: its visible duration when it
    is played, nothing when it is skipped. *)
Definition playedDuration (env : Browser) (scene : GeneratedScene) : Q :=
  match loadedVisual env scene, loadedAudio env scene with
  | Some (Some _), Some a => visibleDuration a
  | _, _ => 0
  end.

(** Time spent awaiting [play()] of the video of a scene that is
    played. *)
Definition playTime (env : Browser) (scene : GeneratedScene) : Q :=
  match loadedVisual env scene, loadedAudio env scene with
  | Some (Some v), Some _ =>
      if isVideo v then
        match videoUrl scene with Some url => playDelay env url | None => 0 end
      else 0
  | _, _ => 0
  end.

Definition sceneTime (env : Browser) (scene : GeneratedScene) : Q :=
  loadTime env scene + playTime env scene + 1000 * playedDuration env scene.

(** Time spent awaiting [resume()] of an audio context that starts
    suspended. *)
Definition setupTime (env : Browser) : Q :=
  if startsSuspended env then resumeDelay env else 0.

(** Time spent awaiting the recorder's [stop] event and [close()]. *)
Definition teardownTime (env : Browser) : Q := stopDelay env + closeDelay env.

Lemma loadAssets_clock (env : Browser) (scene : GeneratedScene) (t : Q) :
  clock (loadAssets env scene t) == t + loadTime env scene.
Proof.
  unfold loadAssets, loadTime, loadedVisual.
  destruct (videoUrl scene) as [[|c1 u1]|];
    destruct (imageUrl scene) as [[|c2 u2]|];
    destruct (audioUrl scene) as [[|c3 u3]|];
    cbn [JS.truthy];
    repeat match goal with
           | |- context [loadVideo env ?u] => destruct (loadVideo env u)
           | |- context [loadImage env ?u] => destruct (loadImage env u)
           | |- context [loadAudio env ?u] => destruct (loadAudio env u)
           end;
    cbn; ring.
Qed.

Lemma sceneBody_at (env : Browser) (w h : Q) (i : nat)
      (scene : GeneratedScene) (t : Q) :
  let t' := clock (loadAssets env scene t) in
  match loadedVisual env scene, loadedAudio env scene with
  | Some (Some v), Some a =>
      outcome (sceneBody env w h i scene t)
      = outcome (playScene env w h i scene v a t') /\
      clock (sceneBody env w h i scene t)
      = clock (playScene env w h i scene v a t')
  | _, _ => clock (sceneBody env w h i scene t) = t'
  end.
Proof.
  cbv zeta. destruct (loadAssets_run env scene t) as [Hl Ho].
  unfold sceneBody, tryCatch, bind.
  destruct (loadAssets env scene t) as [o c l]. cbn in Hl, Ho |- *.
  destruct (loadedVisual env scene) as [[v|]|];
    destruct (loadedAudio env scene) as [a|];
    cbn in Ho;
    lazymatch type of Ho with
    | ex _ => destruct Ho as [e Ho]
    | _ => idtac
    end; subst; cbn; try reflexivity.
  destruct (playScene env w h i scene v a c) as [o' c' l'].
  cbn. destruct o'; auto.
Qed.

Definition audibleDurations (env : Browser) : Prop :=
  forall url b, loadAudio env url = Some b -> 0 <= duration b.

Lemma loadedAudio_duration (env : Browser) (scene : GeneratedScene)
      (a : option AudioBuffer) :
  audibleDurations env -> loadedAudio env scene = Some a ->
  0.5 <= visibleDuration a.
Proof.
  intros Hd Ha. apply visibleDuration_lower. intros b ->.
  unfold loadedAudio in Ha. destruct (JS.truthy (audioUrl scene)); [|discriminate].
  destruct (audioUrl scene) as [url|]; [|discriminate].
  destruct (loadAudio env url) as [b'|] eqn:E; [|discriminate].
  cbn in Ha. inversion Ha; subst. exact (Hd _ _ E).
Qed.

Section Timing.

Variable env : Browser.
Variables w h : Q.
Hypothesis Hfi : 0 <= frameInterval env.
Hypothesis Hdur : audibleDurations env.

Lemma sceneBody_timing (i : nat) (scene : GeneratedScene) (t : Q) :
  outcome (sceneBody env w h i scene t) = Done tt ->
  t + sceneTime env scene <= clock (sceneBody env w h i scene t) /\
  clock (sceneBody env w h i scene t)
  <= t + sceneTime env scene + frameInterval env.
Proof.
  intros Hd. pose proof (sceneBody_at env w h i scene t) as H. cbv zeta in H.
  pose proof (loadAssets_clock env scene t) as Hc.
  unfold sceneTime, playedDuration, playTime.
  pose proof (loadedAudio_duration env scene) as Hvis.
  destruct (loadedVisual env scene) as [[v|]|];
    destruct (loadedAudio env scene) as [a|];
    try (rewrite H; split; lra).
  destruct H as [Ho Hk]. rewrite Ho in Hd. rewrite Hk.
  specialize (Hvis a Hdur eq_refl).
  set (t1 := clock (loadAssets env scene t)) in *.
  pose proof (playScene_run env w h i scene v a t1) as HP. cbv zeta in HP.
  destruct (playRejects env scene v).
  { destruct HP as [[e He] _]. congruence. }
  set (t' := playEnd env scene v t1) in *.
  assert (Et : t' == t1 + (if isVideo v then
                              match videoUrl scene with
                              | Some url => playDelay env url
                              | None => 0
                              end
                            else 0)).
  { unfold t', playEnd. destruct (isVideo v); [|ring].
    destruct (videoUrl scene); [reflexivity | ring]. }
  set (pt := if isVideo v then
               match videoUrl scene with
               | Some url => playDelay env url
               | None => 0
               end
             else 0) in *.
  pose proof (render_resolved env w h i scene v t' (visibleDuration a)
                (framesBound env (visibleDuration a)) t') as HR.
  destruct (outcome (render env w h i scene v t' _ _ t')) as [[]|e|];
    [destruct HP as (_ & HcP & _) | destruct HP as (Hx & _); congruence ..].
  destruct (HR eq_refl) as (e & _ & Hle & Hck & Hlt & _).
  assert (E0 : (t' - t') / 1000 == 0) by field.
  assert (He : e < visibleDuration a + frameInterval env / 1000).
  { apply Hlt; [exact Hfi|]. rewrite E0.
    assert (0 <= frameInterval env / 1000)
      by (apply Qle_shift_div_l; [reflexivity | lra]).
    lra. }
  rewrite HcP, Hck.
  assert (Hfe : frameInterval env / 1000 * 1000 == frameInterval env) by field.
  split; [lra|].
  assert (e * 1000 <= (visibleDuration a + frameInterval env / 1000) * 1000)
    by (apply Qmult_le_compat_r; lra).
  lra.
Qed.

Lemma playbackLoop_timing (scenes : list GeneratedScene) :
  forall i t,
    outcome (playbackLoop env w h i scenes t) = Done tt ->
    t + sumQ (map (sceneTime env) scenes)
    <= clock (playbackLoop env w h i scenes t) /\
    clock (playbackLoop env w h i scenes t)
    <= t + sumQ (map (sceneTime env) scenes)
       + inject_Z (Z.of_nat (List.length scenes)) * frameInterval env.
Proof.
  induction scenes as [|s rest IH]; intros i t Hd.
  - cbn [playbackLoop ret clock map List.length]. unfold sumQ.
    cbn [fold_right]. change (inject_Z (Z.of_nat 0)) with 0. split; lra.
  - cbn [playbackLoop] in Hd |- *.
    destruct (bind_done_inv _ _ _ _ Hd) as ([] & Ho & Ho' & Hc & _).
    rewrite Hc.
    destruct (sceneBody_timing i s t Ho) as [H1 H2].
    destruct (IH _ _ Ho') as [H3 H4].
    cbn [map sumQ fold_right List.length].
    fold (sumQ (map (sceneTime env) rest)).
    rewrite Nat2Z.inj_succ, <- Z.add_1_r, inject_Z_plus.
    change (inject_Z 1) with 1.
    split; lra.
Qed.

End Timing.

(** X17: an export that resolves has taken real time: counted from its
    start, the time at which it resolves is at least the time awaited for
    [resume()] of an audio context that starts suspended, plus the sum,
    over the scenes, of the time awaited for their assets and, for each
    scene played, for [play()] of its video and its visible duration, plus
    the time awaited for the recorder's [stop] event and for [close()];
    and it exceeds that by at most one frame interval per scene. *)
Theorem export_runs_in_real_time
        (env : Browser) (scenes : list GeneratedScene) (aspectRatio : string)
        (t : Q) (blob : Blob)
        (Hfi : 0 <= frameInterval env) (Hdur : audibleDurations env)
        (Hdone : outcome (generateVideo env scenes aspectRatio t) = Done blob) :
  let finished := clock (generateVideo env scenes aspectRatio t) in
  let total := setupTime env + sumQ (map (sceneTime env) scenes)
               + teardownTime env in
  t + total <= finished /\
  finished <= t + total
              + inject_Z (Z.of_nat (List.length scenes)) * frameInterval env.
Proof.
  cbv zeta.
  pose proof (generateVideo_run env scenes aspectRatio t) as H. cbv zeta in H.
  pose proof (playbackLoop_timing env (fst (getDimensions aspectRatio))
                (snd (getDimensions aspectRatio)) Hfi Hdur scenes 0
                (setupEnd env t)) as HL.
  destruct (setupError env) as [x|]; [destruct H as [H _]; congruence|].
  destruct (outcome (playbackLoop env _ _ 0 scenes _)) as [[]|e|];
    [destruct H as (_ & -> & _) | destruct H as (H & _); congruence ..].
  specialize (HL eq_refl).
  assert (Es : setupEnd env t == t + setupTime env).
  { unfold setupEnd, setupTime. destruct (startsSuspended env);
      [reflexivity | ring]. }
  unfold teardownTime. split; lra.
Qed.

(** A runtime whose audio context starts suspended and in which the
    awaited calls take time: 40 ms for [resume()], 25 ms for a video's
    [play()], 10 ms for the recorder's [stop] event and 5 ms for
    [close()]. *)
Definition slowBrowser : Browser :=
  mkBrowser true true (fun _ => true)
            (fun _ => Some (1024, 1024)) (fun _ => Some (640, 360))
            Sample.audioOf (fun _ => 0) (fun _ => true) 500 fixedPitch
            (fun _ => None) 40 (fun _ => 25) 10 5.

Lemma export_runs_in_real_time_witness :
  0 <= frameInterval slowBrowser /\
  audibleDurations slowBrowser /\
  outcome (generateVideo slowBrowser [clip] "16:9"%string 0)
  = Done (mkBlob "video/webm;codecs=vp9,opus"%string) /\
  setupTime slowBrowser + sumQ (map (sceneTime slowBrowser) [clip])
  + teardownTime slowBrowser == 2580 /\
  0 + (setupTime slowBrowser + sumQ (map (sceneTime slowBrowser) [clip])
       + teardownTime slowBrowser)
  <= clock (generateVideo slowBrowser [clip] "16:9"%string 0).
Proof.
  assert (Hfi : 0 <= frameInterval slowBrowser) by (cbn; lra).
  assert (Hdur : audibleDurations slowBrowser).
  { intros url b Hb. unfold slowBrowser in Hb. cbn in Hb.
    unfold Sample.audioOf in Hb.
    destruct url as [|c u]; [discriminate|].
    repeat match type of Hb with
           | (if ?x then _ else _) = _ => destruct x
           | (match ?x with _ => _ end) = _ => destruct x
           end;
      inversion Hb; cbn; lra. }
  assert (Hdone : outcome (generateVideo slowBrowser [clip] "16:9"%string 0)
                  = Done (mkBlob "video/webm;codecs=vp9,opus"%string))
    by (vm_compute; reflexivity).
  split; [exact Hfi|]. split; [exact Hdur|]. split; [exact Hdone|].
  split; [vm_compute; reflexivity|].
  exact (proj1 (export_runs_in_real_time slowBrowser [clip]
                  "16:9"%string 0 _ Hfi Hdur Hdone)).
Defined.

End ExportFacts.

(** * Captions: text and geometry ([drawSubtitles]) *)

Module SubtitleFacts.

(** The lines of a caption read one after the other. *)
Fixpoint joinLines (ls : list string) : string :=
  match ls with
  | [] => EmptyString
  | l :: rest => (l ++ joinLines rest)%string
  end.

Definition endsWithSpace (l : string) : Prop :=
  exists p, l = (p ++ " ")%string.

Lemma append_assoc (a b c : string) :
  ((a ++ b) ++ c = a ++ b ++ c)%string.
Proof. induction a as [|x a IH]; cbn; [reflexivity | now rewrite IH]. Qed.

Lemma append_nil_r (a : string) : (a ++ EmptyString)%string = a.
Proof. induction a as [|x a IH]; cbn; [reflexivity | now rewrite IH]. Qed.

Lemma joinLines_app (a b : list string) :
  joinLines (a ++ b) = (joinLines a ++ joinLines b)%string.
Proof.
  induction a as [|x a IH]; cbn [app joinLines]; [reflexivity|].
  now rewrite IH, append_assoc.
Qed.

(** Splitting at spaces and putting a space after every piece gives the
    text back, followed by one space. *)
Lemma split_join (s : string) :
  joinLines (map (fun w => (w ++ " ")%string) (Text.split s))
  = (s ++ " ")%string.
Proof.
  induction s as [|c s IH]; [reflexivity|].
  cbn [Text.split]. destruct (Ascii.eqb c Text.space) eqn:E.
  - apply Ascii.eqb_eq in E. subst c. cbn [map joinLines fold_right].
    rewrite IH. reflexivity.
  - destruct (Text.split s) as [|w ws] eqn:Es.
    + destruct (Text.split_nonempty s Es).
    + cbn [map joinLines fold_right] in IH |- *.
      cbn [String.append]. f_equal. exact IH.
Qed.

Section Wrapped.

Variable measureText : Q -> string -> Q.
Variables font maxW : Q.

Lemma wrapLoop_text (words : list string) :
  forall n line acc,
    joinLines (snd (wrapLoop measureText font maxW words n line acc)
                 ++ [fst (wrapLoop measureText font maxW words n line acc)])
    = (joinLines (acc ++ [line])
       ++ joinLines (map (fun w => (w ++ " ")%string) words))%string.
Proof.
  induction words as [|w rest IH]; intros n line acc.
  - cbn [wrapLoop fst snd map joinLines fold_right].
    now rewrite append_nil_r.
  - cbn [wrapLoop].
    destruct (Qgtb (measureText font (line ++ w ++ " ")) maxW && (0 <? n)%nat).
    + rewrite IH. cbn [map]. rewrite !joinLines_app.
      cbn [joinLines fold_right]. rewrite !append_nil_r, !append_assoc.
      reflexivity.
    + rewrite IH. cbn [map]. rewrite !joinLines_app.
      cbn [joinLines fold_right]. rewrite !append_nil_r, !append_assoc.
      reflexivity.
Qed.

Lemma wrapLoop_spaces (words : list string) :
  forall n line acc,
    Forall endsWithSpace acc ->
    ((0 < n)%nat -> endsWithSpace line) ->
    Forall endsWithSpace
           (snd (wrapLoop measureText font maxW words n line acc)) /\
    (words <> [] \/ (0 < n)%nat ->
     endsWithSpace (fst (wrapLoop measureText font maxW words n line acc))).
Proof.
  induction words as [|w rest IH]; intros n line acc Hacc Hline.
  - cbn [wrapLoop fst snd]. split; [exact Hacc|].
    intros [C|C]; [congruence | auto].
  - cbn [wrapLoop].
    destruct (Qgtb (measureText font (line ++ w ++ " ")) maxW) eqn:EW;
      destruct (0 <? n)%nat eqn:EN; cbn [andb].
    + apply Nat.ltb_lt in EN.
      destruct (IH (S n) (w ++ " ")%string (acc ++ [line])) as [H1 H2].
      * apply Forall_app. split; [exact Hacc|]. constructor; auto.
      * intros _. now exists w.
      * split; [exact H1 | intros _; apply H2; right; lia].
    + destruct (IH (S n) (line ++ w ++ " ")%string acc Hacc) as [H1 H2].
      * intros _. exists (line ++ w)%string. now rewrite append_assoc.
      * split; [exact H1 | intros _; apply H2; right; lia].
    + destruct (IH (S n) (line ++ w ++ " ")%string acc Hacc) as [H1 H2].
      * intros _. exists (line ++ w)%string. now rewrite append_assoc.
      * split; [exact H1 | intros _; apply H2; right; lia].
    + destruct (IH (S n) (line ++ w ++ " ")%string acc Hacc) as [H1 H2].
      * intros _. exists (line ++ w)%string. now rewrite append_assoc.
      * split; [exact H1 | intros _; apply H2; right; lia].
Qed.

Lemma wrapLoop_count (words : list string) :
  forall n line acc,
    (0 < n)%nat ->
    (List.length (snd (wrapLoop measureText font maxW words n line acc))
     <= List.length acc + List.length words)%nat.
Proof.
  induction words as [|w rest IH]; intros n line acc Hn.
  - cbn [wrapLoop snd List.length]. lia.
  - cbn [wrapLoop List.length].
    destruct (Qgtb (measureText font (line ++ w ++ " ")) maxW && (0 <? n)%nat).
    + specialize (IH (S n) (w ++ " ")%string (acc ++ [line])
                     (Nat.lt_0_succ n)).
      rewrite length_app in IH. cbn [List.length] in IH. lia.
    + specialize (IH (S n) (line ++ w ++ " ")%string acc (Nat.lt_0_succ n)).
      lia.
Qed.

Lemma wrapLoop_first_word (w : string) (rest : list string)
      (line : string) (acc : list string) :
  wrapLoop measureText font maxW (w :: rest) 0 line acc
  = wrapLoop measureText font maxW rest 1 (line ++ w ++ " ")%string acc.
Proof. cbn [wrapLoop Nat.ltb Nat.leb]. now rewrite andb_false_r. Qed.

Lemma wordWrap_eq (words : list string) :
  wordWrap measureText font maxW words
  = snd (wrapLoop measureText font maxW words 0 EmptyString [])
        ++ [fst (wrapLoop measureText font maxW words 0 EmptyString [])].
Proof.
  unfold wordWrap.
  now destruct (wrapLoop measureText font maxW words 0 EmptyString []).
Qed.

(** One step of the search for the widest line. *)
Definition keepWider (m : Q) (l : string) : Q :=
  let w := measureText font l in if Qgtb w m then w else m.

Lemma widest_fold (ls : list string) :
  widest measureText font ls = fold_left keepWider ls 0.
Proof. reflexivity. Qed.

(** The widest line is at least as wide as every line, and never
    negative. *)
Lemma widest_from (ls : list string) :
  forall m0,
    m0 <= fold_left keepWider ls m0 /\
    forall l, In l ls -> measureText font l <= fold_left keepWider ls m0.
Proof.
  induction ls as [|x ls IH]; intros m0; cbn [fold_left].
  - split; [lra | intros l []].
  - destruct (IH (keepWider m0 x)) as [H1 H2].
    assert (Hk : m0 <= keepWider m0 x /\ measureText font x <= keepWider m0 x).
    { unfold keepWider. cbv zeta.
      destruct (Qgtb (measureText font x) m0) eqn:E.
      - apply Qgtb_true in E. split; lra.
      - assert (Hle : measureText font x <= m0).
        { apply Qnot_lt_le. intros C. apply Qgtb_true in C. congruence. }
        split; lra. }
    destruct Hk as [Hk1 Hk2].
    split; [lra|]. intros l [<-|Hl]; [lra | exact (H2 l Hl)].
Qed.

Lemma widest_upper (ls : list string) (b : Q) :
  forall m0,
    m0 <= b -> Forall (fun l => measureText font l <= b) ls ->
    fold_left keepWider ls m0 <= b.
Proof.
  induction ls as [|x ls IH]; intros m0 Hm Hall; cbn [fold_left].
  - exact Hm.
  - inversion Hall as [|? ? Hx Hrest]; subst.
    apply IH; [|exact Hrest]. unfold keepWider. cbv zeta.
    destruct (Qgtb (measureText font x) m0); assumption.
Qed.

End Wrapped.

Lemma numbered_nth {A} (ls : list A) :
  forall a k,
    nth_error (combine (seq a (List.length ls)) ls) k
    = option_map (fun l => ((a + k)%nat, l)) (nth_error ls k).
Proof.
  induction ls as [|x ls IH]; intros a k.
  - destruct k; reflexivity.
  - cbn [List.length seq combine]. destruct k as [|k].
    + cbn. now rewrite Nat.add_0_r.
    + cbn [nth_error]. rewrite IH. rewrite Nat.add_succ_comm. reflexivity.
Qed.

Lemma fontSize_bounds (width : Q) :
  14 <= subtitleFont width /\
  (subtitleFont width == 14 \/ subtitleFont width <= width * 0.025).
Proof.
  unfold subtitleFont. split; [apply Q.le_max_l|].
  destruct (Q.max_spec 14 (inject_Z (Qfloor (width * 0.025)))) as [[_ ->]|[_ ->]].
  - right. apply Qfloor_le.
  - left. reflexivity.
Qed.

(** The layout computed for a caption that is not empty, field by
    field. *)
Lemma drawn_layout (measureText : Q -> string -> Q) (text : string)
      (width height : Q) (layout : SubtitleLayout) :
  drawSubtitles measureText text width height = Some layout ->
  let f := subtitleFont width in
  let ls := wordWrap measureText f (width * 0.9) (Text.split text) in
  let n := inject_Z (Z.of_nat (List.length ls)) in
  let bw := widest measureText f ls + f * 0.8 * 2 in
  let bh := n * (f * 1.4) + f * 0.4 * 2 in
  let by' := height - Qmax 20 (height * 0.03) - bh in
  text <> EmptyString /\
  fontSize layout = f /\ lineHeight layout = f * 1.4 /\
  maxWidth layout = width * 0.9 /\ lines layout = ls /\
  boxX layout = (width - bw) / 2 /\ boxY layout = by' /\
  boxWidth layout = bw /\ boxHeight layout = bh /\
  fillTexts layout
  = map (fun il : nat * string =>
           (Text.trim (snd il), width / 2,
            by' + f * 0.4 + f * 1.4 / 2
            + inject_Z (Z.of_nat (fst il)) * (f * 1.4) - f * 1.4 * 0.1))
        (combine (seq 0 (List.length ls)) ls).
Proof.
  destruct text as [|c t]; [discriminate|].
  intros H. injection H as <-. cbv zeta.
  split; [discriminate|]. repeat split; reflexivity.
Qed.

(** X18: the lines into which a caption is wrapped, read one after the
    other, are the caption followed by a single space: wrapping loses,
    adds and reorders nothing.  Every line ends in a space, there are at
    most as many lines as words, and what is painted is each line,
    trimmed, in order. *)
Theorem caption_text_preserved
        (measureText : Q -> string -> Q) (text : string) (width height : Q)
        (layout : SubtitleLayout)
        (Hdrawn : drawSubtitles measureText text width height = Some layout) :
  joinLines (lines layout) = (text ++ " ")%string /\
  Forall endsWithSpace (lines layout) /\
  (1 <= List.length (lines layout) <= List.length (Text.split text))%nat /\
  map (fun p => fst (fst p)) (fillTexts layout)
  = map Text.trim (lines layout).
Proof.
  destruct (drawn_layout _ _ _ _ _ Hdrawn)
    as (Hne' & _ & _ & _ & Hl & _ & _ & _ & _ & Hft).
  rewrite Hft, Hl. clear Hft Hl Hdrawn layout.
  set (font := subtitleFont width).
  set (maxW := width * 0.9).
  set (words := Text.split text).
  assert (Hne : words <> []) by apply Text.split_nonempty.
  rewrite wordWrap_eq.
  pose proof (wrapLoop_text measureText font maxW words 0 EmptyString [])
    as Htext.
  pose proof (wrapLoop_spaces measureText font maxW words 0 EmptyString []
                (Forall_nil _) ltac:(lia)) as [Hs1 Hs2].
  split.
  { rewrite Htext. cbn [app joinLines String.append].
    exact (split_join text). }
  split.
  { apply Forall_app. split; [exact Hs1|].
    constructor; [apply Hs2; left; exact Hne | constructor]. }
  split.
  { rewrite length_app. cbn [List.length].
    destruct words as [|w0 rest]; [congruence|].
    rewrite wrapLoop_first_word.
    pose proof (wrapLoop_count measureText font maxW rest 1
                  (EmptyString ++ w0 ++ " ")%string [] Nat.lt_0_1) as Hcount.
    cbn [List.length] in Hcount |- *. lia. }
  rewrite map_map.
  generalize (snd (wrapLoop measureText font maxW words 0 EmptyString [])
                ++ [fst (wrapLoop measureText font maxW words 0 EmptyString [])]).
  intros ls.
  generalize 0%nat. induction ls as [|l ls IH]; intros a; [reflexivity|].
  cbn [List.length seq combine map snd fst]. f_equal. apply IH.
Qed.

Lemma caption_text_preserved_witness :
  exists layout,
    drawSubtitles fixedPitch "a  long caption" 100 100 = Some layout /\
    joinLines (lines layout) = "a  long caption "%string.
Proof.
  eexists. split; [reflexivity|].
  exact (proj1 (caption_text_preserved fixedPitch "a  long caption" 100 100
                  _ eq_refl)).
Defined.

(** X19: the caption box is centred on the canvas and ends at the bottom
    margin, which is at least 20 pixels and at least 3 % of the height; the
    font is at least 14 pixels; the box is at least as wide as every line
    as measured plus the horizontal padding on both sides; and the lines
    are painted centred, one line height apart, each strictly inside the
    box. *)
Theorem caption_box_geometry
        (measureText : Q -> string -> Q) (text : string) (width height : Q)
        (layout : SubtitleLayout)
        (Hdrawn : drawSubtitles measureText text width height = Some layout) :
  14 <= fontSize layout /\
  boxX layout + boxWidth layout / 2 == width / 2 /\
  boxY layout + boxHeight layout <= height - 20 /\
  boxY layout + boxHeight layout <= height * 0.97 /\
  Forall (fun l => measureText (fontSize layout) l + 1.6 * fontSize layout
                   <= boxWidth layout) (lines layout) /\
  List.length (fillTexts layout) = List.length (lines layout) /\
  forall k s x y,
    nth_error (fillTexts layout) k = Some (s, x, y) ->
    x == width / 2 /\
    y == boxY layout + 0.4 * fontSize layout
         + (inject_Z (Z.of_nat k) + 0.4) * lineHeight layout /\
    boxY layout < y /\ y < boxY layout + boxHeight layout.
Proof.
  destruct (drawn_layout _ _ _ _ _ Hdrawn)
    as (_ & -> & -> & _ & -> & -> & -> & -> & -> & ->).
  clear Hdrawn layout.
  destruct (fontSize_bounds width) as [Hf _].
  set (f := subtitleFont width) in *.
  set (ls := wordWrap measureText f (width * 0.9) (Text.split text)).
  set (n := inject_Z (Z.of_nat (List.length ls))).
  assert (Hm20 : 20 <= Qmax 20 (height * 0.03)) by apply Q.le_max_l.
  assert (Hm3 : height * 0.03 <= Qmax 20 (height * 0.03)) by apply Q.le_max_r.
  set (margin := Qmax 20 (height * 0.03)) in *.
  split; [exact Hf|].
  split; [field|].
  split; [lra|].
  split; [lra|].
  split.
  { apply Forall_forall. intros l Hl.
    destruct (widest_from measureText f ls 0) as [_ H].
    specialize (H l Hl). rewrite widest_fold. lra. }
  split.
  { rewrite length_map, length_combine, length_seq. apply Nat.min_id. }
  intros k s x y Hk.
  rewrite nth_error_map, numbered_nth in Hk.
  destruct (nth_error ls k) as [l|] eqn:El; [|discriminate].
  cbn [option_map fst snd Nat.add] in Hk.
  injection Hk as <- <- <-.
  assert (Hlt : (k < List.length ls)%nat)
    by (apply nth_error_Some; congruence).
  assert (Hkn : inject_Z (Z.of_nat k) + 1 <= n).
  { unfold n. change 1 with (inject_Z 1). rewrite <- inject_Z_plus.
    rewrite <- Zle_Qle. lia. }
  assert (Hk0 : 0 <= inject_Z (Z.of_nat k)).
  { change 0 with (inject_Z 0). rewrite <- Zle_Qle. lia. }
  set (q := inject_Z (Z.of_nat k)) in *.
  assert (Hqf : 0 <= q * f) by (apply Qmult_le_0_compat; lra).
  assert (Hnf : (q + 1) * f <= n * f)
    by (apply Qmult_le_compat_r; lra).
  split; [reflexivity|].
  split; [field|].
  set (top := height - margin - (n * (f * 1.4) + f * 0.4 * 2)).
  assert (Hy : top + f * 0.4 + f * 1.4 / 2 + q * (f * 1.4) - f * 1.4 * 0.1
               == top + 0.96 * f + 1.4 * (q * f)) by field.
  assert (Hb : n * (f * 1.4) + f * 0.4 * 2 == 1.4 * (n * f) + 0.8 * f)
    by ring.
  assert (Hq1 : (q + 1) * f == q * f + f) by ring.
  rewrite Hy, Hb. rewrite Hq1 in Hnf.
  remember (q * f) as qf eqn:Eqf. remember (n * f) as nf eqn:Enf.
  clear Eqf Enf Hy Hb Hq1.
  split; lra.
Qed.

Lemma caption_box_geometry_witness :
  exists layout,
    drawSubtitles fixedPitch "a  long caption" 1280 720 = Some layout /\
    boxY layout + boxHeight layout <= 720 * 0.97.
Proof.
  eexists. split; [reflexivity|].
  destruct (caption_box_geometry fixedPitch "a  long caption" 1280 720
              _ eq_refl) as (_ & _ & _ & H & _).
  exact H.
Defined.

(** X20: on a canvas at least 224 pixels wide, a caption none of whose
    words, with its trailing space, measures more than 90 % of the width
    has all its lines within that width and its box between the left and
    right edges of the canvas. *)
Theorem caption_box_within_canvas
        (measureText : Q -> string -> Q) (text : string) (width height : Q)
        (layout : SubtitleLayout)
        (Hdrawn : drawSubtitles measureText text width height = Some layout)
        (Hwide : 224 <= width)
        (Hwords : forall w, In w (Text.split text) ->
                            measureText (subtitleFont width) (w ++ " ")%string
                            <= width * 0.9) :
  Forall (fun l => measureText (fontSize layout) l <= maxWidth layout)
         (lines layout) /\
  0 <= boxX layout /\
  boxX layout + boxWidth layout <= width.
Proof.
  destruct (drawn_layout _ _ _ _ _ Hdrawn)
    as (_ & -> & _ & -> & -> & -> & _ & -> & _).
  clear Hdrawn layout.
  destruct (fontSize_bounds width) as [Hf Hf'].
  set (f := subtitleFont width) in *.
  set (words := Text.split text) in *.
  set (ls := wordWrap measureText f (width * 0.9) words).
  assert (Hls : Forall (fun l => measureText f l <= width * 0.9) ls).
  { pose proof (wordWrap_lines_ok measureText f (width * 0.9) words
                  (Text.split_nonempty _)) as Hok.
    fold ls in Hok. rewrite Forall_forall in Hok |- *.
    intros l Hl. destruct (Hok l Hl) as [H|(w & Hw & ->)];
      [exact H | exact (Hwords w Hw)]. }
  split; [exact Hls|].
  assert (Hw : widest measureText f ls <= width * 0.9).
  { rewrite widest_fold. apply widest_upper; [lra | exact Hls]. }
  assert (Hw0 : 0 <= widest measureText f ls).
  { rewrite widest_fold. exact (proj1 (widest_from measureText f ls 0)). }
  assert (Hpad : f * 0.8 * 2 <= width * 0.1) by (destruct Hf'; lra).
  set (bw := widest measureText f ls + f * 0.8 * 2).
  assert (Hbw : bw <= width) by (unfold bw; lra).
  assert (Hx : (width - bw) / 2 == (width - bw) * (1 # 2)) by field.
  split.
  - rewrite Hx. lra.
  - rewrite Hx. lra.
Qed.

Lemma caption_box_within_canvas_witness :
  exists layout,
    drawSubtitles fixedPitch "a  long caption" 1280 720 = Some layout /\
    224 <= 1280 /\
    0 <= boxX layout.
Proof.
  eexists. split; [reflexivity|]. split; [lra|].
  refine (proj1 (proj2 (caption_box_within_canvas fixedPitch "a  long caption"
                          1280 720 _ eq_refl _ _))); [lra|].
  intros w Hw. vm_compute in Hw.
  decompose [or] Hw; try contradiction; subst w; vm_compute; discriminate.
Defined.

End SubtitleFacts.

(** * Preview player: what every reachable state satisfies *)

Module PlayerFacts.
Import Preview.

(** A thumbnail can only select a scene that exists. *)
Definition selectable (scenes : list GeneratedScene) (a : Action) : Prop :=
  match a with
  | SelectScene index => (0 <= index < scenesLength scenes)%Z
  | _ => True
  end.

Definition indexInRange (scenes : list GeneratedScene) (s : Player) : Prop :=
  (0 <= currentSceneIndex s < scenesLength scenes)%Z.

(** A run in which the page's answer to [play()] may change from one step
    to the next. *)
Definition runWith (scenes : list GeneratedScene)
           (steps : list (Autoplay * Action)) (s : Player) : Player :=
  fold_left (fun st p => step scenes (fst p) (snd p) st) steps s.

Lemma run_runWith (scenes : list GeneratedScene) (autoplay : Autoplay)
      (actions : list Action) :
  forall s,
    run scenes autoplay actions s
    = runWith scenes (map (pair autoplay) actions) s.
Proof.
  unfold run, runWith.
  induction actions as [|a rest IH]; intros s; [reflexivity|].
  cbn [map fold_left fst snd]. apply IH.
Qed.

(** The music plays only while the player does. *)
Definition musicSafe (paused playing : bool) : Prop :=
  paused = false -> playing = true.

(** The music is paused exactly when the player is. *)
Definition musicExact (paused playing : bool) : Prop :=
  paused = negb playing.

(** The narration plays only while the player plays a scene with audio. *)
Definition narrationSafe (paused playing attached : bool) : Prop :=
  paused = false -> playing = true /\ attached = true.

(** The narration plays exactly when the player plays a scene with
    audio. *)
Definition narrationExact (paused playing attached : bool) : Prop :=
  paused = negb (playing && attached).

Section Invariant.

Variable scenes : list GeneratedScene.

(** What is to hold of the music element's [paused] and the playing flag,
    and of the narration element's [paused], the playing flag and whether
    the listeners are attached. *)
Variable music : bool -> bool -> Prop.
Variable narration : bool -> bool -> bool -> Prop.

Hypothesis music_paused : music true false.
Hypothesis narration_paused :
  forall playing attached,
    playing && attached = false -> narration true playing attached.

(** A page whose answers to [play()] keep that up. *)
Definition keeps (autoplay : Autoplay) : Prop :=
  (forall paused,
      music (if musicStarts autoplay then false else paused) true) /\
  narration (negb (narrationStarts autoplay)) true true.

Definition musicFollows (s : Player) : Prop :=
  forall b, bgAudioRef s = Some b -> music (bgPaused b) (isPlaying s).

(** The state of the component agrees with itself: the index names a
    scene; the narration listeners are attached exactly for a scene with
    audio; a pending frame belongs to the current scene, which is playing
    and has no listeners; the music and the narration element stand to
    the playing flag as [music] and [narration] say. *)
Definition consistent (s : Player) : Prop :=
  indexInRange scenes s /\
  listening s = hasAudio scenes (currentSceneIndex s) /\
  (forall c, fallbackRafRef s = Some c ->
             capturedIndex c = currentSceneIndex s /\
             isPlaying s = true /\ listening s = false) /\
  musicFollows s /\
  narration (audioPaused s) (isPlaying s) (listening s).

Lemma playbackEffect_consistent (autoplay : Autoplay) (s : Player) :
  keeps autoplay ->
  indexInRange scenes s -> musicFollows s ->
  consistent (playbackEffect scenes autoplay s).
Proof.
  intros [_ Hn] Hi Hm. unfold playbackEffect.
  destruct (hasAudio scenes (currentSceneIndex s)) eqn:Ha;
    [|destruct (isPlaying s) eqn:Hp];
    (split; [exact Hi|]); cbn [currentSceneIndex listening fallbackRafRef
                                 isPlaying audioPaused];
    (split; [now rewrite Ha|]).
  - split; [discriminate|]. split; [exact Hm|].
    destruct (isPlaying s); [exact Hn | now apply narration_paused].
  - split; [|split; [intros b Hb; cbn [bgAudioRef isPlaying];
                     rewrite <- Hp; exact (Hm b Hb)
                    | now apply narration_paused]].
    intros c E. injection E as <-. auto.
  - split; [discriminate|].
    split; [intros b Hb; cbn [bgAudioRef isPlaying];
            rewrite <- Hp; exact (Hm b Hb)
           | now apply narration_paused].
Qed.

Lemma syncEffect_music (autoplay : Autoplay) (s : Player) :
  keeps autoplay -> musicFollows (syncEffect autoplay s).
Proof.
  intros [Hk _] b. unfold syncEffect. cbn [bgAudioRef isPlaying].
  destruct (bgAudioRef s) as [b0|]; [|discriminate].
  cbn. intros E. injection E as <-. cbn [bgPaused].
  destruct (isPlaying s); [apply Hk | exact music_paused].
Qed.

Lemma handleSceneEnd_index (index : Z) (s : Player) :
  (0 <= index < scenesLength scenes)%Z ->
  indexInRange scenes (handleSceneEnd scenes index s).
Proof.
  intros H. unfold handleSceneEnd, indexInRange.
  destruct (index <? scenesLength scenes - 1)%Z eqn:E; cbn [currentSceneIndex].
  - apply Z.ltb_lt in E. lia.
  - lia.
Qed.

(** Ending a scene leaves the music paused whenever it stops playback. *)
Lemma handleSceneEnd_music (index : Z) (s : Player) :
  musicFollows s -> musicFollows (handleSceneEnd scenes index s).
Proof.
  intros Hm b. unfold handleSceneEnd.
  destruct (index <? scenesLength scenes - 1)%Z; cbn [bgAudioRef isPlaying].
  - apply Hm.
  - destruct (bgAudioRef s); [|discriminate].
    cbn. intros E. injection E as <-. exact music_paused.
Qed.

Lemma handleSceneEnd_rest (index : Z) (s : Player) :
  listening (handleSceneEnd scenes index s) = listening s /\
  audioPaused (handleSceneEnd scenes index s) = audioPaused s /\
  fallbackRafRef (handleSceneEnd scenes index s) = fallbackRafRef s.
Proof.
  unfold handleSceneEnd.
  destruct (index <? scenesLength scenes - 1)%Z; repeat split.
Qed.

Lemma animate_cases (c : Closure) (now : Q) (s : Player) :
  (exists p a,
      animate scenes c now s
      = mkPlayer (currentSceneIndex s) (isPlaying s) p (Some a) (Some c)
                 (bgAudioRef s) (listening s) (audioPaused s)) \/
  (exists p a,
      let e := handleSceneEnd scenes (capturedIndex c)
                 (mkPlayer (currentSceneIndex s) (isPlaying s) p (Some a) None
                           (bgAudioRef s) (listening s) (audioPaused s)) in
      animate scenes c now s
      = mkPlayer (currentSceneIndex e) (isPlaying e) (progress e) None
                 None (bgAudioRef e) (listening s) (audioPaused s)).
Proof.
  unfold animate. cbv zeta. destruct (Qle_bool 100 _).
  - right. do 2 eexists.
    destruct (handleSceneEnd_rest (capturedIndex c)
                (mkPlayer (currentSceneIndex s) (isPlaying s)
                   (Qmin ((now - match fallbackStartTimeRef s with
                                 | Some a => if Qeq_bool a 0
                                             then now - capturedProgress c / 100
                                                        * FALLBACK_DURATION
                                             else a
                                 | None => now - capturedProgress c / 100
                                                 * FALLBACK_DURATION
                                 end) / FALLBACK_DURATION * 100) 100)
                   (Some match fallbackStartTimeRef s with
                         | Some a => if Qeq_bool a 0
                                     then now - capturedProgress c / 100
                                                * FALLBACK_DURATION
                                     else a
                         | None => now - capturedProgress c / 100
                                         * FALLBACK_DURATION
                         end) None
                   (bgAudioRef s) (listening s) (audioPaused s)))
      as (-> & -> & ->).
    reflexivity.
  - left. do 2 eexists. reflexivity.
Qed.

Lemma handle_index (a : Action) (s : Player) :
  consistent s -> selectable scenes a ->
  indexInRange scenes (handle scenes a s).
Proof.
  intros (Hi & _ & Hraf & _) Hsel. unfold indexInRange in Hi.
  destruct a; cbn [handle].
  - unfold togglePlay. destruct (_ =? _)%Z; exact Hi.
  - unfold skip, indexInRange. cbv zeta. cbn [currentSceneIndex].
    destruct direction;
      repeat match goal with
             | |- context [(?x <? ?y)%Z] =>
                 destruct (Z.ltb_spec x y)
             | |- context [(?x >=? ?y)%Z] =>
                 rewrite (Z.geb_leb x y); destruct (Z.leb_spec y x)
             end; lia.
  - exact Hsel.
  - destruct (listening s); [|exact Hi].
    unfold onTimeUpdate. destruct audioDuration as [d|]; [|exact Hi].
    destruct (Qeq_bool d 0); exact Hi.
  - destruct (listening s); [|exact Hi].
    apply handleSceneEnd_index. exact Hi.
  - destruct (listening s); exact Hi.
  - destruct (fallbackRafRef s) as [c|] eqn:E; [|exact Hi].
    destruct (Hraf c eq_refl) as (Hc & _).
    destruct (animate_cases c now s) as [(p & a0 & ->)|(p & a0 & H)].
    + exact Hi.
    + cbv zeta in H. rewrite H. unfold indexInRange. cbn [currentSceneIndex].
      apply handleSceneEnd_index. rewrite Hc. exact Hi.
  - destruct (_ || _); exact Hi.
Qed.

Lemma handle_music (a : Action) (s : Player) :
  consistent s ->
  isPlaying (handle scenes a s) = isPlaying s ->
  musicFollows (handle scenes a s).
Proof.
  intros (_ & _ & _ & Hm & _) Hsame.
  assert (Hkeep : bgAudioRef (handle scenes a s) = bgAudioRef s ->
                  musicFollows (handle scenes a s)).
  { intros Hb b. rewrite Hb, Hsame. apply Hm. }
  destruct a; cbn [handle] in *.
  - apply Hkeep. unfold togglePlay. destruct (_ =? _)%Z; reflexivity.
  - apply Hkeep. reflexivity.
  - apply Hkeep. reflexivity.
  - apply Hkeep. destruct (listening s); [|reflexivity].
    unfold onTimeUpdate. destruct audioDuration as [d|]; [|reflexivity].
    destruct (Qeq_bool d 0); reflexivity.
  - destruct (listening s); [|exact Hm].
    apply handleSceneEnd_music. exact Hm.
  - apply Hkeep. destruct (listening s); reflexivity.
  - destruct (fallbackRafRef s) as [c|]; [|exact Hm].
    destruct (animate_cases c now s) as [(p & a0 & H)|(p & a0 & H)].
    + apply Hkeep. rewrite H. reflexivity.
    + cbv zeta in H. rewrite H.
      pose proof (handleSceneEnd_music (capturedIndex c)
                    (mkPlayer (currentSceneIndex s) (isPlaying s) p (Some a0)
                       None (bgAudioRef s) (listening s) (audioPaused s)) Hm)
        as Hm'.
      intros b Hb. exact (Hm' b Hb).
  - apply Hkeep. destruct (_ || _); reflexivity.
Qed.

(** No handler touches the listeners or the narration element, and none
    schedules a frame that was not already pending. *)
Lemma handle_rest (a : Action) (s : Player) :
  listening (handle scenes a s) = listening s /\
  audioPaused (handle scenes a s) = audioPaused s /\
  (forall c, fallbackRafRef (handle scenes a s) = Some c ->
             fallbackRafRef s = Some c).
Proof.
  assert (Hsame : forall s', s' = s ->
            listening s' = listening s /\ audioPaused s' = audioPaused s /\
            (forall c, fallbackRafRef s' = Some c -> fallbackRafRef s = Some c))
    by (intros s' ->; auto).
  destruct a; cbn [handle].
  - unfold togglePlay. destruct (_ =? _)%Z; repeat split; cbn; auto.
  - repeat split; cbn; auto.
  - repeat split; cbn; auto.
  - destruct (listening s) eqn:El; [|apply Hsame; reflexivity].
    unfold onTimeUpdate.
    destruct audioDuration as [d|]; [|apply Hsame; reflexivity].
    destruct (Qeq_bool d 0); [apply Hsame; reflexivity|].
    repeat split; cbn; auto.
  - destruct (listening s) eqn:El; [|apply Hsame; reflexivity].
    destruct (handleSceneEnd_rest (currentSceneIndex s) s) as (-> & -> & ->).
    repeat split; cbn; auto.
  - destruct (listening s) eqn:El; [|apply Hsame; reflexivity].
    repeat split; cbn; auto.
  - destruct (fallbackRafRef s) as [c|] eqn:E; [|apply Hsame; reflexivity].
    destruct (animate_cases c now s) as [(p & a0 & ->)|(p & a0 & H)].
    + cbn [listening audioPaused fallbackRafRef]. repeat split; cbn; auto.
    + cbv zeta in H. rewrite H. cbn [listening audioPaused fallbackRafRef].
      repeat split; discriminate.
  - destruct (_ || _); [|apply Hsame; reflexivity].
    repeat split; cbn; auto.
Qed.

Lemma step_consistent (autoplay : Autoplay) (a : Action) (s : Player) :
  keeps autoplay ->
  consistent s -> selectable scenes a ->
  consistent (step scenes autoplay a s).
Proof.
  intros Hk Hc Hsel.
  pose proof (handle_index a s Hc Hsel) as Hi.
  pose proof (handle_music a s Hc) as Hm.
  destruct (handle_rest a s) as (Hl & Hp & Hr).
  unfold step. cbv zeta.
  destruct (Bool.eqb (isPlaying (handle scenes a s)) (isPlaying s)) eqn:Ep;
    cbn [negb orb].
  - apply Bool.eqb_prop in Ep.
    destruct (currentSceneIndex (handle scenes a s) =? currentSceneIndex s)%Z
      eqn:Ei; cbn [negb].
    + apply Z.eqb_eq in Ei.
      destruct Hc as (_ & Hlis & Hraf & _ & Hap).
      split; [exact Hi|]. rewrite Hl, Hp, Ei, Ep.
      split; [exact Hlis|]. split; [|split; [exact (Hm Ep) | exact Hap]].
      intros c E. exact (Hraf c (Hr c E)).
    + apply playbackEffect_consistent; [exact Hk | exact Hi | exact (Hm Ep)].
  - apply playbackEffect_consistent;
      [exact Hk | exact Hi | apply syncEffect_music; exact Hk].
Qed.

Lemma runWith_consistent (steps : list (Autoplay * Action)) :
  forall s,
    consistent s ->
    Forall (fun p => keeps (fst p) /\ selectable scenes (snd p)) steps ->
    consistent (runWith scenes steps s).
Proof.
  unfold runWith.
  induction steps as [|[autoplay a] rest IH]; intros s Hc Hall;
    cbn [fold_left].
  - exact Hc.
  - inversion Hall as [|? ? [Hk Ha] Hrest]; subst. cbn [fst snd] in *.
    apply IH; [apply step_consistent; assumption | exact Hrest].
Qed.

(** The player after mounting, its music element paused. *)
Lemma mounted_consistent (autoplay : Autoplay) (bg : option BgAudio) :
  scenes <> [] ->
  (forall b, bg = Some b -> bgPaused b = true) ->
  consistent (mounted scenes autoplay bg).
Proof.
  intros Hscenes Hbg.
  assert (Hi : indexInRange scenes (mkPlayer 0 false 0 None None bg false true)).
  { unfold indexInRange, scenesLength. cbn [currentSceneIndex].
    destruct scenes; [congruence|]. cbn [List.length]. lia. }
  assert (Hm : musicFollows (mkPlayer 0 false 0 None None bg false true)).
  { intros b Hb. cbn [bgAudioRef isPlaying] in *. rewrite (Hbg b Hb).
    exact music_paused. }
  unfold mounted, playbackEffect.
  cbn [currentSceneIndex isPlaying progress fallbackStartTimeRef bgAudioRef].
  destruct (hasAudio scenes 0) eqn:Ha;
    (split; [exact Hi|]); cbn [currentSceneIndex listening fallbackRafRef
                                 isPlaying audioPaused];
    (split; [now rewrite Ha|]);
    (split; [discriminate|]);
    (split; [exact Hm | now apply narration_paused]).
Qed.

End Invariant.

(** X21: whatever the user, the narration element and the display do
    after mounting, over a scene list that is not empty, and whatever the
    page answers to each [play()]: the index names an existing scene; the
    narration listeners are attached exactly when that scene has audio; a
    pending fallback frame belongs to the current scene, which is then
    playing and has no listeners attached, so the two clocks never run
    together; the music plays only while the player is playing; and the
    narration element plays only while the player is playing a scene with
    audio.  When the page has granted every [play()] of the music, the
    music is paused exactly when the player is; when it has granted every
    [play()] of the narration, the narration element plays exactly when
    the player is playing a scene with audio. *)
Theorem player_state_consistent
        (scenes : list GeneratedScene) (autoplay : Autoplay)
        (bg : option BgAudio) (steps : list (Autoplay * Action))
        (Hscenes : scenes <> [])
        (Hbg : forall b, bg = Some b -> bgPaused b = true)
        (Hsel : Forall (fun p => selectable scenes (snd p)) steps) :
  let s := runWith scenes steps (mounted scenes autoplay bg) in
  (0 <= currentSceneIndex s < scenesLength scenes)%Z /\
  listening s = hasAudio scenes (currentSceneIndex s) /\
  (forall c, fallbackRafRef s = Some c ->
             capturedIndex c = currentSceneIndex s /\
             isPlaying s = true /\ listening s = false) /\
  (forall b, bgAudioRef s = Some b ->
             bgPaused b = false -> isPlaying s = true) /\
  (audioPaused s = false -> isPlaying s = true /\ listening s = true) /\
  (Forall (fun p => musicStarts (fst p) = true) steps ->
   forall b, bgAudioRef s = Some b -> bgPaused b = negb (isPlaying s)) /\
  (Forall (fun p => narrationStarts (fst p) = true) steps ->
   audioPaused s = negb (isPlaying s && listening s)).
Proof.
  cbv zeta.
  assert (Hms : musicSafe true false) by (intros H; discriminate H).
  assert (Hme : musicExact true false) by reflexivity.
  assert (Hns : forall playing attached,
             playing && attached = false -> narrationSafe true playing attached)
    by (intros playing attached _ H; discriminate H).
  assert (Hne : forall playing attached,
             playing && attached = false ->
             narrationExact true playing attached)
    by (intros playing attached H; unfold narrationExact; now rewrite H).
  assert (Hsafe : consistent scenes musicSafe narrationSafe
                    (runWith scenes steps (mounted scenes autoplay bg))).
  { apply runWith_consistent; [exact Hms | exact Hns | |].
    - apply mounted_consistent; assumption.
    - apply Forall_impl with (2 := Hsel). intros [p a] Ha.
      split; [|exact Ha]. split.
      + intros paused _. reflexivity.
      + intros _. split; reflexivity. }
  destruct Hsafe as (Hi & Hl & Hr & Hm & Hn).
  split; [exact Hi|]. split; [exact Hl|]. split; [exact Hr|].
  split; [exact Hm|]. split; [exact Hn|]. split.
  - intros Hall.
    assert (Hex : consistent scenes musicExact narrationSafe
                    (runWith scenes steps (mounted scenes autoplay bg))).
    { apply runWith_consistent; [exact Hme | exact Hns | |].
      - apply mounted_consistent; assumption.
      - rewrite Forall_forall in Hsel, Hall |- *. intros [p a] Hin.
        specialize (Hsel _ Hin). specialize (Hall _ Hin).
        cbn [fst snd] in *.
        split; [|exact Hsel]. split.
        + intros paused. rewrite Hall. reflexivity.
        + intros _. split; reflexivity. }
    exact (proj1 (proj2 (proj2 (proj2 Hex)))).
  - intros Hall.
    assert (Hex : consistent scenes musicSafe narrationExact
                    (runWith scenes steps (mounted scenes autoplay bg))).
    { apply runWith_consistent; [exact Hms | exact Hne | |].
      - apply mounted_consistent; assumption.
      - rewrite Forall_forall in Hsel, Hall |- *. intros [p a] Hin.
        specialize (Hsel _ Hin). specialize (Hall _ Hin).
        cbn [fst snd] in *.
        split; [|exact Hsel]. split.
        + intros paused _. reflexivity.
        + unfold narrationExact. rewrite Hall. reflexivity. }
    exact (proj2 (proj2 (proj2 (proj2 Hex)))).
Qed.

(** Playback is started on a page that refuses the music and the
    narration; the second scene, which has narration, is selected, and
    the narration's [catch] runs; then playback is started again on a page
    that grants both. *)
Definition refusedThenGranted : list (Autoplay * Action) :=
  [(mkAutoplay false false, TogglePlay);
   (mkAutoplay false false, SelectScene 1);
   (mkAutoplay false false, PlayRejected "NotAllowedError");
   (granted, TogglePlay)].

Lemma player_state_consistent_witness :
  PreviewFacts.twoScenes <> [] /\
  Forall (fun p => selectable PreviewFacts.twoScenes (snd p))
         refusedThenGranted /\
  audioPaused (runWith PreviewFacts.twoScenes (firstn 2 refusedThenGranted)
                 (mounted PreviewFacts.twoScenes granted
                          (Some (mkBgAudio true 0)))) = true /\
  isPlaying (runWith PreviewFacts.twoScenes (firstn 2 refusedThenGranted)
               (mounted PreviewFacts.twoScenes granted
                        (Some (mkBgAudio true 0)))) = true /\
  isPlaying (runWith PreviewFacts.twoScenes (firstn 3 refusedThenGranted)
               (mounted PreviewFacts.twoScenes granted
                        (Some (mkBgAudio true 0)))) = false /\
  audioPaused (runWith PreviewFacts.twoScenes refusedThenGranted
                 (mounted PreviewFacts.twoScenes granted
                          (Some (mkBgAudio true 0)))) = false /\
  listening (runWith PreviewFacts.twoScenes refusedThenGranted
               (mounted PreviewFacts.twoScenes granted
                        (Some (mkBgAudio true 0)))) = true.
Proof.
  assert (Hne : PreviewFacts.twoScenes <> []) by discriminate.
  assert (Hsel : Forall (fun p => selectable PreviewFacts.twoScenes (snd p))
                        refusedThenGranted).
  { repeat constructor; vm_compute; discriminate. }
  assert (Hp : audioPaused
                 (runWith PreviewFacts.twoScenes refusedThenGranted
                    (mounted PreviewFacts.twoScenes granted
                             (Some (mkBgAudio true 0)))) = false)
    by reflexivity.
  split; [exact Hne|]. split; [exact Hsel|].
  split; [reflexivity|]. split; [reflexivity|]. split; [reflexivity|].
  split; [exact Hp|].
  destruct (player_state_consistent PreviewFacts.twoScenes granted
              (Some (mkBgAudio true 0)) refusedThenGranted Hne
              ltac:(intros b E; injection E as <-; reflexivity) Hsel)
    as (_ & _ & _ & _ & H & _).
  exact (proj2 (H Hp)).
Defined.

(** ** The fallback clock *)

(** A frame is pending for closure [c] and the scene's clock is anchored
    at wall-clock time [a]. *)
Definition ticking (s : Player) (c : Closure) (a : Q) : Prop :=
  fallbackRafRef s = Some c /\
  (exists a', fallbackStartTimeRef s = Some a' /\ a' == a) /\
  ~ a == 0.

(** The time at which the first frame anchors a clock that is not set. *)
Definition freshAnchor (c : Closure) (now : Q) : Q :=
  now - capturedProgress c / 100 * FALLBACK_DURATION.

(** What [handleSceneEnd] leaves of the index and the playing flag. *)
Definition afterEnd (scenes : list GeneratedScene) (index : Z)
           (playing : bool) : Z * bool :=
  if (index <? scenesLength scenes - 1)%Z then ((index + 1)%Z, playing)
  else (0%Z, false).

Section Clock.

Variable scenes : list GeneratedScene.
Variable autoplay : Autoplay.

Lemma clamp_below (x : Q) :
  x < 100 -> Qmin x 100 == x /\ Qle_bool 100 (Qmin x 100) = false.
Proof.
  intros H. assert (E : Qmin x 100 == x) by (apply Q.min_l; lra).
  split; [exact E|].
  destruct (Qle_bool 100 (Qmin x 100)) eqn:B; [|reflexivity].
  apply Qle_bool_iff in B. lra.
Qed.

Lemma clamp_above (x : Q) : 100 <= x -> Qle_bool 100 (Qmin x 100) = true.
Proof.
  intros H. apply Qle_bool_iff. apply Q.min_glb; lra.
Qed.

Lemma percent_of (now a : Q) :
  (now - a) / FALLBACK_DURATION * 100 == (now - a) / 50.
Proof. unfold FALLBACK_DURATION. field. Qed.

(** The anchor [animate] works with. *)
Definition anchorOf (c : Closure) (now : Q) (s : Player) : Q :=
  match fallbackStartTimeRef s with
  | Some a => if Qeq_bool a 0 then freshAnchor c now else a
  | None => freshAnchor c now
  end.

Lemma animate_running (c : Closure) (now : Q) (s : Player) :
  now < anchorOf c now s + 5000 ->
  animate scenes c now s
  = mkPlayer (currentSceneIndex s) (isPlaying s)
             (Qmin ((now - anchorOf c now s) / FALLBACK_DURATION * 100) 100)
             (Some (anchorOf c now s)) (Some c) (bgAudioRef s)
             (listening s) (audioPaused s) /\
  Qmin ((now - anchorOf c now s) / FALLBACK_DURATION * 100) 100
  == (now - anchorOf c now s) / 50.
Proof.
  intros Hlt. unfold animate. cbv zeta.
  fold (freshAnchor c now). fold (anchorOf c now s).
  assert (Hx : (now - anchorOf c now s) / FALLBACK_DURATION * 100 < 100).
  { rewrite percent_of. apply Qlt_shift_div_r; lra. }
  destruct (clamp_below _ Hx) as [E ->].
  split; [reflexivity|]. rewrite E. apply percent_of.
Qed.

Lemma animate_finished (c : Closure) (now : Q) (s : Player) :
  anchorOf c now s + 5000 <= now ->
  currentSceneIndex (animate scenes c now s)
  = fst (afterEnd scenes (capturedIndex c) (isPlaying s)) /\
  isPlaying (animate scenes c now s)
  = snd (afterEnd scenes (capturedIndex c) (isPlaying s)) /\
  progress (animate scenes c now s) = 0 /\
  fallbackStartTimeRef (animate scenes c now s) = None /\
  fallbackRafRef (animate scenes c now s) = None.
Proof.
  intros Hge. unfold animate. cbv zeta.
  fold (freshAnchor c now). fold (anchorOf c now s).
  assert (Hx : 100 <= (now - anchorOf c now s) / FALLBACK_DURATION * 100).
  { rewrite percent_of. apply Qle_shift_div_l; lra. }
  rewrite (clamp_above _ Hx).
  unfold handleSceneEnd, afterEnd.
  destruct (capturedIndex c <? scenesLength scenes - 1)%Z; repeat split.
Qed.

Lemma anchorOf_set (c : Closure) (now : Q) (s : Player) (a : Q) :
  ticking s c a ->
  anchorOf c now s == a /\ fallbackStartTimeRef s = Some (anchorOf c now s).
Proof.
  intros (_ & (a' & Hs & Ea) & Hnz). unfold anchorOf. rewrite Hs.
  destruct (Qeq_bool a' 0) eqn:B.
  - apply Qeq_bool_iff in B. exfalso. apply Hnz. rewrite <- Ea. exact B.
  - split; [exact Ea | reflexivity].
Qed.

Lemma anchorOf_unset (c : Closure) (now : Q) (s : Player) :
  fallbackStartTimeRef s = None -> anchorOf c now s = freshAnchor c now.
Proof. intros H. unfold anchorOf. now rewrite H. Qed.

(** A frame before the five seconds are over changes the progress only. *)
Lemma step_tick_running (c : Closure) (now : Q) (s : Player) :
  fallbackRafRef s = Some c ->
  now < anchorOf c now s + 5000 ->
  let s' := step scenes autoplay (Tick now) s in
  fallbackRafRef s' = Some c /\
  fallbackStartTimeRef s' = Some (anchorOf c now s) /\
  progress s' == (now - anchorOf c now s) / 50 /\
  currentSceneIndex s' = currentSceneIndex s /\
  isPlaying s' = isPlaying s /\
  bgAudioRef s' = bgAudioRef s /\
  listening s' = listening s /\ audioPaused s' = audioPaused s.
Proof.
  intros Hraf Hlt. cbv zeta.
  destruct (animate_running c now s Hlt) as [Ha Hp].
  unfold step. cbv zeta. cbn [handle]. rewrite Hraf, Ha.
  cbn [isPlaying currentSceneIndex]. rewrite Bool.eqb_reflx, Z.eqb_refl.
  cbn [negb orb fallbackRafRef fallbackStartTimeRef progress currentSceneIndex
         isPlaying bgAudioRef listening audioPaused].
  repeat split; try reflexivity. exact Hp.
Qed.

Lemma playbackEffect_index (s : Player) :
  currentSceneIndex (playbackEffect scenes autoplay s) = currentSceneIndex s /\
  isPlaying (playbackEffect scenes autoplay s) = isPlaying s.
Proof.
  unfold playbackEffect. destruct (hasAudio scenes _); [split; reflexivity|].
  destruct (isPlaying s); split; reflexivity.
Qed.

(** The frame at or after the five seconds ends the scene. *)
Lemma step_tick_finished (c : Closure) (now : Q) (s : Player) :
  fallbackRafRef s = Some c ->
  anchorOf c now s + 5000 <= now ->
  let s' := step scenes autoplay (Tick now) s in
  currentSceneIndex s'
  = fst (afterEnd scenes (capturedIndex c) (isPlaying s)) /\
  isPlaying s' = snd (afterEnd scenes (capturedIndex c) (isPlaying s)) /\
  progress s' = 0.
Proof.
  intros Hraf Hge. cbv zeta.
  destruct (animate_finished c now s Hge) as (Hi & Hp & Hpr & _).
  unfold step. cbv zeta. cbn [handle]. rewrite Hraf.
  set (e := animate scenes c now s) in *.
  destruct (negb (Bool.eqb (isPlaying e) (isPlaying s))); cbn [orb].
  - destruct (playbackEffect_index (syncEffect autoplay e)) as [-> ->].
    rewrite (PreviewFacts.playbackEffect_progress scenes autoplay).
    cbn [syncEffect currentSceneIndex isPlaying]. auto.
  - destruct (negb (currentSceneIndex e =? currentSceneIndex s)%Z).
    + destruct (playbackEffect_index e) as [-> ->].
      rewrite (PreviewFacts.playbackEffect_progress scenes autoplay). auto.
    + auto.
Qed.

Lemma last_cons_default {A} (l : list A) :
  forall x d, List.last (x :: l) d = List.last l x.
Proof.
  induction l as [|y l IH]; intros x d; [reflexivity|].
  change (List.last (x :: y :: l) d) with (List.last (y :: l) d).
  now rewrite !IH.
Qed.

(** Frames in a row, none of which reaches the five seconds. *)
Lemma run_ticks_running (c : Closure) (a : Q) (ticks : list Q) :
  forall s last,
    ticking s c a ->
    progress s == (last - a) / 50 ->
    Forall (fun now => now < a + 5000) ticks ->
    let s' := run scenes autoplay (map Tick ticks) s in
    ticking s' c a /\
    progress s' == (List.last ticks last - a) / 50 /\
    currentSceneIndex s' = currentSceneIndex s /\
    isPlaying s' = isPlaying s.
Proof.
  unfold run.
  induction ticks as [|now rest IH]; intros s lst Ht Hp Hall; cbv zeta.
  - cbn [map fold_left List.last]. auto.
  - inversion Hall as [|? ? Hnow Hrest]; subst.
    cbn [map fold_left].
    destruct (anchorOf_set c now s a Ht) as [Ea Hs].
    assert (Hlt : now < anchorOf c now s + 5000) by (rewrite Ea; exact Hnow).
    destruct (step_tick_running c now s (proj1 Ht) Hlt)
      as (Hr & Hst & Hpr & Hi & Hpl & _).
    cbv zeta in Hr, Hst, Hpr, Hi, Hpl.
    assert (Ht' : ticking (step scenes autoplay (Tick now) s) c a).
    { split; [exact Hr|]. split; [|exact (proj2 (proj2 Ht))].
      exists (anchorOf c now s). split; [exact Hst | exact Ea]. }
    assert (Hp' : progress (step scenes autoplay (Tick now) s) == (now - a) / 50)
      by (rewrite Hpr, Ea; reflexivity).
    destruct (IH _ now Ht' Hp' Hrest) as (H1 & H2 & H3 & H4).
    cbv zeta in H1, H2, H3, H4.
    split; [exact H1|]. split.
    + rewrite H2, last_cons_default. reflexivity.
    + split; [now rewrite H3 | now rewrite H4].
Qed.

End Clock.

(** X22: a scene on the fallback clock lasts five seconds of wall-clock
    time from the anchor its first frame sets.  While the frames come
    before that, the progress shown is the time since the anchor at 2 % per
    100 ms and nothing else changes; the first frame at or after it ends
    the scene as [handleSceneEnd] does, on to the next index with the
    playing flag kept, or from the last scene back to index 0 with
    playback stopped. *)
Theorem fallback_scene_lasts_five_seconds
        (scenes : list GeneratedScene) (autoplay : Autoplay)
        (s : Player) (c : Closure)
        (first : Q) (ticks : list Q) (final : Q)
        (Hraf : fallbackRafRef s = Some c)
        (Hunset : fallbackStartTimeRef s = None)
        (Hnz : ~ freshAnchor c first == 0)
        (Hticks : Forall (fun now => now < freshAnchor c first + 5000)
                         (first :: ticks))
        (Hfinal : freshAnchor c first + 5000 <= final) :
  let anchor := freshAnchor c first in
  let running := run scenes autoplay (map Tick (first :: ticks)) s in
  let ended := step scenes autoplay (Tick final) running in
  progress running == (List.last ticks first - anchor) / 50 /\
  fallbackRafRef running = Some c /\
  currentSceneIndex running = currentSceneIndex s /\
  isPlaying running = isPlaying s /\
  currentSceneIndex ended
  = fst (afterEnd scenes (capturedIndex c) (isPlaying s)) /\
  isPlaying ended = snd (afterEnd scenes (capturedIndex c) (isPlaying s)) /\
  progress ended = 0.
Proof.
  cbv zeta. inversion Hticks as [|? ? Hfirst Hrest]; subst.
  change (run scenes autoplay (map Tick (first :: ticks)) s)
    with (run scenes autoplay (map Tick ticks) (step scenes autoplay (Tick first) s)).
  pose proof (anchorOf_unset c first s Hunset) as Ea.
  assert (Hlt : first < anchorOf c first s + 5000) by (rewrite Ea; exact Hfirst).
  destruct (step_tick_running scenes autoplay c first s Hraf Hlt)
    as (Hr & Hst & Hpr & Hi & Hpl & _).
  cbv zeta in Hr, Hst, Hpr, Hi, Hpl. rewrite Ea in Hst, Hpr.
  set (s1 := step scenes autoplay (Tick first) s) in *.
  assert (Ht : ticking s1 c (freshAnchor c first)).
  { split; [exact Hr|]. split; [|exact Hnz].
    exists (freshAnchor c first). split; [exact Hst | reflexivity]. }
  destruct (run_ticks_running scenes autoplay c (freshAnchor c first) ticks s1 first
              Ht Hpr Hrest) as (Ht2 & Hp2 & Hi2 & Hpl2).
  cbv zeta in Ht2, Hp2, Hi2, Hpl2.
  set (s2 := run scenes autoplay (map Tick ticks) s1) in *.
  split; [exact Hp2|]. split; [exact (proj1 Ht2)|].
  split; [rewrite Hi2; exact Hi|]. split; [rewrite Hpl2; exact Hpl|].
  destruct (anchorOf_set c final s2 _ Ht2) as [Ea2 _].
  assert (Hge : anchorOf c final s2 + 5000 <= final)
    by (rewrite Ea2; exact Hfinal).
  destruct (step_tick_finished scenes autoplay c final s2 (proj1 Ht2) Hge)
    as (H1 & H2 & H3).
  cbv zeta in H1, H2, H3. rewrite Hpl2, Hpl in H1, H2. auto.
Qed.

Lemma fallback_scene_lasts_five_seconds_witness :
  let s := step PreviewFacts.silentScene granted TogglePlay
                (mounted PreviewFacts.silentScene granted None) in
  fallbackRafRef s = Some (mkClosure 0 0) /\
  fallbackStartTimeRef s = None /\
  progress (run PreviewFacts.silentScene granted
              (map Tick [1000; 2000; 3500]) s) == 50 /\
  isPlaying (step PreviewFacts.silentScene granted (Tick 6000)
               (run PreviewFacts.silentScene granted
                  (map Tick [1000; 2000; 3500]) s)) = false.
Proof.
  cbv zeta.
  set (s := step PreviewFacts.silentScene granted TogglePlay
                 (mounted PreviewFacts.silentScene granted None)).
  assert (Hraf : fallbackRafRef s = Some (mkClosure 0 0)) by reflexivity.
  assert (Hunset : fallbackStartTimeRef s = None) by reflexivity.
  assert (Hnz : ~ freshAnchor (mkClosure 0 0) 1000 == 0)
    by (vm_compute; discriminate).
  assert (Hticks : Forall (fun now => now < freshAnchor (mkClosure 0 0) 1000
                                            + 5000) [1000; 2000; 3500])
    by (repeat constructor; vm_compute; reflexivity).
  assert (Hfinal : freshAnchor (mkClosure 0 0) 1000 + 5000 <= 6000)
    by (vm_compute; discriminate).
  destruct (fallback_scene_lasts_five_seconds PreviewFacts.silentScene granted s
              (mkClosure 0 0) 1000 [2000; 3500] 6000
              Hraf Hunset Hnz Hticks Hfinal)
    as (Hp & _ & _ & _ & _ & Hpl & _).
  split; [exact Hraf|]. split; [exact Hunset|]. split.
  - rewrite Hp. vm_compute. reflexivity.
  - exact Hpl.
Defined.

(** X23: selecting another scene without narration while a scene is on
    the fallback clock does not restart the clock.  The anchor of the
    scene left stays in place, so the progress of the scene selected is
    the time since that anchor, and the scene selected ends five seconds
    after the scene left had started, on its first frame if that time has
    already passed. *)
Theorem select_scene_keeps_running_clock
        (scenes : list GeneratedScene) (autoplay : Autoplay)
        (s : Player) (c : Closure)
        (a : Q) (index : Z)
        (Hticking : ticking s c a)
        (Hplaying : isPlaying s = true)
        (Hother : index <> currentSceneIndex s)
        (Hsilent : hasAudio scenes index = false) :
  let selected := step scenes autoplay (SelectScene index) s in
  currentSceneIndex selected = index /\
  progress selected = 0 /\
  ticking selected (mkClosure (progress s) index) a /\
  (forall now, now < a + 5000 ->
               progress (step scenes autoplay (Tick now) selected) == (now - a) / 50) /\
  (forall now, a + 5000 <= now ->
               currentSceneIndex (step scenes autoplay (Tick now) selected)
               = fst (afterEnd scenes index true)).
Proof.
  cbv zeta.
  assert (E : step scenes autoplay (SelectScene index) s
              = mkPlayer index true 0 (fallbackStartTimeRef s)
                         (Some (mkClosure (progress s) index))
                         (bgAudioRef s) false true).
  { unfold step. cbv zeta. cbn [handle isPlaying currentSceneIndex].
    rewrite Hplaying. cbn [Bool.eqb negb orb].
    assert (Hne : (index =? currentSceneIndex s)%Z = false)
      by (apply Z.eqb_neq; exact Hother).
    rewrite Hne. cbn [negb]. unfold playbackEffect.
    cbn [currentSceneIndex isPlaying progress fallbackStartTimeRef
           bgAudioRef]. now rewrite Hsilent. }
  rewrite E.
  assert (Ht : ticking (mkPlayer index true 0 (fallbackStartTimeRef s)
                          (Some (mkClosure (progress s) index))
                          (bgAudioRef s) false true)
                       (mkClosure (progress s) index) a).
  { destruct Hticking as (_ & Ha & Hnz). split; [reflexivity|].
    split; [exact Ha | exact Hnz]. }
  split; [reflexivity|]. split; [reflexivity|]. split; [exact Ht|]. split.
  - intros now Hlt.
    destruct (anchorOf_set _ now _ a Ht) as [Ea _].
    destruct (step_tick_running scenes autoplay _ now _ (proj1 Ht)
                ltac:(rewrite Ea; exact Hlt)) as (_ & _ & Hp & _).
    cbv zeta in Hp. rewrite Hp, Ea. reflexivity.
  - intros now Hge.
    destruct (anchorOf_set _ now _ a Ht) as [Ea _].
    destruct (step_tick_finished scenes autoplay _ now _ (proj1 Ht)
                ltac:(rewrite Ea; exact Hge)) as (Hi & _).
    cbv zeta in Hi. exact Hi.
Qed.

Lemma select_scene_keeps_running_clock_witness :
  let scenes := [Sample.scene (Some "a.png"%string) None;
                 Sample.scene (Some "b.png"%string) None;
                 Sample.scene (Some "c.png"%string) None] in
  let s := run scenes granted [TogglePlay; Tick 1000; Tick 4000] (mounted scenes granted None) in
  ticking s (mkClosure 0 0) 1000 /\
  progress (step scenes granted (Tick 4500) (step scenes granted (SelectScene 2) s)) == 70.
Proof.
  cbv zeta.
  set (scenes := [Sample.scene (Some "a.png"%string) None;
                  Sample.scene (Some "b.png"%string) None;
                  Sample.scene (Some "c.png"%string) None]).
  set (s := run scenes granted [TogglePlay; Tick 1000; Tick 4000] (mounted scenes granted None)).
  assert (Ht : ticking s (mkClosure 0 0) 1000).
  { split; [reflexivity|]. split; [|vm_compute; discriminate].
    eexists. split; [reflexivity | vm_compute; reflexivity]. }
  split; [exact Ht|].
  destruct (select_scene_keeps_running_clock scenes granted s (mkClosure 0 0) 1000 2
              Ht eq_refl ltac:(vm_compute; discriminate) eq_refl)
    as (_ & _ & _ & Hrun & _).
  rewrite (Hrun 4500 ltac:(vm_compute; reflexivity)).
  vm_compute. reflexivity.
Defined.

(** X24: selecting a scene without narration while a scene with narration
    is shown at some progress starts the fallback clock of the scene
    selected at that progress: its first frame anchors the clock as if
    that part of the five seconds had already passed, and shows that
    progress again. *)
Theorem select_scene_carries_progress
        (scenes : list GeneratedScene) (autoplay : Autoplay)
        (s : Player) (index : Z) (now : Q)
        (Hunset : fallbackStartTimeRef s = None)
        (Hother : index <> currentSceneIndex s)
        (Hsilent : hasAudio scenes index = false)
        (Hprogress : progress s < 100) :
  let selected := step scenes autoplay (SelectScene index) s in
  let shown := step scenes autoplay (Tick now) selected in
  progress selected = 0 /\
  fallbackRafRef selected = Some (mkClosure (progress s) index) /\
  progress shown == progress s /\
  (exists a, fallbackStartTimeRef shown = Some a /\
             a == now - progress s / 100 * 5000) /\
  currentSceneIndex shown = index.
Proof.
  cbv zeta.
  assert (E : exists bg,
             step scenes autoplay (SelectScene index) s
             = mkPlayer index true 0 None
                        (Some (mkClosure (progress s) index)) bg false true).
  { unfold step. cbv zeta. cbn [handle isPlaying currentSceneIndex].
    assert (Hne : (index =? currentSceneIndex s)%Z = false)
      by (apply Z.eqb_neq; exact Hother).
    rewrite Hne. cbn [negb]. rewrite orb_true_r.
    destruct (negb (Bool.eqb true (isPlaying s)));
      unfold playbackEffect, syncEffect;
      cbn [currentSceneIndex isPlaying progress fallbackStartTimeRef
             bgAudioRef];
      rewrite Hsilent, Hunset; eexists; reflexivity. }
  destruct E as [bg E]. rewrite E.
  split; [reflexivity|]. split; [reflexivity|].
  set (c := mkClosure (progress s) index).
  set (sel := mkPlayer index true 0 None (Some c) bg false true).
  pose proof (anchorOf_unset c now sel eq_refl) as Ea.
  assert (Hfresh : freshAnchor c now == now - progress s / 100 * 5000)
    by reflexivity.
  assert (Hlt : now < anchorOf c now sel + 5000).
  { rewrite Ea, Hfresh.
    assert (progress s / 100 * 5000 == progress s * 50) by field.
    lra. }
  destruct (step_tick_running scenes autoplay c now sel eq_refl Hlt)
    as (_ & Hst & Hp & Hi & _).
  cbv zeta in Hst, Hp, Hi. rewrite Ea in Hst, Hp.
  split.
  - rewrite Hp, Hfresh. field.
  - split; [|exact Hi].
    exists (freshAnchor c now). split; [exact Hst | exact Hfresh].
Qed.

Lemma select_scene_carries_progress_witness :
  let s := run PreviewFacts.twoScenes granted
               [SelectScene 1; TimeUpdate 1.2 (Some 3)]
               (mounted PreviewFacts.twoScenes granted None) in
  progress s == 40 /\
  progress (step PreviewFacts.twoScenes granted (Tick 9000)
              (step PreviewFacts.twoScenes granted (SelectScene 0) s)) == 40.
Proof.
  cbv zeta.
  set (s := run PreviewFacts.twoScenes granted
                [SelectScene 1; TimeUpdate 1.2 (Some 3)]
                (mounted PreviewFacts.twoScenes granted None)).
  assert (Hp : progress s == 40) by (vm_compute; reflexivity).
  split; [exact Hp|].
  destruct (select_scene_carries_progress PreviewFacts.twoScenes granted s 0 9000
              eq_refl ltac:(vm_compute; discriminate) eq_refl
              ltac:(vm_compute; reflexivity))
    as (_ & _ & H & _).
  rewrite H. exact Hp.
Defined.

End PlayerFacts.

(** * From text to scenes ([handleCreateMagic]) *)

Module CreateMagic.

(** A number inside a template literal: its decimal digits. *)
Definition dec (n : nat) : string :=
  DecimalString.NilEmpty.string_of_uint (Nat.to_uint n).

(** [`scene-${idx}-${Date.now()}`] *)
Definition sceneId (idx stamp : nat) : string :=
  ("scene-" ++ dec idx ++ "-" ++ dec stamp)%string.

Record ScriptScene : Type := mkScriptScene {
  scriptNarration : string;
  scriptVisualPrompt : string
}.

(** [services/gemini.ts], [generateScript]: the client needs a key; the
    model's answer is its [text], if any, which must parse as a list of
    scenes.  [respond] is the model, whose call may reject; [parse] is
    [JSON.parse] after [cleanJson]. *)
Definition generateScript
           (apiKey : option string)
           (respond : string -> option string -> Retry.JsError + option string)
           (parse : string -> option (list ScriptScene))
           (text : string) (characterDesc : option string)
  : Retry.JsError + list ScriptScene :=
  if negb (JS.truthy apiKey) then inl (Retry.mkJsError "API Key not found")
  else
    match respond text characterDesc with
    | inl rejected => inl rejected
    | inr None => inl (Retry.mkJsError "No script generated")
    | inr (Some EmptyString) => inl (Retry.mkJsError "No script generated")
    | inr (Some rawText) =>
        match parse rawText with
        | Some script => inr script
        | None =>
            inl (Retry.mkJsError "Failed to parse script from AI response")
        end
    end.

(** [enum AppState] of [types.ts]. *)
Inductive Phase : Type :=
| IDLE | GENERATING_SCRIPT | GENERATING_ASSETS | READY | ERROR.

(** The state [handleCreateMagic] writes: [appState], [scenes],
    [errorMsg] and [notificationMsg]. *)
Record Studio : Type := mkStudio {
  appState : Phase;
  sceneList : list GeneratedScene;
  errorText : option string;
  noticeText : option string
}.

(** The [setScenes] updates of the asset loop. *)
Definition markLoading (s : GeneratedScene) : GeneratedScene :=
  mkScene (id s) (narration s) (visual_prompt s) (imageUrl s) (videoUrl s)
          (audioUrl s) loading (isRegeneratingAudio s)
          (isRegeneratingImage s) (isGeneratingVideo s).

Definition withImage (imgBase64 : string) (s : GeneratedScene)
  : GeneratedScene :=
  mkScene (id s) (narration s) (visual_prompt s) (Some imgBase64)
          (videoUrl s) (audioUrl s) (status s) (isRegeneratingAudio s)
          (isRegeneratingImage s) (isGeneratingVideo s).

Definition completedWith (audioBase64 : string) (s : GeneratedScene)
  : GeneratedScene :=
  mkScene (id s) (narration s) (visual_prompt s) (imageUrl s) (videoUrl s)
          (Some audioBase64) completed (isRegeneratingAudio s)
          (isRegeneratingImage s) (isGeneratingVideo s).

Definition markError (s : GeneratedScene) : GeneratedScene :=
  mkScene (id s) (narration s) (visual_prompt s) (imageUrl s) (videoUrl s)
          (audioUrl s) error (isRegeneratingAudio s)
          (isRegeneratingImage s) (isGeneratingVideo s).

Definition friendlyKeyMessage : string :=
  "API Key not found. Please click the 'API Key' button in the top right to select your key.".

Section Handler.

(** [Date.now()] as read while scene [idx] of the script is mapped. *)
Variable stamp : nat -> nat.

(** What the successive calls of the three services give: of the script
    service, and of the image and speech services for the scene at an
    index. *)
Variable scriptCalls : nat -> Retry.JsError + list ScriptScene.
Variables imageCalls speechCalls : nat -> nat -> Retry.JsError + string.

(** [scriptScenes.map((s, idx) => ({ ...s, id, status: 'pending' }))]
    from index [idx] on. *)
Fixpoint initialScenes (idx : nat) (script : list ScriptScene)
  : list GeneratedScene :=
  match script with
  | [] => []
  | sc :: rest =>
      mkScene (sceneId idx (stamp idx)) (scriptNarration sc)
              (scriptVisualPrompt sc) None None None pending false false false
        :: initialScenes (S idx) rest
  end.

(** One iteration of the asset loop, for [scene = initialScenes[i]]: its
    [try] block and the [catch] that marks the scene as failed. *)
Definition generateAssets (i : nat) (scene : GeneratedScene)
           (scenes : list GeneratedScene) : list GeneratedScene :=
  let update := AppHandlers.updateById (id scene) in
  let started := update markLoading scenes in
  match Retry.result (Retry.retryOperation (imageCalls i) 5 4000) with
  | inr imgBase64 =>
      let painted := update (withImage imgBase64) started in
      match Retry.result (Retry.retryOperation (speechCalls i) 5 4000) with
      | inr audioBase64 => update (completedWith audioBase64) painted
      | inl _ => update markError painted
      end
  | inl _ => update markError started
  end.

(** [for (let i = 0; i < initialScenes.length; i++)] from [i] on. *)
Fixpoint assetLoop (todo : list GeneratedScene) (i : nat)
         (scenes : list GeneratedScene) : list GeneratedScene :=
  match todo with
  | [] => scenes
  | scene :: rest => assetLoop rest (S i) (generateAssets i scene scenes)
  end.

(** [handleCreateMagic].  The API-key prompt at its start and the timers
    between its steps leave this state alone and are left out, and so are
    the [currentTask] and [progress] a scene shows while it is made. *)
Definition handleCreateMagic (inputText : string) (st : Studio) : Studio :=
  match Text.trim inputText with
  | EmptyString => st
  | _ =>
      match Retry.result (Retry.retryOperation scriptCalls 5 4000) with
      | inr scriptScenes =>
          let initial := initialScenes 0 scriptScenes in
          mkStudio READY (assetLoop initial 0 initial) None None
      | inl err =>
          let msg := match Retry.message err with
                     | EmptyString =>
                         "Something went wrong during generation."%string
                     | m => m
                     end in
          let msg := if JSString.includes "API Key" msg
                     then friendlyKeyMessage else msg in
          mkStudio ERROR (sceneList st) (Some msg) None
      end
  end.

(** What the loop makes of the scene at index [i]. *)
Definition finished (i : nat) (s : GeneratedScene) : GeneratedScene :=
  match Retry.result (Retry.retryOperation (imageCalls i) 5 4000) with
  | inr imgBase64 =>
      match Retry.result (Retry.retryOperation (speechCalls i) 5 4000) with
      | inr audioBase64 =>
          completedWith audioBase64 (withImage imgBase64 (markLoading s))
      | inl _ => markError (withImage imgBase64 (markLoading s))
      end
  | inl _ => markError (markLoading s)
  end.

Fixpoint finishedFrom (i : nat) (todo : list GeneratedScene)
  : list GeneratedScene :=
  match todo with
  | [] => []
  | s :: rest => finished i s :: finishedFrom (S i) rest
  end.

End Handler.

(** ** Identifiers are distinct *)

Definition isDigit (c : ascii) : bool :=
  let n := nat_of_ascii c in ((48 <=? n) && (n <=? 57))%nat.

Fixpoint allDigits (s : string) : bool :=
  match s with
  | EmptyString => true
  | String c s' => isDigit c && allDigits s'
  end.

Lemma string_of_uint_digits (d : Decimal.uint) :
  allDigits (DecimalString.NilEmpty.string_of_uint d) = true.
Proof. induction d; cbn; auto. Qed.

Lemma dec_inj (n m : nat) : dec n = dec m -> n = m.
Proof.
  unfold dec. intros H. apply DecimalNat.Unsigned.to_uint_inj.
  assert (E : Some (Nat.to_uint n) = Some (Nat.to_uint m)).
  { rewrite <- !DecimalString.NilEmpty.usu. now rewrite H. }
  now injection E.
Qed.

(** Two digit strings followed by a dash and more text are equal when
    the texts are. *)
Lemma digits_before_dash (a : string) :
  forall b x y,
    allDigits a = true -> allDigits b = true ->
    (a ++ "-" ++ x)%string = (b ++ "-" ++ y)%string -> a = b.
Proof.
  induction a as [|c a IH]; intros [|c' b] x y Ha Hb H; cbn in *.
  - reflexivity.
  - injection H as Hc _. subst c'. discriminate Hb.
  - injection H as Hc _. subst c. discriminate Ha.
  - injection H as Hc Hrest. subst c'.
    apply andb_true_iff in Ha, Hb. f_equal.
    apply (IH b x y); tauto.
Qed.

Lemma sceneId_inj (i j a b : nat) : sceneId i a = sceneId j b -> i = j.
Proof.
  unfold sceneId. intros H. cbn [String.append] in H.
  injection H as H. apply dec_inj.
  apply (digits_before_dash _ _ (dec a) (dec b));
    [apply string_of_uint_digits | apply string_of_uint_digits | exact H].
Qed.

Section Facts.

Variable stamp : nat -> nat.
Variables imageCalls speechCalls : nat -> nat -> Retry.JsError + string.

Lemma initialScenes_ids (script : list ScriptScene) :
  forall idx s,
    In s (initialScenes stamp idx script) ->
    exists j, (idx <= j)%nat /\ id s = sceneId j (stamp j).
Proof.
  induction script as [|sc rest IH]; intros idx s Hin; [destruct Hin|].
  destruct Hin as [<-|Hin].
  - exists idx. split; [lia | reflexivity].
  - destruct (IH _ _ Hin) as (j & Hj & E). exists j. split; [lia | exact E].
Qed.

Lemma initialScenes_NoDup (script : list ScriptScene) :
  forall idx, NoDup (map id (initialScenes stamp idx script)).
Proof.
  induction script as [|sc rest IH]; intros idx; cbn [initialScenes map].
  - constructor.
  - constructor; [|apply IH].
    cbn [id]. intros Hin. apply in_map_iff in Hin.
    destruct Hin as (s & E & Hs).
    destruct (initialScenes_ids rest _ _ Hs) as (j & Hj & Ej).
    rewrite Ej in E. apply sceneId_inj in E. lia.
Qed.

Lemma initialScenes_length (script : list ScriptScene) :
  forall idx, List.length (initialScenes stamp idx script) = List.length script.
Proof.
  induction script as [|sc rest IH]; intros idx; [reflexivity|].
  cbn [initialScenes List.length]. now rewrite IH.
Qed.

Lemma initialScenes_nth (script : list ScriptScene) :
  forall idx i,
    nth_error (initialScenes stamp idx script) i
    = option_map
        (fun sc => mkScene (sceneId (idx + i) (stamp (idx + i)))
                           (scriptNarration sc) (scriptVisualPrompt sc)
                           None None None pending false false false)
        (nth_error script i).
Proof.
  induction script as [|sc rest IH]; intros idx i.
  - destruct i; reflexivity.
  - destruct i as [|i]; cbn [initialScenes nth_error option_map].
    + now rewrite Nat.add_0_r.
    + rewrite IH. now rewrite Nat.add_succ_comm.
Qed.

Lemma updateById_absent (sceneId' : string)
      (f : GeneratedScene -> GeneratedScene) (l : list GeneratedScene) :
  ~ In sceneId' (map id l) -> AppHandlers.updateById sceneId' f l = l.
Proof.
  induction l as [|s l IH]; intros Hn; [reflexivity|].
  unfold AppHandlers.updateById in *. cbn [map] in *.
  destruct (String.eqb (id s) sceneId') eqn:E.
  - apply String.eqb_eq in E. exfalso. apply Hn. left. exact E.
  - f_equal. apply IH. intros H. apply Hn. right. exact H.
Qed.

(** With distinct identifiers an update by identifier changes the one
    scene. *)
Lemma updateById_here (f : GeneratedScene -> GeneratedScene)
      (before : list GeneratedScene) (s : GeneratedScene)
      (after : list GeneratedScene) :
  NoDup (map id (before ++ s :: after)) ->
  AppHandlers.updateById (id s) f (before ++ s :: after)
  = before ++ f s :: after.
Proof.
  intros Hnd. rewrite map_app in Hnd. cbn [map] in Hnd.
  pose proof (NoDup_remove_2 _ _ _ Hnd) as Hnot.
  unfold AppHandlers.updateById. rewrite map_app. cbn [map].
  rewrite String.eqb_refl.
  fold (AppHandlers.updateById (id s) f before).
  fold (AppHandlers.updateById (id s) f after).
  rewrite !updateById_absent; [reflexivity | |];
    intros H; apply Hnot; apply in_or_app; auto.
Qed.

Lemma generateAssets_here (i : nat) (before : list GeneratedScene)
      (s : GeneratedScene) (after : list GeneratedScene) :
  NoDup (map id (before ++ s :: after)) ->
  generateAssets imageCalls speechCalls i s (before ++ s :: after)
  = before ++ finished imageCalls speechCalls i s :: after.
Proof.
  intros Hnd. unfold generateAssets, finished. cbv zeta.
  assert (Hstep : forall f g s0,
             id s0 = id s ->
             id (f s0) = id s ->
             AppHandlers.updateById (id s) g (before ++ f s0 :: after)
             = before ++ g (f s0) :: after).
  { intros f g s0 E0 E1. rewrite <- E1. apply updateById_here.
    rewrite map_app in *. cbn [map] in *. now rewrite E1. }
  rewrite (updateById_here markLoading _ _ _ Hnd).
  destruct (Retry.result (Retry.retryOperation (imageCalls i) 5 4000)).
  - exact (Hstep markLoading markError s eq_refl eq_refl).
  - rewrite (Hstep markLoading (withImage s0) s eq_refl eq_refl).
    destruct (Retry.result (Retry.retryOperation (speechCalls i) 5 4000)).
    + exact (Hstep (fun x => withImage s0 (markLoading x)) markError s
                   eq_refl eq_refl).
    + exact (Hstep (fun x => withImage s0 (markLoading x)) (completedWith s1)
                   s eq_refl eq_refl).
Qed.

Lemma finished_id (i : nat) (s : GeneratedScene) :
  id (finished imageCalls speechCalls i s) = id s.
Proof.
  unfold finished.
  destruct (Retry.result _); [reflexivity|].
  destruct (Retry.result _); reflexivity.
Qed.

Lemma assetLoop_all (todo : list GeneratedScene) :
  forall i before,
    NoDup (map id (before ++ todo)) ->
    assetLoop imageCalls speechCalls todo i (before ++ todo)
    = before ++ finishedFrom imageCalls speechCalls i todo.
Proof.
  induction todo as [|s rest IH]; intros i before Hnd;
    cbn [assetLoop finishedFrom]; [reflexivity|].
  rewrite (generateAssets_here i before s rest Hnd).
  change (before ++ finished imageCalls speechCalls i s :: rest)
    with (before ++ [finished imageCalls speechCalls i s] ++ rest).
  rewrite app_assoc, IH.
  - now rewrite <- app_assoc.
  - rewrite <- app_assoc. cbn [app].
    rewrite map_app in *. cbn [map] in *. now rewrite finished_id.
Qed.

Lemma finishedFrom_nth (todo : list GeneratedScene) :
  forall i k,
    nth_error (finishedFrom imageCalls speechCalls i todo) k
    = option_map (finished imageCalls speechCalls (i + k)) (nth_error todo k).
Proof.
  induction todo as [|s rest IH]; intros i k.
  - destruct k; reflexivity.
  - destruct k as [|k]; cbn [finishedFrom nth_error option_map].
    + now rewrite Nat.add_0_r.
    + rewrite IH. now rewrite Nat.add_succ_comm.
Qed.

End Facts.

(** How generating the assets of a scene ended: with image and audio,
    with the image only, or with nothing. *)
Definition assetsOf (imageCalls speechCalls : nat -> Retry.JsError + string)
  : option string * option string :=
  match Retry.result (Retry.retryOperation imageCalls 5 4000) with
  | inr img =>
      match Retry.result (Retry.retryOperation speechCalls 5 4000) with
      | inr aud => (Some img, Some aud)
      | inl _ => (Some img, None)
      end
  | inl _ => (None, None)
  end.

(** X25: once the script service has answered, [handleCreateMagic] ends
    in the ready state with one scene per script scene, in script order,
    carrying that scene's texts and an identifier of its own.  Each scene
    is settled by its own two services alone: completed, with the image
    and the audio, when both succeeded after their retries, and otherwise
    marked as failed, keeping the image when only the speech failed; the
    speech service is not what decides a scene whose image failed, and a
    failed scene does not stop the ones after it.  Only completed scenes
    are ready for export. *)
Theorem create_magic_settles_each_scene
        (stamp : nat -> nat)
        (scriptCalls : nat -> Retry.JsError + list ScriptScene)
        (imageCalls speechCalls : nat -> nat -> Retry.JsError + string)
        (inputText : string) (st : Studio) (script : list ScriptScene)
        (Hinput : Text.trim inputText <> EmptyString)
        (Hscript : Retry.result (Retry.retryOperation scriptCalls 5 4000)
                   = inr script) :
  let st' := handleCreateMagic stamp scriptCalls imageCalls speechCalls
                               inputText st in
  appState st' = READY /\ errorText st' = None /\
  List.length (sceneList st') = List.length script /\
  NoDup (map id (sceneList st')) /\
  forall i sc,
    nth_error script i = Some sc ->
    exists s,
      nth_error (sceneList st') i = Some s /\
      id s = sceneId i (stamp i) /\
      narration s = scriptNarration sc /\
      visual_prompt s = scriptVisualPrompt sc /\
      videoUrl s = None /\
      (imageUrl s, audioUrl s) = assetsOf (imageCalls i) (speechCalls i) /\
      (status s = completed <-> exists aud, audioUrl s = Some aud) /\
      (status s = completed \/ status s = error) /\
      (isReady s = true -> status s = completed).
Proof.
  cbv zeta. unfold handleCreateMagic.
  destruct (Text.trim inputText) as [|c t] eqn:Et; [congruence|].
  rewrite Hscript. cbn [appState errorText sceneList].
  pose proof (assetLoop_all imageCalls speechCalls
                (initialScenes stamp 0 script) 0 []
                (initialScenes_NoDup stamp script 0)) as Hloop.
  cbn [app] in Hloop. rewrite Hloop. clear Hloop.
  split; [reflexivity|]. split; [reflexivity|].
  assert (Hnth : forall i,
             nth_error (finishedFrom imageCalls speechCalls 0
                          (initialScenes stamp 0 script)) i
             = option_map
                 (fun sc =>
                    finished imageCalls speechCalls i
                      (mkScene (sceneId i (stamp i)) (scriptNarration sc)
                               (scriptVisualPrompt sc) None None None pending
                               false false false))
                 (nth_error script i)).
  { intros i. rewrite finishedFrom_nth, initialScenes_nth. cbn [Nat.add].
    destruct (nth_error script i); reflexivity. }
  assert (Hids : map id (finishedFrom imageCalls speechCalls 0
                           (initialScenes stamp 0 script))
                 = map id (initialScenes stamp 0 script)).
  { generalize 0%nat at 1. generalize (initialScenes stamp 0 script).
    induction l as [|s l IH]; intros k; [reflexivity|].
    cbn [finishedFrom map]. now rewrite finished_id, IH. }
  split.
  { rewrite <- (length_map id), Hids, length_map.
    apply initialScenes_length. }
  split; [rewrite Hids; apply initialScenes_NoDup|].
  intros i sc Hsc. rewrite Hnth, Hsc. cbn [option_map].
  eexists. split; [reflexivity|].
  unfold finished, assetsOf.
  destruct (Retry.result (Retry.retryOperation (imageCalls i) 5 4000))
    as [e1|img];
    [|destruct (Retry.result (Retry.retryOperation (speechCalls i) 5 4000))
        as [e2|aud]];
    cbn [id narration visual_prompt videoUrl imageUrl audioUrl status
            completedWith withImage markLoading markError];
    (split; [reflexivity|]); (split; [reflexivity|]);
    (split; [reflexivity|]); (split; [reflexivity|]);
    (split; [reflexivity|]).
  - split; [split; [discriminate | intros [aud' H]; discriminate H]|].
    split; [right; reflexivity|].
    unfold isReady. cbn [imageUrl videoUrl audioUrl JS.truthy].
    rewrite andb_false_r. discriminate.
  - split; [split; [discriminate | intros [aud' H]; discriminate H]|].
    split; [right; reflexivity|].
    unfold isReady. cbn [imageUrl videoUrl audioUrl].
    change (JS.truthy (@None string)) with false.
    rewrite andb_false_r. discriminate.
  - split; [split; [intros _; eexists; reflexivity | reflexivity]|].
    split; [left; reflexivity | reflexivity].
Qed.

(** A story of two scenes; the speech service fails for the first. *)
Definition twoLines : list ScriptScene :=
  [mkScriptScene "Once upon a time" "a castle";
   mkScriptScene "The end" "a sunset"].

Definition mute (i k : nat) : Retry.JsError + string :=
  match i with
  | O => inl (Retry.mkJsError "Speech Gen Error: offline")
  | _ => inr "blob:voice"%string
  end.

Definition idleStudio : Studio := mkStudio IDLE [] None None.

Lemma create_magic_settles_each_scene_witness :
  Text.trim "A tale" <> EmptyString /\
  map status
      (sceneList (handleCreateMagic (fun _ => 17%nat) (fun _ => inr twoLines)
                    (fun _ _ => inr "data:image/png;base64,AA"%string) mute
                    "A tale" idleStudio))
  = [error; completed] /\
  exists s,
    nth_error
      (sceneList (handleCreateMagic (fun _ => 17%nat) (fun _ => inr twoLines)
                    (fun _ _ => inr "data:image/png;base64,AA"%string) mute
                    "A tale" idleStudio)) 1 = Some s /\
    id s = "scene-1-17"%string.
Proof.
  assert (Hin : Text.trim "A tale" <> EmptyString) by (vm_compute; discriminate).
  split; [exact Hin|]. split; [vm_compute; reflexivity|].
  destruct (create_magic_settles_each_scene
              (fun _ => 17%nat) (fun _ => inr twoLines)
              (fun _ _ => inr "data:image/png;base64,AA"%string) mute
              "A tale" idleStudio twoLines Hin eq_refl)
    as (_ & _ & _ & _ & H).
  destruct (H 1%nat (mkScriptScene "The end" "a sunset") eq_refl)
    as (s & Hs & Hid & _).
  exists s. split; [exact Hs | exact Hid].
Defined.

(** The waits of an operation that fails six times without meeting a rate
    limit. *)
Lemma six_failures_wait {A : Type} (operation : nat -> Retry.JsError + A)
      (e : Retry.JsError) :
  (forall k, operation k = inl e) -> Retry.isRateLimit e = false ->
  Retry.result (Retry.retryOperation operation 5 4000) = inl e /\
  Retry.calls (Retry.retryOperation operation 5 4000) = 6%nat /\
  Forall2 Qeq (Retry.waits (Retry.retryOperation operation 5 4000))
          [4000; 8000; 16000; 32000; 64000].
Proof.
  intros Hop Hrl. unfold Retry.retryOperation.
  cbn [Retry.retryFrom]. rewrite !Hop, !Hrl.
  cbn [Retry.result Retry.calls Retry.waits].
  split; [reflexivity|]. split; [reflexivity|].
  repeat constructor; vm_compute; reflexivity.
Qed.

(** X26: without an API key every call of the script service fails with
    the missing-key error, which is no rate-limit error; [handleCreateMagic]
    then calls the service six times, waiting 4, 8, 16, 32 and 64 seconds
    between the calls, before it ends in the error state with the message
    that asks for a key, and it leaves the scenes as they were. *)
Theorem create_magic_without_key
        (stamp : nat -> nat)
        (respond : nat -> string -> option string
                   -> Retry.JsError + option string)
        (parse : string -> option (list ScriptScene))
        (imageCalls speechCalls : nat -> nat -> Retry.JsError + string)
        (apiKey : option string) (inputText : string)
        (characterDesc : option string) (st : Studio)
        (Hinput : Text.trim inputText <> EmptyString)
        (Hkey : JS.truthy apiKey = false) :
  let scriptCalls :=
    fun k => generateScript apiKey (respond k) parse inputText characterDesc in
  let st' := handleCreateMagic stamp scriptCalls imageCalls speechCalls
                               inputText st in
  Retry.calls (Retry.retryOperation scriptCalls 5 4000) = 6%nat /\
  Forall2 Qeq (Retry.waits (Retry.retryOperation scriptCalls 5 4000))
          [4000; 8000; 16000; 32000; 64000] /\
  appState st' = ERROR /\
  errorText st' = Some friendlyKeyMessage /\
  sceneList st' = sceneList st.
Proof.
  cbv zeta.
  set (scriptCalls := fun k => generateScript apiKey (respond k) parse
                                              inputText characterDesc).
  destruct (six_failures_wait scriptCalls
              (Retry.mkJsError "API Key not found")) as (Hr & Hc & Hw).
  { intros k. unfold scriptCalls, generateScript. now rewrite Hkey. }
  { reflexivity. }
  split; [exact Hc|]. split; [exact Hw|].
  unfold handleCreateMagic.
  destruct (Text.trim inputText) as [|c t] eqn:Et; [congruence|].
  rewrite Hr. cbn. repeat split.
Qed.

Lemma create_magic_without_key_witness :
  Text.trim "A tale" <> EmptyString /\
  JS.truthy (@None string) = false /\
  appState
    (handleCreateMagic (fun _ => 17%nat)
       (fun k => generateScript None (fun _ _ => inr (Some "[]"%string))
                                (fun _ => Some twoLines) "A tale" None)
       (fun _ _ => inr "data:image/png;base64,AA"%string) mute
       "A tale" idleStudio) = ERROR.
Proof.
  assert (Hin : Text.trim "A tale" <> EmptyString) by (vm_compute; discriminate).
  assert (Hk : JS.truthy (@None string) = false) by reflexivity.
  split; [exact Hin|]. split; [exact Hk|].
  exact (proj1 (proj2 (proj2
           (create_magic_without_key (fun _ => 17%nat)
              (fun _ _ _ => inr (Some "[]"%string)) (fun _ => Some twoLines)
              (fun _ _ => inr "data:image/png;base64,AA"%string) mute
              None "A tale" None idleStudio Hin Hk)))).
Defined.

End CreateMagic.

(** * Downloading one scene ([handleDownloadScene]) *)

Module SceneDownload.

(** The anchor element clicked by the fallback. *)
Record Link : Type := mkLink { href : string; download : string }.

(** [`storyreel-scene-${index + 1}`] *)
Definition sceneFile (index : nat) : string :=
  ("storyreel-scene-" ++ CreateMagic.dec (index + 1))%string.

(** The [catch] block: the scene's own video, else its image, else
    nothing. *)
Definition fallbackLink (scene : GeneratedScene) (index : nat) : option Link :=
  if JS.truthy (videoUrl scene) then
    option_map (fun url => mkLink url (sceneFile index ++ ".mp4"))
               (videoUrl scene)
  else if JS.truthy (imageUrl scene) then
    option_map (fun url => mkLink url (sceneFile index ++ ".png"))
               (imageUrl scene)
  else None.

(** [handleDownloadScene(scene, index)]; the result is the link clicked
    by the fallback, if any. *)
Definition handleDownloadScene (env : Browser) (scene : GeneratedScene)
           (index : nat) (selectedRatio : string) : M (option Link) :=
  tryCatch
    (blob <- generateVideo env [scene] selectedRatio ;;
     emit (BlobDownloaded blob
             (sceneFile index ++ "." ++ extensionOf blob)%string) ;;
     ret None)
    (fun _ =>
       emit (ConsoleError "Download failed") ;;
       ret (fallbackLink scene index)).

Lemma single_scene_loop (env : Browser) (w h : Q) (scene : GeneratedScene)
      (t : Q) :
  playbackLoop env w h 0 [scene] t = sceneBody env w h 0 scene t.
Proof.
  cbn [playbackLoop].
  destruct (outcome (sceneBody env w h 0 scene t)) as [[]|e|] eqn:E.
  - rewrite (bind_done _ _ _ _ E). cbn [ret outcome clock log].
    rewrite app_nil_r, <- E. apply run_eta.
  - rewrite (bind_threw _ _ _ _ E). rewrite <- E. apply run_eta.
  - rewrite (bind_diverged _ _ _ E). rewrite <- E. apply run_eta.
Qed.

(** X27: with a positive frame interval [handleDownloadScene] always
    settles.  When the export of the one scene resolves, its blob is
    downloaded under the scene's number and nothing else is done; the
    fallback, a console error and a link to the scene's own video or
    image, is reached only when the export rejects, which takes an error
    in its setup (a missing canvas context, a refused call on the audio
    context, the streams or the recorder, or a container the runtime does
    not support), with which it then rejects, or a video whose [play()]
    rejects.  A scene whose assets fail to load does not reach it: when
    the setup meets no error its export resolves, without a single frame
    drawn, and that recording is what is downloaded. *)
Theorem scene_download_outcomes
        (env : Browser) (scene : GeneratedScene) (index : nat)
        (selectedRatio : string) (t : Q)
        (Hfi : 0 < frameInterval env) :
  let r := handleDownloadScene env scene index selectedRatio t in
  let G := generateVideo env [scene] selectedRatio t in
  (exists link,
      outcome r = Done link /\
      ((exists blob,
           outcome G = Done blob /\ link = None /\
           log r = log G ++ [BlobDownloaded blob
                               (sceneFile index ++ "." ++ extensionOf blob)])
       \/
       (exists e,
           outcome G = Threw e /\ link = fallbackLink scene index /\
           log r = log G ++ [ConsoleError "Download failed"] /\
           (setupError env = Some e \/
            setupError env = None /\
            exists v, loadedVisual env scene = Some (Some v) /\
                      playRejects env scene v = true)))) /\
  (forall e, setupError env = Some e -> outcome G = Threw e) /\
  (setupError env = None ->
   loadedVisual env scene = None \/ loadedAudio env scene = None ->
   (exists blob, outcome G = Done blob) /\
   forall i rect, ~ In (DrawImage i rect) (log G)).
Proof.
  cbv zeta.
  set (G := generateVideo env [scene] selectedRatio).
  pose proof (ExportFacts.generateVideo_settles env Hfi [scene]
                selectedRatio t) as Hset.
  pose proof (generateVideo_run env [scene] selectedRatio t) as Hrun.
  cbv zeta in Hrun. rewrite single_scene_loop in Hrun. fold G in Hset, Hrun.
  set (w := fst (getDimensions selectedRatio)) in *.
  set (h := snd (getDimensions selectedRatio)) in *.
  set (t0 := setupEnd env t) in *.
  split; [|split].
  - unfold handleDownloadScene.
    set (handler := fun _ : string =>
                      emit (ConsoleError "Download failed") ;;
                      ret (fallbackLink scene index)).
    match goal with
    | |- context [tryCatch ?m handler] => set (body := m)
    end.
    destruct (outcome (G t)) as [blob|e|] eqn:Eo; [| |destruct (Hset eq_refl)].
    + assert (Hb : body t =
                   mkRun (Done None) (clock (G t))
                         (log (G t)
                            ++ [BlobDownloaded blob
                                  (sceneFile index ++ "." ++ extensionOf blob)])).
      { unfold body. rewrite (bind_done G _ t blob Eo). step_run.
        cbn [ret outcome clock log app]. reflexivity. }
      rewrite (ExportFacts.tryCatch_done body handler t _ (f_equal outcome Hb)),
        Hb.
      cbn [outcome log]. exists None. split; [reflexivity|].
      left. exists blob. repeat split.
    + assert (Hb : body t = mkRun (Threw e) (clock (G t)) (log (G t))).
      { unfold body. now rewrite (bind_threw G _ t e Eo). }
      rewrite (ExportFacts.tryCatch_threw body handler t e
                 (f_equal outcome Hb)), Hb.
      unfold handler. cbn [clock log]. step_run.
      cbn [ret outcome clock log app].
      exists (fallbackLink scene index). split; [reflexivity|].
      right. exists e. split; [reflexivity|]. split; [reflexivity|].
      split; [reflexivity|].
      destruct (setupError env) as [x|];
        [left; destruct Hrun as (Hx & _); congruence|].
      right. split; [reflexivity|].
      destruct (outcome (sceneBody env w h 0 scene t0)) as [u|e'|] eqn:Es;
        [destruct Hrun as (Hx & _); discriminate Hx |
        | destruct Hrun as (Hx & _); discriminate Hx].
      destruct (loadedVisual env scene) as [[v|]|] eqn:Ev;
        destruct (loadedAudio env scene) as [a|] eqn:Ea;
        try (rewrite (proj1 (sceneBody_load_error env w h 0 scene t0
                               (or_intror Ea))) in Es; discriminate Es);
        try (rewrite (proj1 (sceneBody_load_error env w h 0 scene t0
                               (or_introl Ev))) in Es; discriminate Es);
        try (rewrite (proj1 (sceneBody_no_visual env w h 0 scene t0 a Ev Ea))
              in Es; discriminate Es).
      exists v. split; [reflexivity|].
      destruct (playRejects env scene v) eqn:Er; [reflexivity|].
      destruct (sceneBody_plays env w h 0 scene t0 v a Ev Ea)
        as (t' & Ho & _).
      rewrite Ho, (playScene_resolves env w h Hfi 0 scene v a t' Er) in Es.
      discriminate Es.
  - intros e He. rewrite He in Hrun. exact (proj1 Hrun).
  - intros Hctx Hfail. rewrite Hctx in Hrun.
    destruct (sceneBody_load_error env w h 0 scene t0 Hfail) as [Ho Hl].
    rewrite Ho in Hrun. destruct Hrun as (Hd & _ & Hlog).
    split; [eexists; exact Hd|].
    intros i rect Hin. rewrite Hlog, Hl in Hin.
    unfold setupLog, loadErrorLog, teardownLog in Hin.
    destruct (startsSuspended env); cbn in Hin;
      decompose [or] Hin; try discriminate; contradiction.
Qed.

Lemma scene_download_outcomes_witness :
  0 < frameInterval ExportFacts.deafBrowser /\
  setupError ExportFacts.deafBrowser = None /\
  loadedAudio ExportFacts.deafBrowser (Sample.scene (Some "a.png"%string) (Some "3.wav"%string))
  = None /\
  outcome (handleDownloadScene ExportFacts.deafBrowser
             (Sample.scene (Some "a.png"%string) (Some "3.wav"%string))
             4 "16:9" 0) = Done None.
Proof.
  assert (Hfi : 0 < frameInterval ExportFacts.deafBrowser) by reflexivity.
  assert (Hctx : setupError ExportFacts.deafBrowser = None) by reflexivity.
  assert (Ha : loadedAudio ExportFacts.deafBrowser
                 (Sample.scene (Some "a.png"%string) (Some "3.wav"%string))
               = None) by reflexivity.
  split; [exact Hfi|]. split; [exact Hctx|]. split; [exact Ha|].
  destruct (scene_download_outcomes ExportFacts.deafBrowser
              (Sample.scene (Some "a.png"%string) (Some "3.wav"%string))
              4 "16:9" 0 Hfi) as ((link & Ho & Hcases) & _ & Hempty).
  destruct (Hempty Hctx (or_intror Ha)) as [[blob Hb] _].
  destruct Hcases as [(b & _ & -> & _)|(e & He & _)].
  - exact Ho.
  - rewrite Hb in He. discriminate He.
Defined.

End SceneDownload.

(** * Animating a scene ([generateVideoFromImage]) *)

Module Veo.

(** A long-running operation of the video service: whether it is done,
    and [operation.response?.generatedVideos?.[0]?.video?.uri]. *)
Record Operation : Type := mkOperation {
  done : bool;
  videoUri : option string
}.

Record FetchResponse : Type := mkFetchResponse {
  ok : bool;
  responseStatus : nat;
  objectUrl : string
}.

(** What the surroundings answer; [inl] is a promise that rejects with
    that message.  [getVideosOperation k] is the answer to the poll
    number [k]. *)
Record Service : Type := mkService {
  hasSelectedApiKey : string + bool;
  apiKey : option string;
  generateVideos :
    option string -> string -> string -> string -> string + Operation;
  getVideosOperation : nat -> string + Operation;
  fetchVideo : string -> string + FetchResponse
}.

(** [await promise] *)
Definition settle {A} (r : string + A) : M A :=
  match r with
  | inl message => throw message
  | inr a => ret a
  end.

(** The aspect ratio handed to the service. *)
Definition veoAspect (aspectRatio : string) : string :=
  if String.eqb aspectRatio "1:1" then "16:9"%string else aspectRatio.

Section Generate.

Variable svc : Service.

(** [while (!operation.done)]: a second's wait, then the next poll. *)
Fixpoint pollLoop (fuel : nat) (k : nat) (operation : Operation)
  : M Operation :=
  if done operation then ret operation
  else match fuel with
       | O => diverge
       | S fuel' =>
           sleep 1000 ;;
           next <- settle (getVideosOperation svc k) ;;
           pollLoop fuel' (S k) next
       end.

Definition generateVideoFromImage (fuel : nat)
           (imageBase64 prompt aspectRatio : string) : M string :=
  hasKey <- settle (hasSelectedApiKey svc) ;;
  if negb hasKey then throw "API_KEY_REQUIRED"
  else if negb (JS.truthy (apiKey svc)) then throw "API Key not found"
  else
    let base64Data := Gemini.base64Data imageBase64 in
    let mimeType := Gemini.mimeTypeOf imageBase64 in
    tryCatch
      (operation <- settle (generateVideos svc base64Data mimeType prompt
                                           (veoAspect aspectRatio)) ;;
       operation <- pollLoop fuel 0 operation ;;
       match videoUri operation with
       | Some (String c uri) =>
           response <- settle
                         (fetchVideo svc
                            (String c uri ++ "&key="
                               ++ Gemini.orStr (apiKey svc) EmptyString)) ;;
           if negb (ok response) then
             throw ("Failed to download generated video. Status: "
                      ++ CreateMagic.dec (responseStatus response))
           else ret (objectUrl response)
       | _ => throw "Video generation completed but no URI returned."
       end)
      (fun message => throw ("Video Gen Error: " ++ message)).

(** The operation is done after exactly [k] more polls, numbered from
    [start], none of which rejects, and is then [final]. *)
Fixpoint settlesAfter (start k : nat) (operation final : Operation) : Prop :=
  match k with
  | O => done operation = true /\ final = operation
  | S k' =>
      done operation = false /\
      exists next,
        getVideosOperation svc start = inr next /\
        settlesAfter (S start) k' next final
  end.

Lemma pollLoop_settles (k : nat) :
  forall fuel start operation final t,
    settlesAfter start k operation final -> (k <= fuel)%nat ->
    exists c,
      pollLoop fuel start operation t = mkRun (Done final) c [] /\
      c == t + 1000 * inject_Z (Z.of_nat k).
Proof.
  induction k as [|k IH]; intros fuel start operation final t Hs Hf.
  - destruct Hs as [Hd ->]. exists t.
    split; [|change (inject_Z (Z.of_nat 0)) with 0; ring].
    destruct fuel; cbn [pollLoop]; rewrite Hd; reflexivity.
  - destruct Hs as (Hd & next & Hn & Hrest).
    destruct fuel as [|fuel]; [lia|].
    cbn [pollLoop]. rewrite Hd, bind_sleep, Hn. cbn [settle].
    rewrite bind_ret.
    destruct (IH fuel (S start) next final (t + 1000) Hrest ltac:(lia))
      as (c & Hc & Ec).
    exists c. split; [exact Hc|]. rewrite Ec.
    rewrite Nat2Z.inj_succ, <- Z.add_1_r, inject_Z_plus.
    change (inject_Z 1) with 1. ring.
Qed.

End Generate.

(** How the request ends once the operation is done. *)
Definition delivered (svc : Service) (final : Operation) : string + string :=
  match videoUri final with
  | Some (String c uri) =>
      match fetchVideo svc (String c uri ++ "&key="
                              ++ Gemini.orStr (apiKey svc) EmptyString) with
      | inr response =>
          if ok response then inr (objectUrl response)
          else inl ("Video Gen Error: Failed to download generated video. Status: "
                      ++ CreateMagic.dec (responseStatus response))%string
      | inl message => inl ("Video Gen Error: " ++ message)%string
      end
  | _ =>
      inl "Video Gen Error: Video generation completed but no URI returned."%string
  end.

(** X28: with a key selected and set, a video request whose operation is
    done after [k] polls, none of them rejecting, never hangs: it settles
    after exactly [k] seconds of waiting, one per poll.  It resolves with
    the object URL when the operation carries a URI and the download
    answers OK; every other ending is a rejection whose message starts
    with "Video Gen Error: ".  The service is asked for 16:9 when the
    ratio is 1:1. *)
Theorem video_request_settles
        (svc : Service) (fuel k : nat)
        (imageBase64 prompt aspectRatio : string)
        (first final : Operation) (t : Q)
        (Hselected : hasSelectedApiKey svc = inr true)
        (Hkey : JS.truthy (apiKey svc) = true)
        (Hstart : generateVideos svc (Gemini.base64Data imageBase64)
                    (Gemini.mimeTypeOf imageBase64) prompt
                    (veoAspect aspectRatio) = inr first)
        (Hpolls : settlesAfter svc 0 k first final)
        (Hfuel : (k <= fuel)%nat) :
  let r := generateVideoFromImage svc fuel imageBase64 prompt aspectRatio t in
  clock r == t + 1000 * inject_Z (Z.of_nat k) /\
  log r = [] /\
  match delivered svc final with
  | inr url => outcome r = Done url
  | inl message =>
      outcome r = Threw message /\
      String.prefix "Video Gen Error: " message = true
  end.
Proof.
  cbv zeta. unfold generateVideoFromImage. cbv zeta.
  rewrite Hselected. cbn [settle]. rewrite bind_ret. cbn [negb].
  rewrite Hkey. cbn [negb]. rewrite Hstart. cbn [settle].
  destruct (pollLoop_settles svc k fuel 0 first final t Hpolls Hfuel)
    as (c & Hp & Ec).
  unfold tryCatch. rewrite bind_ret.
  rewrite (bind_done (pollLoop svc fuel 0 first) _ t final
             ltac:(rewrite Hp; reflexivity)).
  rewrite Hp. cbn [clock log app]. unfold delivered.
  assert (Hpre : forall m,
             String.prefix "Video Gen Error: " ("Video Gen Error: " ++ m)
             = true) by (intros m; apply JSString.prefix_app).
  destruct (videoUri final) as [[|ch uri]|].
  - cbn. split; [exact Ec|]. split; [reflexivity|]. split; reflexivity.
  - destruct (fetchVideo svc _) as [message|response]; cbn [settle].
    + rewrite bind_throw. cbn [outcome clock log app throw].
      split; [exact Ec|]. split; [reflexivity|].
      split; [reflexivity | apply Hpre].
    + rewrite bind_ret. destruct (ok response); cbn [negb].
      * split; [exact Ec|]. split; reflexivity.
      * cbn [outcome clock log app throw].
        split; [exact Ec|]. split; [reflexivity|].
        split; [reflexivity|].
        exact (Hpre ("Failed to download generated video. Status: "
                       ++ CreateMagic.dec (responseStatus response))%string).
  - cbn. split; [exact Ec|]. split; [reflexivity|]. split; reflexivity.
Qed.

(** A service that is done at the third poll and delivers. *)
Definition slowService : Service :=
  mkService (inr true) (Some "k"%string)
            (fun _ _ _ _ => inr (mkOperation false None))
            (fun k => inr (mkOperation (2 <=? k)%nat
                                       (Some "https://v/1?alt=media"%string)))
            (fun _ => inr (mkFetchResponse true 200 "blob:video")).

Lemma video_request_settles_witness :
  settlesAfter slowService 0 3 (mkOperation false None)
               (mkOperation true (Some "https://v/1?alt=media"%string)) /\
  outcome (generateVideoFromImage slowService 10
             "data:image/png;base64,AA" "a cat" "1:1" 0)
  = Done "blob:video"%string /\
  clock (generateVideoFromImage slowService 10
           "data:image/png;base64,AA" "a cat" "1:1" 0) == 3000.
Proof.
  assert (Hp : settlesAfter slowService 0 3 (mkOperation false None)
                 (mkOperation true (Some "https://v/1?alt=media"%string))).
  { cbn. split; [reflexivity|]. eexists. split; [reflexivity|].
    split; [reflexivity|]. eexists. split; [reflexivity|].
    split; [reflexivity|]. eexists. split; [reflexivity|].
    split; reflexivity. }
  split; [exact Hp|].
  destruct (video_request_settles slowService 10 3
              "data:image/png;base64,AA" "a cat" "1:1" _ _ 0
              eq_refl eq_refl eq_refl Hp ltac:(lia)) as (Hc & _ & Ho).
  split; [exact Ho|]. rewrite Hc. vm_compute. reflexivity.
Defined.

End Veo.

(** * Exporting and sharing from the player ([handleDownload],
      [handleShareClick]) *)

Module PlayerExport.

(** [`storyreel-scene-${currentSceneIndex + 1}.${ext}`] *)
Definition sceneFileName (currentSceneIndex : Z) (blob : Blob) : string :=
  ("storyreel-scene-" ++ CreateMagic.dec (Z.to_nat (currentSceneIndex + 1))
     ++ "." ++ extensionOf blob)%string.

(** The state the two handlers write, and the alerts shown. *)
Inductive ShareState : Type := idle | generating | ready.

Record File : Type := mkFile { fileName : string; fileType : string }.

Record Ui : Type := mkUi {
  isPlaying : bool;
  isExporting : bool;
  shareState : ShareState;
  shareFile : option File;
  alerts : list string;
  shared : list File
}.

(** [navigator]: whether files can be shared, and how [navigator.share]
    ends for a file: [None] when it resolves, else the name of the error
    it rejects with. *)
Record Navigator : Type := mkNavigator {
  canShareFiles : bool;
  share : File -> option string
}.

Section Handlers.

Variable env : Browser.
Variable nav : Navigator.
Variable scenes : list GeneratedScene.
Variable aspectRatio : string.

(** [handleDownload] *)
Definition handleDownload (currentSceneIndex : Z) (ui : Ui) : M Ui :=
  match Preview.sceneAt scenes currentSceneIndex with
  | None => ret ui
  | Some scene =>
      let wasPlaying := isPlaying ui in
      let paused := if wasPlaying then false else isPlaying ui in
      alerted <-
        tryCatch
          (blob <- generateVideo env [scene] aspectRatio ;;
           emit (BlobDownloaded blob (sceneFileName currentSceneIndex blob)) ;;
           ret [])
          (fun _ =>
             emit (ConsoleError "Export failed") ;;
             ret ["Failed to export video. See console for details."%string]) ;;
      ret (mkUi (if wasPlaying then true else paused) false
                (shareState ui) (shareFile ui) (alerts ui ++ alerted)
                (shared ui))
  end.

(** The second click: the file prepared is shared, or downloaded when
    sharing is not possible or fails; an aborted share does nothing. *)
Definition shareNow (file : File) (ui : Ui) : M Ui :=
  let downloaded := BlobDownloaded (mkBlob (fileType file)) (fileName file) in
  let reset := fun alerted shared' =>
                 mkUi (isPlaying ui) (isExporting ui) idle None
                      (alerts ui ++ alerted) shared' in
  if canShareFiles nav then
    match share nav file with
    | None => ret (reset [] (shared ui ++ [file]))
    | Some name =>
        if negb (String.eqb name "AbortError") then
          emit (ConsoleError "Error sharing:") ;;
          emit downloaded ;;
          ret (reset ["Sharing failed. Video downloaded instead."%string]
                     (shared ui))
        else ret (reset [] (shared ui))
    end
  else
    emit downloaded ;;
    ret (reset ["Sharing files is not supported on this device. Video downloaded instead."%string]
               (shared ui)).

(** The first click: the video of the scene is generated and kept. *)
Definition prepareShare (scene : GeneratedScene) (currentSceneIndex : Z)
           (ui : Ui) : M Ui :=
  let wasPlaying := isPlaying ui in
  let paused := if wasPlaying then false else isPlaying ui in
  prepared <-
    tryCatch
      (blob <- generateVideo env [scene] aspectRatio ;;
       ret (ready,
            Some (mkFile (sceneFileName currentSceneIndex blob)
                         (blobType blob)),
            []))
      (fun _ =>
         emit (ConsoleError "Error preparing share:") ;;
         ret (idle, shareFile ui,
              ["Failed to prepare video for sharing."%string])) ;;
  ret (mkUi paused false (fst (fst prepared)) (snd (fst prepared))
            (alerts ui ++ snd prepared) (shared ui)).

(** [handleShareClick] *)
Definition handleShareClick (currentSceneIndex : Z) (ui : Ui) : M Ui :=
  match Preview.sceneAt scenes currentSceneIndex with
  | None => ret ui
  | Some scene =>
      match shareState ui, shareFile ui with
      | ready, Some file => shareNow file ui
      | idle, _ => prepareShare scene currentSceneIndex ui
      | _, _ => ret ui
      end
  end.

End Handlers.

(** A [try] around an export whose two branches cannot fail. *)
Lemma try_export {A} (G : M Blob) (k : Blob -> M A) (h : string -> M A)
      (va : Blob -> A) (la : Blob -> list Event) (b : A) (lb : list Event)
      (t : Q) :
  (forall blob c, k blob c = mkRun (Done (va blob)) c (la blob)) ->
  (forall msg c, h msg c = mkRun (Done b) c lb) ->
  outcome (G t) <> Diverged ->
  tryCatch (bind G k) h t
  = match outcome (G t) with
    | Done blob => mkRun (Done (va blob)) (clock (G t)) (log (G t) ++ la blob)
    | _ => mkRun (Done b) (clock (G t)) (log (G t) ++ lb)
    end.
Proof.
  intros Hk Hh Hnd. unfold tryCatch, bind.
  destruct (G t) as [o c l]. cbn [outcome clock log] in *.
  destruct o as [blob|e|]; [| |congruence].
  - rewrite Hk. reflexivity.
  - rewrite Hh. reflexivity.
Qed.

(** How the export of the one scene ended, as far as the handlers care. *)
Definition exported (env : Browser) (scene : GeneratedScene)
           (aspectRatio : string) (t : Q) : option Blob :=
  match outcome (generateVideo env [scene] aspectRatio t) with
  | Done blob => Some blob
  | _ => None
  end.

(** X29: with a positive frame interval [handleDownload] always settles,
    with the exporting flag cleared and the playing flag as it was before
    the click, whether the export of the current scene resolved or not.
    A resolved export is downloaded once, under the scene's number, and
    no alert is shown; a rejected one downloads nothing and shows one
    alert.  Without a current scene nothing happens. *)
Theorem download_restores_playback
        (env : Browser) (scenes : list GeneratedScene) (aspectRatio : string)
        (currentSceneIndex : Z) (ui : Ui) (t : Q)
        (Hfi : 0 < frameInterval env) :
  let r := handleDownload env scenes aspectRatio currentSceneIndex ui t in
  (Preview.sceneAt scenes currentSceneIndex = None ->
   r = mkRun (Done ui) t []) /\
  forall scene,
    Preview.sceneAt scenes currentSceneIndex = Some scene ->
    let G := generateVideo env [scene] aspectRatio t in
    exists ui',
      outcome r = Done ui' /\
      isPlaying ui' = isPlaying ui /\ isExporting ui' = false /\
      shareState ui' = shareState ui /\ shareFile ui' = shareFile ui /\
      match exported env scene aspectRatio t with
      | Some blob =>
          alerts ui' = alerts ui /\
          log r = log G ++ [BlobDownloaded blob
                              (sceneFileName currentSceneIndex blob)]
      | None =>
          (exists a, alerts ui' = alerts ui ++ [a]) /\
          forall blob name, ~ In (BlobDownloaded blob name) (log r)
      end.
Proof.
  cbv zeta. unfold handleDownload. split.
  - intros ->. reflexivity.
  - intros scene ->.
    pose proof (ExportFacts.generateVideo_settles env Hfi [scene]
                  aspectRatio t) as Hset.
    match goal with
    | |- context [tryCatch (bind ?G ?k) ?h] =>
        pose proof (try_export G k h (fun _ => [])
                      (fun blob =>
                         [BlobDownloaded blob
                            (sceneFileName currentSceneIndex blob)])
                      ["Failed to export video. See console for details."%string]
                      [ConsoleError "Export failed"] t
                      ltac:(intros; reflexivity) ltac:(intros; reflexivity)
                      Hset) as Htry;
        set (body := tryCatch (bind G k) h) in *
    end.
    unfold exported.
    destruct (outcome (generateVideo env [scene] aspectRatio t))
      as [blob|e|] eqn:Eo; [| |congruence];
      rewrite (bind_done body _ t _ ltac:(rewrite Htry; reflexivity));
      rewrite Htry; cbn [outcome clock log ret app];
      eexists; (split; [reflexivity|]);
      cbn [isPlaying isExporting shareState shareFile alerts];
      (split; [destruct (isPlaying ui); reflexivity|]);
      (split; [reflexivity|]); (split; [reflexivity|]);
      (split; [reflexivity|]); rewrite ?app_nil_r.
    + split; reflexivity.
    + split; [eexists; reflexivity|].
      intros blob name Hin. apply in_app_or in Hin.
      destruct Hin as [Hin|[Hx|[]]]; [|discriminate Hx].
      exact (ExportFacts.generateVideo_no_download env [scene] aspectRatio t
               blob name Hin).
Qed.

Lemma download_restores_playback_witness :
  0 < frameInterval Sample.browser /\
  Preview.sceneAt Sample.threeScenes 0
  = Some (Sample.scene (Some "a.png"%string) (Some "3.wav"%string)) /\
  exists ui',
    outcome (handleDownload Sample.browser Sample.threeScenes "16:9" 0
               (mkUi true false idle None [] []) 0) = Done ui' /\
    isPlaying ui' = true.
Proof.
  assert (Hfi : 0 < frameInterval Sample.browser) by reflexivity.
  assert (Hs : Preview.sceneAt Sample.threeScenes 0
               = Some (Sample.scene (Some "a.png"%string)
                                    (Some "3.wav"%string))) by reflexivity.
  split; [exact Hfi|]. split; [exact Hs|].
  destruct (download_restores_playback Sample.browser Sample.threeScenes
              "16:9" 0 (mkUi true false idle None [] []) 0 Hfi) as [_ H].
  destruct (H _ Hs) as (ui' & Ho & Hp & _).
  exists ui'. split; [exact Ho | exact Hp].
Defined.

(** X30: sharing takes two clicks.  The first, in the idle state, pauses
    playback and does not resume it; with a positive frame interval it
    always settles with the exporting flag cleared, in the ready state
    with a file named after the scene when the export resolved, and
    otherwise idle again with one alert; it downloads and shares nothing.
    The second, in the ready state, always ends idle with the file
    dropped: the file is handed to [navigator.share] when files can be
    shared, and downloaded, with an alert, exactly when they cannot or
    when sharing fails for another reason than the user aborting.  A
    click while generating changes nothing. *)
Theorem share_takes_two_clicks
        (env : Browser) (nav : Navigator) (scenes : list GeneratedScene)
        (aspectRatio : string) (currentSceneIndex : Z)
        (scene : GeneratedScene) (ui : Ui) (t : Q)
        (Hfi : 0 < frameInterval env)
        (Hscene : Preview.sceneAt scenes currentSceneIndex = Some scene) :
  let r := handleShareClick env nav scenes aspectRatio currentSceneIndex ui t in
  (shareState ui = idle ->
   exists ui',
     outcome r = Done ui' /\
     isPlaying ui' = false /\ isExporting ui' = false /\
     shared ui' = shared ui /\
     (forall blob name, ~ In (BlobDownloaded blob name) (log r)) /\
     match exported env scene aspectRatio t with
     | Some blob =>
         shareState ui' = ready /\
         shareFile ui'
         = Some (mkFile (sceneFileName currentSceneIndex blob) (blobType blob))
         /\ alerts ui' = alerts ui
     | None =>
         shareState ui' = idle /\ shareFile ui' = shareFile ui /\
         exists a, alerts ui' = alerts ui ++ [a]
     end) /\
  (forall file,
      shareState ui = ready -> shareFile ui = Some file ->
      exists ui',
        r = mkRun (Done ui') t (log r) /\
        shareState ui' = idle /\ shareFile ui' = None /\
        isPlaying ui' = isPlaying ui /\
        let downloads :=
          negb (canShareFiles nav)
          || match share nav file with
             | Some name => negb (String.eqb name "AbortError")
             | None => false
             end in
        (if downloads
         then In (BlobDownloaded (mkBlob (fileType file)) (fileName file))
                 (log r) /\
              exists a, alerts ui' = alerts ui ++ [a]
         else log r = [] /\ alerts ui' = alerts ui) /\
        (shared ui' = shared ui ++ [file] <->
         canShareFiles nav = true /\ share nav file = None)) /\
  (shareState ui = generating -> r = mkRun (Done ui) t []).
Proof.
  cbv zeta. unfold handleShareClick. rewrite Hscene.
  split; [|split].
  - intros Hidle. rewrite Hidle. unfold prepareShare. cbv zeta.
    pose proof (ExportFacts.generateVideo_settles env Hfi [scene]
                  aspectRatio t) as Hset.
    match goal with
    | |- context [tryCatch (bind ?G ?k) ?h] =>
        pose proof (try_export G k h
                      (fun blob =>
                         (ready,
                          Some (mkFile (sceneFileName currentSceneIndex blob)
                                       (blobType blob)),
                          @nil string))
                      (fun _ => [])
                      (idle, shareFile ui,
                       ["Failed to prepare video for sharing."%string])
                      [ConsoleError "Error preparing share:"] t
                      ltac:(intros; reflexivity) ltac:(intros; reflexivity)
                      Hset) as Htry;
        set (body := tryCatch (bind G k) h) in *
    end.
    unfold exported.
    destruct (outcome (generateVideo env [scene] aspectRatio t))
      as [blob|e|] eqn:Eo; [| |congruence];
      rewrite (bind_done body _ t _ ltac:(rewrite Htry; reflexivity));
      rewrite Htry; cbn [outcome clock log ret app fst snd];
      eexists; (split; [reflexivity|]);
      cbn [isPlaying isExporting shareState shareFile alerts shared];
      (split; [destruct (isPlaying ui); reflexivity|]);
      (split; [reflexivity|]); (split; [reflexivity|]);
      rewrite !app_nil_r.
    + split; [|repeat split].
      intros b name Hin.
      exact (ExportFacts.generateVideo_no_download env [scene] aspectRatio t
               b name Hin).
    + split; [|split; [reflexivity | split; [reflexivity|eexists; reflexivity]]].
      intros b name Hin. apply in_app_or in Hin.
      destruct Hin as [Hin|[Hx|[]]]; [|discriminate Hx].
      exact (ExportFacts.generateVideo_no_download env [scene] aspectRatio t
               b name Hin).
  - intros file Hready Hfile. rewrite Hready, Hfile.
    unfold shareNow. cbv zeta.
    assert (Hsame : forall P : Prop,
               shared ui = shared ui ++ [file] -> P).
    { intros P H. exfalso. apply (f_equal (@List.length File)) in H.
      rewrite length_app in H. cbn in H. lia. }
    destruct (canShareFiles nav); cbn [negb orb].
    + destruct (share nav file) as [name|].
      * destruct (String.eqb name "AbortError"); cbn [negb].
        -- eexists. split; [reflexivity|].
           cbn [shareState shareFile isPlaying alerts shared log ret].
           split; [reflexivity|]. split; [reflexivity|].
           split; [reflexivity|]. split.
           ++ split; [reflexivity | apply app_nil_r].
           ++ split; [apply Hsame | intros [_ H]; discriminate H].
        -- step_run. cbn [ret outcome clock log app].
           eexists. split; [reflexivity|].
           cbn [shareState shareFile isPlaying alerts shared].
           split; [reflexivity|]. split; [reflexivity|].
           split; [reflexivity|]. split.
           ++ split; [right; left; reflexivity | eexists; reflexivity].
           ++ split; [apply Hsame | intros [_ H]; discriminate H].
      * eexists. split; [reflexivity|].
        cbn [shareState shareFile isPlaying alerts shared log ret].
        split; [reflexivity|]. split; [reflexivity|].
        split; [reflexivity|]. split.
        -- split; [reflexivity | apply app_nil_r].
        -- split; [intros _; split; reflexivity | intros _; reflexivity].
    + step_run. cbn [ret outcome clock log app].
      eexists. split; [reflexivity|].
      cbn [shareState shareFile isPlaying alerts shared].
      split; [reflexivity|]. split; [reflexivity|].
      split; [reflexivity|]. split.
      * split; [left; reflexivity | eexists; reflexivity].
      * split; [apply Hsame | intros [H _]; discriminate H].
  - intros ->. reflexivity.
Qed.

Lemma share_takes_two_clicks_witness :
  0 < frameInterval Sample.browser /\
  Preview.sceneAt Sample.threeScenes 0
  = Some (Sample.scene (Some "a.png"%string) (Some "3.wav"%string)) /\
  exists ui',
    outcome (handleShareClick Sample.browser
               (mkNavigator true (fun _ => None)) Sample.threeScenes "16:9" 0
               (mkUi true false idle None [] []) 0) = Done ui' /\
    isPlaying ui' = false /\ isExporting ui' = false.
Proof.
  assert (Hfi : 0 < frameInterval Sample.browser) by reflexivity.
  assert (Hs : Preview.sceneAt Sample.threeScenes 0
               = Some (Sample.scene (Some "a.png"%string)
                                    (Some "3.wav"%string))) by reflexivity.
  split; [exact Hfi|]. split; [exact Hs|].
  destruct (share_takes_two_clicks Sample.browser
              (mkNavigator true (fun _ => None)) Sample.threeScenes "16:9" 0
              _ (mkUi true false idle None [] []) 0 Hfi Hs) as [H _].
  destruct (H eq_refl) as (ui' & Ho & Hp & He & _).
  exists ui'. split; [exact Ho|]. split; [exact Hp | exact He].
Defined.

End PlayerExport.
